(** * World Monitor: correlation detector and hotspot activity scorer

    A shallow embedding of

    - [services/correlation.ts]: [analyzeCorrelations] with its helpers
      [generateDedupeKey], [markSignalSeen], [extractTopics],
      [findRelatedTopics], [detectConvergence], [detectTriangulation], and
      the history functions [addToSignalHistory], [getRecentSignals];
    - [config/feeds.ts]: [SOURCE_TYPES], [getSourceType], [SOURCE_TIERS],
      [getSourceTier];
    - [components/Map.ts]: [getRelatedNews], [updateHotspotActivity], the
      view state ([setView], [zoomIn], [zoomOut], [reset], the wheel
      listener), [filterByTime], [setEarthquakes], [getHotspotLevels],
      [setHotspotLevels];
    - [components/MapPopup.ts]: [getTimeAgo], [getTimeUntil];
    - [components/SearchModal.ts]: [registerSource], [handleSearch],
      [moveSelection], [saveRecentSearch];
    - [components/SignalModal.ts]: [show], [hide];
    - the application shell: [runCorrelationAnalysis];
    - [config/geo.ts]: the hotspots [dc] and [telaviv].

    Conventions of the embedding.

    - A JavaScript [number] that holds a price, a percentage, a velocity or a
      confidence is a rational [Q]; the detector only adds, halves, compares
      and rounds such numbers.  Counters and millisecond clocks are [Z].
      Arithmetic on [Q] is exact where the source rounds to the nearest
      double; a property that hangs on the outcome of a subtraction or of
      repeated steps is stated for numbers on which the double arithmetic is
      exact as well ([onGrid], [onHalfSteps]).
    - A JavaScript string is a [string] of bytes; [toLowerCase] folds the
      ASCII letters and [slice] counts bytes, which is what the source does
      on ASCII titles.
    - A JavaScript [Map] iterates in insertion order, so it is an association
      list with in-place update ([JS.map_set]); the [Set] of recent dedupe
      keys is only ever probed, extended and shrunk, so it is a [gset].
    - Module-level variables ([previousSnapshot], [recentSignalKeys]) and the
      pending [setTimeout] callbacks form the explicit state [Detector].
      [Date.now()] is a parameter: one call of [analyzeCorrelations] runs to
      completion without yielding, and every clock reading inside it is the
      same [now].  A timer never runs before it is due; [fireTimeouts] is the
      host running the callbacks that are due.
    - Where two records of the source have a field of the same name, one of
      them carries a prefix or a trailing underscore here. *)

From Stdlib Require Import ZArith QArith Qabs Qround Qminmax Lqa String Ascii List Sorted Lia Bool.
From stdpp Require Import base decidable list strings gmap pretty.
Import ListNotations.

Local Open Scope string_scope.
Local Open Scope Z_scope.

(** ** JavaScript primitives used by the sources *)

Module JS.

(** [c.toLowerCase()] on one byte: only [A]..[Z] change. *)
Definition lower_ascii (c : ascii) : ascii :=
  let n := nat_of_ascii c in
  if (Nat.leb 65 n && Nat.leb n 90)%bool then ascii_of_nat (n + 32) else c.

(** [s.toLowerCase()] *)
Fixpoint toLowerCase (s : string) : string :=
  match s with
  | EmptyString => EmptyString
  | String c s' => String (lower_ascii c) (toLowerCase s')
  end.

(** [s.startsWith(p)] *)
Fixpoint startsWith (p s : string) : bool :=
  match p, s with
  | EmptyString, _ => true
  | String _ _, EmptyString => false
  | String a p', String b s' => if Ascii.eqb a b then startsWith p' s' else false
  end.

(** [s.includes(p)]: [p] occurs in [s] as a contiguous substring. *)
Fixpoint includes (s p : string) : bool :=
  if startsWith p s then true
  else match s with
       | EmptyString => false
       | String _ s' => includes s' p
       end.

(** [s.slice(0, n)] *)
Fixpoint slice0 (n : nat) (s : string) : string :=
  match n, s with
  | O, _ => EmptyString
  | S _, EmptyString => EmptyString
  | S n', String c s' => String c (slice0 n' s')
  end.

(** [Array.prototype.join(sep)] *)
Fixpoint join (sep : string) (l : list string) : string :=
  match l with
  | [] => ""
  | [x] => x
  | x :: rest => x ++ sep ++ join sep rest
  end.

(** Comparisons on numbers. *)
Definition leb (x y : Q) : bool := Qle_bool x y.
Definition ltb (x y : Q) : bool := negb (Qle_bool y x).
Definition geb (x y : Q) : bool := Qle_bool y x.
Definition gtb (x y : Q) : bool := negb (Qle_bool x y).

(** [Math.abs], [Math.min] *)
Definition abs (x : Q) : Q := Qabs x.
Definition min (x y : Q) : Q := Qmin x y.

(** [Math.round(x)]: the nearest integer, a tie going up. *)
Definition round (x : Q) : Z := Qfloor (x + (1 # 2))%Q.

(** Decimal digits of a natural number. *)
Definition digits (n : Z) : string := pretty (Z.to_N n).

(** The digits of [n] left-padded with zeros to width [w]. *)
Fixpoint pad0 (w : nat) (s : string) : string :=
  match w with
  | O => s
  | S w' => if Nat.ltb (String.length s) w then pad0 w' ("0" ++ s) else s
  end.

(** [x.toFixed(d)]: [d] decimals, rounded to nearest with ties away from
    zero in magnitude, a leading [-] when [x] is negative. *)
Definition toFixed (d : nat) (x : Q) : string :=
  let scale := Z.pow 10 (Z.of_nat d) in
  let n := Qfloor (Qabs x * inject_Z scale + (1 # 2))%Q in
  let sign := if ltb x 0%Q then "-" else "" in
  let int_part := digits (n / scale) in
  match d with
  | O => sign ++ int_part
  | _ => sign ++ int_part ++ "." ++ pad0 d (digits (n mod scale))
  end.

(** [String(t / 10)] for an integer number [t] of tenths, as produced by
    [Math.round(v * 10) / 10]: no fraction when the tenth digit is zero. *)
Definition show_tenths (t : Z) : string :=
  let a := Z.abs t in
  let sign := if (t <? 0)%Z then "-" else "" in
  if (a mod 10 =? 0)%Z then sign ++ digits (a / 10)
  else sign ++ digits (a / 10) ++ "." ++ digits (a mod 10).

(** [new Set(l)] read back as an array: first occurrences, in order. *)
Fixpoint uniq {A} `{EqDecision A} (seen l : list A) : list A :=
  match l with
  | [] => []
  | x :: l' => if bool_decide (x ∈ seen) then uniq seen l'
               else x :: uniq (seen ++ [x])%list l'
  end.

(** *** [Map<string, number>] in insertion order *)

Definition JMap := list (string * Q).

(** [m.get(k)] *)
Fixpoint map_get (m : JMap) (k : string) : option Q :=
  match m with
  | [] => None
  | (k', v) :: m' => if String.eqb k' k then Some v else map_get m' k
  end.

(** [m.set(k, v)]: an existing key keeps its place. *)
Fixpoint map_set (m : JMap) (k : string) (v : Q) : JMap :=
  match m with
  | [] => [(k, v)]
  | (k', v') :: m' => if String.eqb k' k then (k', v) :: m'
                      else (k', v') :: map_set m' k v
  end.

(** [new Map(entries)] *)
Definition map_of (entries : list (string * Q)) : JMap :=
  fold_left (fun m kv => map_set m (fst kv) (snd kv)) entries [].

(** [m.get(k) ?? 0] *)
Definition get0 (m : JMap) (k : string) : Q :=
  match map_get m k with Some v => v | None => 0%Q end.

(** [a.findIndex(p)], with [None] for [-1]. *)
Fixpoint findIndex {A} (p : A -> bool) (l : list A) : option nat :=
  match l with
  | [] => None
  | x :: l' => if p x then Some O
               else match findIndex p l' with
                    | Some i => Some (S i)
                    | None => None
                    end
  end.

(** [a.filter((x, idx) => p(x, idx))], the indices starting at [i]. *)
Fixpoint filteri {A} (p : A -> nat -> bool) (i : nat) (l : list A) : list A :=
  match l with
  | [] => []
  | x :: l' => if p x i then x :: filteri p (S i) l' else filteri p (S i) l'
  end.

End JS.

(** ** [types/index.ts]: the records the two components read *)

Record NewsItem := {
  source : string;
  title : string;
  link : string;
  pubDate : Z;          (* [pubDate.getTime()], milliseconds *)
  isAlert : bool
}.

Record VelocityMetrics := {
  sourcesPerHour : Q
}.

(** The detector reads [id], [primaryTitle], [sourceCount], [allItems] and
    [velocity] of a cluster; its other fields are not modelled. *)
Record ClusteredEvent := {
  id : string;
  primaryTitle : string;
  sourceCount : Q;
  allItems : list NewsItem;
  velocity : option VelocityMetrics
}.

Record PredictionMarket := {
  pm_title : string;
  yesPrice : Q
}.

Record MarketData := {
  symbol : string;
  name : string;
  display : string;
  price : option Q;
  change : option Q
}.

Inductive Level := low | elevated | high.

Record Hotspot := {
  hs_id : string;
  hs_name : string;
  keywords : list string;
  agencies : option (list string);
  level : option Level;
  status : option string;
  hasBreaking : option bool
}.

(** ** [config/feeds.ts] *)

Module Feeds.

Inductive SourceType := wire | gov | intel | mainstream | market | tech | other.

#[export] Instance SourceType_eq_dec : EqDecision SourceType.
Proof. solve_decision. Defined.

Definition SourceType_name (t : SourceType) : string :=
  match t with
  | wire => "wire" | gov => "gov" | intel => "intel"
  | mainstream => "mainstream" | market => "market" | tech => "tech"
  | other => "other"
  end.

Definition SOURCE_TYPES : list (string * SourceType) :=
  [ ("Reuters", wire); ("Reuters World", wire); ("Reuters Business", wire);
    ("AP News", wire); ("AFP", wire); ("Bloomberg", wire);
    ("White House", gov); ("State Dept", gov); ("Pentagon", gov);
    ("Treasury", gov); ("DOJ", gov); ("DHS", gov); ("CDC", gov);
    ("FEMA", gov); ("Federal Reserve", gov); ("SEC", gov);
    ("Defense One", intel); ("Breaking Defense", intel); ("The War Zone", intel);
    ("Defense News", intel); ("Bellingcat", intel); ("Krebs Security", intel);
    ("Foreign Policy", intel); ("The Diplomat", intel);
    ("BBC World", mainstream); ("BBC Middle East", mainstream);
    ("Guardian World", mainstream); ("Guardian ME", mainstream);
    ("NPR News", mainstream); ("Al Jazeera", mainstream);
    ("CNN Middle East", mainstream);
    ("CNBC", market); ("MarketWatch", market); ("Yahoo Finance", market);
    ("Financial Times", market);
    ("Hacker News", tech); ("Ars Technica", tech); ("The Verge", tech);
    ("MIT Tech Review", tech); ("TechCrunch Layoffs", tech);
    ("AI News", tech); ("Hugging Face", tech); ("ArXiv AI", tech);
    ("VentureBeat AI", tech); ("OpenAI News", tech) ].

Fixpoint lookup_type (tbl : list (string * SourceType)) (k : string) : option SourceType :=
  match tbl with
  | [] => None
  | (k', t) :: tbl' => if String.eqb k' k then Some t else lookup_type tbl' k
  end.

(** [SOURCE_TYPES[sourceName] ?? 'other'] *)
Definition getSourceType (sourceName : string) : SourceType :=
  match lookup_type SOURCE_TYPES sourceName with
  | Some t => t
  | None => other
  end.

Definition SOURCE_TIERS : list (string * Z) :=
  [ ("Reuters", 1); ("AP News", 1); ("AFP", 1); ("Bloomberg", 1);
    ("BBC World", 2); ("BBC Middle East", 2); ("Guardian World", 2);
    ("Guardian ME", 2); ("NPR News", 2); ("CNN Middle East", 2); ("CNBC", 2);
    ("MarketWatch", 2); ("Al Jazeera", 2); ("Financial Times", 2);
    ("Reuters World", 1); ("Reuters Business", 1); ("OpenAI News", 3);
    ("White House", 1); ("State Dept", 1); ("Pentagon", 1); ("Treasury", 2);
    ("DOJ", 2); ("DHS", 2); ("CDC", 2); ("FEMA", 2);
    ("Defense One", 3); ("Breaking Defense", 3); ("The War Zone", 3);
    ("Foreign Policy", 3); ("The Diplomat", 3); ("Bellingcat", 3);
    ("Krebs Security", 3); ("Federal Reserve", 3); ("SEC", 3);
    ("MIT Tech Review", 3); ("Ars Technica", 3);
    ("Hacker News", 4); ("The Verge", 4); ("VentureBeat AI", 4);
    ("Yahoo Finance", 4); ("TechCrunch Layoffs", 4); ("Hugging Face", 4);
    ("ArXiv AI", 4) ].

Fixpoint lookup_tier (tbl : list (string * Z)) (k : string) : option Z :=
  match tbl with
  | [] => None
  | (k', t) :: tbl' => if String.eqb k' k then Some t else lookup_tier tbl' k
  end.

(** [SOURCE_TIERS[sourceName] ?? 4] *)
Definition getSourceTier (sourceName : string) : Z :=
  match lookup_tier SOURCE_TIERS sourceName with
  | Some t => t
  | None => 4
  end.

End Feeds.

(** ** [services/correlation.ts] *)

Module Correlation.
Import JS Feeds.

Inductive SignalType :=
| prediction_leads_news | news_leads_markets | silent_divergence
| velocity_spike | convergence | triangulation.

#[export] Instance SignalType_eq_dec : EqDecision SignalType.
Proof. solve_decision. Defined.

Definition SignalType_name (t : SignalType) : string :=
  match t with
  | prediction_leads_news => "prediction_leads_news"
  | news_leads_markets => "news_leads_markets"
  | silent_divergence => "silent_divergence"
  | velocity_spike => "velocity_spike"
  | convergence => "convergence"
  | triangulation => "triangulation"
  end.

Record SignalData := {
  newsVelocity_ : option Q;
  marketChange : option Q;
  predictionShift : option Q;
  relatedTopics : option (list string)
}.

(** [id] is [sig-<clock>-<random>]; nothing in the detector reads it and it
    is left out of the record. *)
Record CorrelationSignal := {
  type : SignalType;
  sig_title : string;
  description : string;
  confidence : Q;
  sig_timestamp : Z;
  data : SignalData
}.

Record StreamSnapshot := {
  newsVelocity : JMap;
  marketChanges : JMap;
  predictionChanges : JMap;
  timestamp : Z
}.

Definition PREDICTION_SHIFT_THRESHOLD : Q := 5.
Definition MARKET_MOVE_THRESHOLD : Q := 2.
Definition NEWS_VELOCITY_THRESHOLD : Q := 3.

(** [30 * 60 * 1000] *)
Definition WINDOW_MS : Z := 30 * 60 * 1000.

(** The module state: [previousSnapshot], [recentSignalKeys], and the
    callbacks queued by [setTimeout], each with the time it becomes due and
    the key it deletes. *)
Record Detector := {
  previousSnapshot : option StreamSnapshot;
  recentSignalKeys : gset string;
  pendingTimeouts : list (Z * string)
}.

Definition initial : Detector :=
  {| previousSnapshot := None; recentSignalKeys := ∅; pendingTimeouts := [] |}.

(** What one call threads through its loops: the key set, the timer queue
    and the local [signals] array.  Each pushed signal is recorded together
    with the dedupe key under which it was pushed; the array of the source
    is the second projection. *)
Record Run := {
  run_keys : gset string;
  run_timeouts : list (Z * string);
  run_signals : list (string * CorrelationSignal)
}.

Definition generateDedupeKey (t : SignalType) (identifier : string) (value : Q) : string :=
  let roundedValue := round (value * 10)%Q in
  SignalType_name t ++ ":" ++ identifier ++ ":" ++ show_tenths roundedValue.

Definition isRecentDuplicate (keys : gset string) (key : string) : bool :=
  bool_decide (key ∈ keys).

Definition markSignalSeen (now : Z) (key : string) (r : Run) : Run :=
  {| run_keys := {[ key ]} ∪ run_keys r;
     run_timeouts := (run_timeouts r ++ [(now + WINDOW_MS, key)])%list;
     run_signals := run_signals r |}.

Definition push (key : string) (sig : CorrelationSignal) (r : Run) : Run :=
  {| run_keys := run_keys r;
     run_timeouts := run_timeouts r;
     run_signals := (run_signals r ++ [(key, sig)])%list |}.

Definition topic_keywords : list string :=
  [ "iran"; "israel"; "ukraine"; "russia"; "china"; "taiwan"; "oil"; "crypto";
    "fed"; "interest"; "inflation"; "recession"; "war"; "sanctions"; "tariff";
    "ai"; "tech"; "layoff"; "trump"; "biden"; "election" ].

Definition extractTopics (events : list ClusteredEvent) : JMap :=
  fold_left (fun topics event =>
    let title := toLowerCase (primaryTitle event) in
    fold_left (fun topics kw =>
      if includes title kw then
        let v := match velocity event with
                 | Some m => sourcesPerHour m
                 | None => 0%Q
                 end in
        map_set topics kw (get0 topics kw + v + sourceCount event)%Q
      else topics) topic_keywords topics) events [].

Definition mappings : list (string * list string) :=
  [ ("iran", ["iran"; "israel"; "oil"; "sanctions"]);
    ("israel", ["israel"; "iran"; "war"; "gaza"]);
    ("ukraine", ["ukraine"; "russia"; "war"; "nato"]);
    ("russia", ["russia"; "ukraine"; "sanctions"]);
    ("china", ["china"; "taiwan"; "tariff"; "trade"]);
    ("taiwan", ["taiwan"; "china"]);
    ("trump", ["trump"; "election"; "tariff"]);
    ("fed", ["fed"; "interest"; "inflation"; "recession"]);
    ("bitcoin", ["crypto"; "bitcoin"]);
    ("recession", ["recession"; "fed"; "inflation"]) ].

Definition findRelatedTopics (prediction : string) : list string :=
  let title := toLowerCase prediction in
  let related :=
    fold_left (fun related kt =>
      if includes title (fst kt) then (related ++ snd kt)%list else related)
      mappings [] in
  uniq [] related.

Definition dquote : string := String (ascii_of_nat 34) EmptyString.

(** The locals of the loop body of [detectConvergence]. *)
Definition recentItems (now : Z) (event : ClusteredEvent) : list NewsItem :=
  List.filter (fun item => now - pubDate item <? WINDOW_MS) (allItems event).

Definition sourceTypes (now : Z) (event : ClusteredEvent) : list SourceType :=
  uniq [] (map (fun item => getSourceType (source item)) (recentItems now event)).

Definition types (now : Z) (event : ClusteredEvent) : list SourceType :=
  List.filter (fun t => negb (bool_decide (t = other))) (sourceTypes now event).

Definition convergenceKey (now : Z) (event : ClusteredEvent) : string :=
  generateDedupeKey convergence (id event)
    (inject_Z (Z.of_nat (length (sourceTypes now event)))).

Definition convergenceSignal (now : Z) (event : ClusteredEvent) : CorrelationSignal :=
  {| type := convergence;
     sig_title := "Source Convergence";
     description :=
       dquote ++ slice0 50 (primaryTitle event) ++ "..." ++ dquote ++ " reported by "
       ++ join ", " (map SourceType_name (types now event))
       ++ " (" ++ digits (Z.of_nat (length (recentItems now event))) ++ " sources in 30m)";
     confidence :=
       min (95 # 100)
         ((6 # 10) + inject_Z (Z.of_nat (length (sourceTypes now event))) * (1 # 10))%Q;
     sig_timestamp := now;
     data := {| newsVelocity_ := Some (inject_Z (Z.of_nat (length (recentItems now event))));
                marketChange := None;
                predictionShift := None;
                relatedTopics := Some (map SourceType_name (types now event)) |} |}.

Definition convergenceStep (now : Z) (r : Run) (event : ClusteredEvent) : Run :=
  if (length (allItems event) <? 3)%nat then r else
  if (length (recentItems now event) <? 3)%nat then r else
  if (3 <=? length (sourceTypes now event))%nat then
    let dedupeKey := convergenceKey now event in
    if negb (isRecentDuplicate (run_keys r) dedupeKey)
       && (3 <=? length (types now event))%nat then
      push dedupeKey (convergenceSignal now event) (markSignalSeen now dedupeKey r)
    else r
  else r.

(** [detectConvergence(events)]: its own [signals] array, the shared key
    set and timer queue. *)
Definition detectConvergence (now : Z) (keys : gset string) (timeouts : list (Z * string))
    (events : list ClusteredEvent) : Run :=
  fold_left (convergenceStep now) events
    {| run_keys := keys; run_timeouts := timeouts; run_signals := [] |}.

Definition CRITICAL_TYPES : list SourceType := [wire; gov; intel].

(** The locals of the loop body of [detectTriangulation]. *)
Definition typePresent (event : ClusteredEvent) : list SourceType :=
  uniq [] (List.filter (fun t => bool_decide (t ∈ CRITICAL_TYPES))
             (map (fun item => getSourceType (source item)) (allItems event))).

Definition triangulationKey (event : ClusteredEvent) : string :=
  generateDedupeKey triangulation (id event) 3.

Definition triangulationSignal (now : Z) (event : ClusteredEvent) : CorrelationSignal :=
  {| type := triangulation;
     sig_title := "Intel Triangulation";
     description :=
       "Wire + Gov + Intel aligned: " ++ dquote ++ slice0 45 (primaryTitle event)
       ++ "..." ++ dquote;
     confidence := 9 # 10;
     sig_timestamp := now;
     data := {| newsVelocity_ := Some (sourceCount event);
                marketChange := None;
                predictionShift := None;
                relatedTopics := Some (map SourceType_name (typePresent event)) |} |}.

Definition triangulationStep (now : Z) (r : Run) (event : ClusteredEvent) : Run :=
  if (length (allItems event) <? 3)%nat then r else
  if (length (typePresent event) =? 3)%nat then
    let dedupeKey := triangulationKey event in
    if negb (isRecentDuplicate (run_keys r) dedupeKey) then
      push dedupeKey (triangulationSignal now event) (markSignalSeen now dedupeKey r)
    else r
  else r.

Definition detectTriangulation (now : Z) (keys : gset string) (timeouts : list (Z * string))
    (events : list ClusteredEvent) : Run :=
  fold_left (triangulationStep now) events
    {| run_keys := keys; run_timeouts := timeouts; run_signals := [] |}.

(** *** [analyzeCorrelations] *)

Definition currentSnapshot (now : Z) (events : list ClusteredEvent)
    (predictions : list PredictionMarket) (markets : list MarketData) : StreamSnapshot :=
  {| newsVelocity := extractTopics events;
     marketChanges :=
       map_of (map (fun m => (symbol m, match change m with Some c => c | None => 0%Q end))
                 markets);
     predictionChanges :=
       map_of (map (fun p => (slice0 50 (pm_title p), yesPrice p)) predictions);
     timestamp := now |}.

Definition predictionSignal (now : Z) (pred : PredictionMarket) (shift newsActivity : Q)
    (related : list string) : CorrelationSignal :=
  {| type := prediction_leads_news;
     sig_title := "Prediction Market Shift";
     description :=
       dquote ++ slice0 60 (pm_title pred) ++ "..." ++ dquote ++ " moved "
       ++ (if gtb shift 0 then "+" else "") ++ toFixed 1 shift
       ++ "% with low news coverage";
     confidence := min (9 # 10) ((5 # 10) + shift / 20)%Q;
     sig_timestamp := now;
     data := {| newsVelocity_ := Some newsActivity;
                marketChange := None;
                predictionShift := Some shift;
                relatedTopics := Some related |} |}.

(** Body of the loop over [predictions]; [prev] is the previous snapshot. *)
Definition predictionStep (now : Z) (prev : StreamSnapshot) (newsTopics : JMap)
    (r : Run) (pred : PredictionMarket) : Run :=
  let key := slice0 50 (pm_title pred) in
  match map_get (predictionChanges prev) key with
  | Some p =>
      let shift := abs (yesPrice pred - p)%Q in
      if geb shift PREDICTION_SHIFT_THRESHOLD then
        let related := findRelatedTopics (pm_title pred) in
        let newsActivity :=
          fold_left (fun sum t => (sum + get0 newsTopics t)%Q) related 0%Q in
        let dedupeKey := generateDedupeKey prediction_leads_news key shift in
        if ltb newsActivity NEWS_VELOCITY_THRESHOLD
           && negb (isRecentDuplicate (run_keys r) dedupeKey) then
          push dedupeKey (predictionSignal now pred shift newsActivity related)
            (markSignalSeen now dedupeKey r)
        else r
      else r
  | None => r
  end.

Definition velocitySignal (now : Z) (topic : string) (v : Q) : CorrelationSignal :=
  {| type := velocity_spike;
     sig_title := "News Velocity Spike";
     description :=
       dquote ++ topic ++ dquote ++ " coverage surging: " ++ toFixed 1 v
       ++ " activity score";
     confidence := min (85 # 100) ((4 # 10) + v / 20)%Q;
     sig_timestamp := now;
     data := {| newsVelocity_ := Some v;
                marketChange := None;
                predictionShift := None;
                relatedTopics := Some [topic] |} |}.

(** Body of the loop over the entries of [newsTopics]. *)
Definition velocityStep (now : Z) (prev : StreamSnapshot)
    (r : Run) (entry : string * Q) : Run :=
  let '(topic, v) := entry in
  let prevVelocity := get0 (newsVelocity prev) topic in
  if gtb v (NEWS_VELOCITY_THRESHOLD * 2)%Q && gtb v (prevVelocity * 2)%Q then
    let dedupeKey := generateDedupeKey velocity_spike topic v in
    if negb (isRecentDuplicate (run_keys r) dedupeKey) then
      push dedupeKey (velocitySignal now topic v) (markSignalSeen now dedupeKey r)
    else r
  else r.

(** [market.change!] is read only where [Math.abs(market.change ?? 0)] has
    passed the threshold, so it is [market.change ?? 0] there. *)
Definition divergenceSignal (now : Z) (market : MarketData) (c relatedNews : Q)
    : CorrelationSignal :=
  {| type := silent_divergence;
     sig_title := "Unexplained Market Move";
     description :=
       name market ++ " moved " ++ (if gtb c 0 then "+" else "") ++ toFixed 2 c
       ++ "% with minimal news coverage";
     confidence := min (8 # 10) ((4 # 10) + abs c / 10)%Q;
     sig_timestamp := now;
     data := {| newsVelocity_ := Some relatedNews;
                marketChange := Some c;
                predictionShift := None;
                relatedTopics := None |} |}.

(** Body of the loop over [markets]. *)
Definition divergenceStep (now : Z) (newsTopics : JMap)
    (r : Run) (market : MarketData) : Run :=
  let c := match change market with Some c => c | None => 0%Q end in
  let change := abs c in
  if geb change MARKET_MOVE_THRESHOLD then
    let relatedNews :=
      fold_left (fun sum kv => (sum + snd kv)%Q)
        (List.filter (fun kv =>
           includes (toLowerCase (name market)) (fst kv)
           || includes (fst kv) (toLowerCase (symbol market))) newsTopics) 0%Q in
    let dedupeKey := generateDedupeKey silent_divergence (symbol market) change in
    if ltb relatedNews 2 && negb (isRecentDuplicate (run_keys r) dedupeKey) then
      push dedupeKey (divergenceSignal now market c relatedNews)
        (markSignalSeen now dedupeKey r)
    else r
  else r.

(** The [signals] array just before the two output filters, with the key
    set and timer queue as the five detectors leave them. *)
Definition candidates (now : Z) (prev : StreamSnapshot) (keys : gset string)
    (timeouts : list (Z * string)) (events : list ClusteredEvent)
    (predictions : list PredictionMarket) (markets : list MarketData) : Run :=
  let newsTopics := extractTopics events in
  let r0 := {| run_keys := keys; run_timeouts := timeouts; run_signals := [] |} in
  let r1 := fold_left (predictionStep now prev newsTopics) predictions r0 in
  let r2 := fold_left (velocityStep now prev) newsTopics r1 in
  let r3 := fold_left (divergenceStep now newsTopics) markets r2 in
  let c := detectConvergence now (run_keys r3) (run_timeouts r3) events in
  let t := detectTriangulation now (run_keys c) (run_timeouts c) events in
  {| run_keys := run_keys t;
     run_timeouts := run_timeouts t;
     run_signals := (run_signals r3 ++ run_signals c ++ run_signals t)%list |}.

(** [signals.filter((sig, idx) => signals.findIndex(s => s.type === sig.type) === idx)] *)
Definition uniqueSignals (signals : list CorrelationSignal) : list CorrelationSignal :=
  filteri (fun sig idx =>
    bool_decide (findIndex (fun s => bool_decide (type s = type sig)) signals = Some idx))
    O signals.

(** [uniqueSignals.filter(s => s.confidence >= 0.6)] *)
Definition highConfidence (signals : list CorrelationSignal) : list CorrelationSignal :=
  List.filter (fun s => geb (confidence s) (6 # 10)) signals.

(** One call: the state it leaves, the keyed [signals] array it built, and
    the list it returns. *)
Record Outcome := {
  after : Detector;
  pushed : list (string * CorrelationSignal);
  returned : list CorrelationSignal
}.

Definition analyzeCorrelations (now : Z) (events : list ClusteredEvent)
    (predictions : list PredictionMarket) (markets : list MarketData)
    (d : Detector) : Outcome :=
  let current := currentSnapshot now events predictions markets in
  match previousSnapshot d with
  | None =>
      {| after := {| previousSnapshot := Some current;
                     recentSignalKeys := recentSignalKeys d;
                     pendingTimeouts := pendingTimeouts d |};
         pushed := [];
         returned := [] |}
  | Some prev =>
      let r := candidates now prev (recentSignalKeys d) (pendingTimeouts d)
                 events predictions markets in
      {| after := {| previousSnapshot := Some current;
                     recentSignalKeys := run_keys r;
                     pendingTimeouts := run_timeouts r |};
         pushed := run_signals r;
         returned := highConfidence (uniqueSignals (map snd (run_signals r))) |}
  end.

(** The host runs the queued [setTimeout] callbacks that are due at time
    [upto]: each deletes its key from [recentSignalKeys]. *)
Definition fireTimeouts (upto : Z) (d : Detector) : Detector :=
  let due := List.filter (fun tk => fst tk <=? upto) (pendingTimeouts d) in
  {| previousSnapshot := previousSnapshot d;
     recentSignalKeys := fold_left (fun ks tk => ks ∖ {[ snd tk ]}) due (recentSignalKeys d);
     pendingTimeouts := List.filter (fun tk => negb (fst tk <=? upto)) (pendingTimeouts d) |}.

(** *** [signalHistory] *)

(** [while (signalHistory.length > 100) signalHistory.shift()] *)
Fixpoint trimHistory (history : list CorrelationSignal) : list CorrelationSignal :=
  match history with
  | [] => []
  | _ :: rest => if (100 <? length history)%nat then trimHistory rest else history
  end.

(** [addToSignalHistory(signals)], the history passed in and out. *)
Definition addToSignalHistory (signals history : list CorrelationSignal)
    : list CorrelationSignal :=
  trimHistory (history ++ signals)%list.

(** [getRecentSignals()] *)
Definition getRecentSignals (now : Z) (history : list CorrelationSignal)
    : list CorrelationSignal :=
  let cutoff := now - 30 * 60 * 1000 in
  List.filter (fun s => cutoff <? sig_timestamp s) history.

End Correlation.

(** ** The signal modal: [show] and [hide] *)

Module SignalModal.
Import Correlation.

(** [currentSignals] and [pendingCount]; the audio and the badge element
    hold no data. *)
Record Modal := {
  currentSignals : list CorrelationSignal;
  pendingCount : Z
}.

Definition empty : Modal := {| currentSignals := []; pendingCount := 0 |}.

Definition show (signals : list CorrelationSignal) (m : Modal) : Modal :=
  if (length signals =? 0)%nat then m
  else {| currentSignals := firstn 50 (signals ++ currentSignals m)%list;
          pendingCount := pendingCount m + Z.of_nat (length signals) |}.

Definition hide (m : Modal) : Modal :=
  {| currentSignals := currentSignals m; pendingCount := 0 |}.

End SignalModal.

(** ** The application shell: [runCorrelationAnalysis] *)

Module App.
Import Correlation.

(** The fields [runCorrelationAnalysis] touches, with the detector's module
    state and its history alongside. *)
Record Shell := {
  allNews : list NewsItem;
  latestClusters : list ClusteredEvent;
  latestPredictions : list PredictionMarket;
  latestMarkets : list MarketData;
  detector : Detector;
  signalHistory : list CorrelationSignal;
  signalModal : option SignalModal.Modal
}.

Section Analysis.
(** [clusterNews] belongs to the clustering service. *)
Variable clusterNews : list NewsItem -> list ClusteredEvent.

Definition runCorrelationAnalysis (now : Z) (a : Shell) : Shell :=
  let clusters :=
    if (length (latestClusters a) =? 0)%nat then clusterNews (allNews a)
    else latestClusters a in
  let o := analyzeCorrelations now clusters (latestPredictions a) (latestMarkets a)
             (detector a) in
  let signals := returned o in
  {| allNews := allNews a;
     latestClusters := clusters;
     latestPredictions := latestPredictions a;
     latestMarkets := latestMarkets a;
     detector := after o;
     signalHistory :=
       if (0 <? length signals)%nat then addToSignalHistory signals (signalHistory a)
       else signalHistory a;
     signalModal :=
       if (0 <? length signals)%nat then
         match signalModal a with
         | Some m => Some (SignalModal.show signals m)
         | None => None
         end
       else signalModal a |}.

End Analysis.

End App.

(** ** [components/Map.ts]: the hotspot scorer *)

Module HotspotMap.
Import JS.

(** The part of the map component the scorer touches: [this.news] and
    [this.hotspots].  [render()] draws and computes nothing. *)
Record MapComponent := {
  news : list NewsItem;
  hotspots : list Hotspot
}.

Definition conflictTopics : list string :=
  ["gaza"; "ukraine"; "russia"; "israel"; "iran"; "china"; "taiwan"; "korea"; "syria"].

(** [hotspot.keywords.filter(kw => titleLower.includes(kw.toLowerCase()))] *)
Definition matchKeywords (hotspot : Hotspot) (titleLower : string) : list string :=
  List.filter (fun kw => includes titleLower (toLowerCase kw)) (keywords hotspot).

Definition conflictMatches (hotspot : Hotspot) (titleLower : string) : list string :=
  List.filter (fun t =>
    includes titleLower t
    && negb (existsb (fun k => includes (toLowerCase k) t) (keywords hotspot)))
    conflictTopics.

(** [hotspot.agencies?.some(a => titleLower.includes(a.toLowerCase()))] *)
Definition agencyInTitle (hotspot : Hotspot) (titleLower : string) : bool :=
  match agencies hotspot with
  | Some ags => existsb (fun a => includes titleLower (toLowerCase a)) ags
  | None => false
  end.

Definition strongLocalMatch (hotspot : Hotspot) (titleLower : string)
    (matchedKeywords : list string) : bool :=
  existsb (fun kw =>
    String.eqb (toLowerCase kw) (toLowerCase (hs_name hotspot))
    || agencyInTitle hotspot titleLower) matchedKeywords.

(** The callback of the first [map]: [None] is the source's [null]. *)
Definition scoreItem (hotspot : Hotspot) (item : NewsItem) : option (NewsItem * nat) :=
  let titleLower := toLowerCase (title item) in
  let matchedKeywords := matchKeywords hotspot titleLower in
  if (length matchedKeywords =? 0)%nat then None
  else if (0 <? length (conflictMatches hotspot titleLower))%nat
          && negb (strongLocalMatch hotspot titleLower matchedKeywords) then None
  else Some (item, length matchedKeywords).

(** [.filter(x => x !== null)] *)
Fixpoint dropNull {A} (l : list (option A)) : list A :=
  match l with
  | [] => []
  | Some x :: l' => x :: dropNull l'
  | None :: l' => dropNull l'
  end.

(** [.sort((a, b) => b.score - a.score)]: the sort is stable, so an entry
    goes in front of the later entries that score no higher. *)
Fixpoint insertByScore (x : NewsItem * nat) (l : list (NewsItem * nat))
    : list (NewsItem * nat) :=
  match l with
  | [] => [x]
  | y :: l' => if (snd x <? snd y)%nat then y :: insertByScore x l' else x :: y :: l'
  end.

Definition sortByScore (l : list (NewsItem * nat)) : list (NewsItem * nat) :=
  fold_right insertByScore [] l.

Definition getRelatedNews (m : MapComponent) (hotspot : Hotspot) : list NewsItem :=
  map fst (firstn 5 (sortByScore (dropNull (map (scoreItem hotspot) (news m))))).

(** The three accumulators of the loop over [news]; the local [hasBreaking]
    is [breaking] here. *)
Record Tally := {
  score : Z;
  breaking : bool;
  matchedCount : Z
}.

(** [pubDate] is a [Date] object, so the guard [if (item.pubDate)] holds. *)
Definition tallyItem (now : Z) (spot : Hotspot) (t : Tally) (item : NewsItem) : Tally :=
  let titleLower := toLowerCase (title item) in
  let matches := matchKeywords spot titleLower in
  if (0 <? length matches)%nat then
    let s1 := score t + Z.of_nat (length matches) * 2 in
    let s2 := if isAlert item then s1 + 5 else s1 in
    let b := if isAlert item then true else breaking t in
    let hoursAgo := (inject_Z (now - pubDate item) / inject_Z (1000 * 60 * 60))%Q in
    let s3 := if ltb hoursAgo 1 then s2 + 3
              else if ltb hoursAgo 6 then s2 + 2
              else if ltb hoursAgo 24 then s2 + 1
              else s2 in
    {| score := s3; breaking := b; matchedCount := matchedCount t + 1 |}
  else t.

Definition tally (now : Z) (spot : Hotspot) (items : list NewsItem) : Tally :=
  fold_left (tallyItem now spot) items {| score := 0; breaking := false; matchedCount := 0 |}.

(** The [if] chain that sets [level] and [status]. *)
Definition classify (t : Tally) : Level * string :=
  if breaking t || (4 <=? matchedCount t) || (10 <=? score t) then
    (high, if breaking t then "BREAKING NEWS" else "High activity")
  else if (2 <=? matchedCount t) || (4 <=? score t) then
    (elevated, "Elevated activity")
  else if 1 <=? matchedCount t then
    (low, "Recent mentions")
  else
    (low, "Monitoring").

Definition updateSpot (now : Z) (items : list NewsItem) (spot : Hotspot) : Hotspot :=
  let t := tally now spot items in
  {| hs_id := hs_id spot;
     hs_name := hs_name spot;
     keywords := keywords spot;
     agencies := agencies spot;
     level := Some (fst (classify t));
     status := Some (snd (classify t));
     hasBreaking := Some (breaking t) |}.

Definition updateHotspotActivity (now : Z) (items : list NewsItem) (m : MapComponent)
    : MapComponent :=
  {| news := items; hotspots := map (updateSpot now items) (hotspots m) |}.

(** Severity as a number: [low < elevated < high]. *)
Definition rank (l : Level) : Z :=
  match l with low => 0 | elevated => 1 | high => 2 end.

End HotspotMap.

(** ** [config/geo.ts]: two of the [INTEL_HOTSPOTS] *)

Module Geo.

Definition dc : Hotspot :=
  {| hs_id := "dc";
     hs_name := "DC";
     keywords := ["pentagon"; "white house"; "congress"; "cia"; "nsa"; "washington";
                  "biden"; "trump"; "house"; "senate"; "supreme court"; "vance";
                  "elon"; "us "];
     agencies := Some ["Pentagon"; "CIA"; "NSA"; "State Dept"];
     level := None;
     status := Some "Monitoring";
     hasBreaking := None |}.

Definition telaviv : Hotspot :=
  {| hs_id := "telaviv";
     hs_name := "Tel Aviv";
     keywords := ["israel"; "idf"; "mossad"; "gaza"; "netanyahu"; "israeli"; "hamas";
                  "hezbollah"];
     agencies := Some ["IDF"; "Mossad"; "Shin Bet"];
     level := None;
     status := Some "Monitoring";
     hasBreaking := None |}.

End Geo.

(** ** [components/Map.ts]: view state, time filter and stored layers *)

Module MapControls.
Import JS HotspotMap.

Inductive TimeRange := range_1h | range_6h | range_24h | range_48h | range_7d | range_all.

Inductive MapView := global | us | mena.

(** [MapState] without [layers], which none of the functions below reads.
    [zoom] and [pan] are rationals; the source holds doubles. *)
Record MapState := {
  zoom : Q;
  pan : Q * Q;
  view : MapView;
  timeRange : TimeRange
}.

(** [getTimeRangeMs()]: [None] is [Infinity]. *)
Definition getTimeRangeMs (r : TimeRange) : option Z :=
  match r with
  | range_1h => Some (60 * 60 * 1000)
  | range_6h => Some (6 * 60 * 60 * 1000)
  | range_24h => Some (24 * 60 * 60 * 1000)
  | range_48h => Some (48 * 60 * 60 * 1000)
  | range_7d => Some (7 * 24 * 60 * 60 * 1000)
  | range_all => None
  end.

(** [filterByTime(items)] for items whose optional [time] is read by [time];
    the cutoff [now - Infinity] lets every dated item through. *)
Definition filterByTime {T} (time : T -> option Z) (now : Z) (s : MapState)
    (items : list T) : list T :=
  match timeRange s with
  | range_all => items
  | r =>
      List.filter (fun item =>
        match time item with
        | None => true
        | Some t =>
            match getTimeRangeMs r with
            | Some ms => now - ms <=? t
            | None => true
            end
        end) items
  end.

Definition setView (v : MapView) (s : MapState) : MapState :=
  {| zoom := match v with mena => 25 # 10 | _ => 1 end;
     pan := match v with mena => (- (180), 60)%Q | _ => (0, 0)%Q end;
     view := v;
     timeRange := timeRange s |}.

Definition zoomIn (s : MapState) : MapState :=
  {| zoom := Qmin (zoom s + (5 # 10)) 10;
     pan := pan s; view := view s; timeRange := timeRange s |}.

Definition zoomOut (s : MapState) : MapState :=
  {| zoom := Qmax (zoom s - (5 # 10)) 1;
     pan := pan s; view := view s; timeRange := timeRange s |}.

Definition reset (s : MapState) : MapState :=
  {| zoom := 1; pan := (0, 0)%Q; view := view s; timeRange := timeRange s |}.

(** The [wheel] listener of [setupZoomHandlers]. *)
Definition onWheel (ctrlKey shiftKey : bool) (deltaX deltaY : Q) (s : MapState) : MapState :=
  if ctrlKey then
    let zoomDelta := (- deltaY * (1 # 100))%Q in
    {| zoom := Qmax 1 (Qmin 10 (zoom s + zoomDelta));
       pan := pan s; view := view s; timeRange := timeRange s |}
  else if gtb (abs deltaX) (abs deltaY * (5 # 10)) || shiftKey then
    let panSpeed := (2 / zoom s)%Q in
    {| zoom := zoom s;
       pan := (fst (pan s) - deltaX * panSpeed, snd (pan s) - deltaY * panSpeed)%Q;
       view := view s; timeRange := timeRange s |}
  else
    let zoomDelta := if gtb deltaY 0 then (- (15 # 100))%Q else (15 # 100)%Q in
    {| zoom := Qmax 1 (Qmin 10 (zoom s + zoomDelta));
       pan := pan s; view := view s; timeRange := timeRange s |}.

(** [setEarthquakes(earthquakes)], [this.earthquakes] passed in and out. *)
Definition setEarthquakes {E} (earthquakes current : list E) : list E :=
  if (0 <? length earthquakes)%nat || (length current =? 0)%nat then earthquakes
  else current.

(** [getHotspotLevels()]: the record is keyed by [spot.name]; a later hotspot
    of the same name overwrites the entry. *)
Definition getHotspotLevels (m : MapComponent) : gmap string Level :=
  fold_left (fun levels spot =>
    <[ hs_name spot := match level spot with Some l => l | None => low end ]> levels)
    (hotspots m) ∅.

(** [setHotspotLevels(levels)], for a record that holds level names. *)
Definition setHotspotLevels (levels : gmap string Level) (m : MapComponent) : MapComponent :=
  {| news := news m;
     hotspots :=
       map (fun spot =>
         match levels !! hs_name spot with
         | Some l =>
             {| hs_id := hs_id spot; hs_name := hs_name spot; keywords := keywords spot;
                agencies := agencies spot; level := Some l; status := status spot;
                hasBreaking := hasBreaking spot |}
         | None => spot
         end) (hotspots m) |}.

End MapControls.

(** ** [components/MapPopup.ts]: relative times *)

Module MapPopup.
Import JS.

(** A number in a template string. *)
Definition showZ (n : Z) : string :=
  if n <? 0 then "-" ++ digits (- n) else digits n.

(** [getTimeAgo(date)] with [date.getTime()] and the clock as arguments. *)
Definition getTimeAgo (now date : Z) : string :=
  let seconds := (now - date) / 1000 in
  if seconds <? 60 then showZ seconds ++ "s ago" else
  let minutes := seconds / 60 in
  if minutes <? 60 then showZ minutes ++ "m ago" else
  let hours := minutes / 60 in
  if hours <? 24 then showZ hours ++ "h ago" else
  let days := hours / 24 in
  showZ days ++ "d ago".

(** [getTimeUntil(date)] *)
Definition getTimeUntil (now date : Z) : string :=
  let ms := date - now in
  if ms <=? 0 then "Expired" else
  let hours := ms / (1000 * 60 * 60) in
  if hours <? 1 then showZ (ms / (1000 * 60)) ++ "m" else
  if hours <? 24 then showZ hours ++ "h" else
  showZ (hours / 24) ++ "d".

End MapPopup.

(** ** [components/SearchModal.ts] *)

Module SearchModal.
Import JS.

Inductive SearchResultType :=
| news | hotspot | market | prediction | conflict | base | pipeline | cable
| datacenter | earthquake | outage | nuclear | irradiator.

#[global] Instance SearchResultType_eq_dec : EqDecision SearchResultType.
Proof. solve_decision. Defined.

Definition MAX_RECENT : nat := 8.
Definition MAX_RESULTS : nat := 12.

(** White space among the bytes below 128, as [trim] removes it. *)
Definition isSpace (c : ascii) : bool :=
  let n := nat_of_ascii c in
  (Nat.leb 9 n && Nat.leb n 13) || Nat.eqb n 32.

Fixpoint trimStart (s : string) : string :=
  match s with
  | EmptyString => EmptyString
  | String c s' => if isSpace c then trimStart s' else s
  end.

Fixpoint trimEnd (s : string) : string :=
  match s with
  | EmptyString => EmptyString
  | String c s' =>
      match trimEnd s' with
      | EmptyString => if isSpace c then EmptyString else String c EmptyString
      | t => String c t
      end
  end.

(** [s.trim()] *)
Definition trim (s : string) : string := trimEnd (trimStart s).

Section Functions.
(** The payload [data: unknown] of items and results. *)
Variable D : Type.

Record Item := {
  item_id : string;
  item_title : string;
  item_subtitle : option string;
  item_data : D
}.

Record SearchableSource := {
  src_type : SearchResultType;
  items : list Item
}.

(** A result as [handleSearch] pushes it, with its [_score]. *)
Record SearchResult := {
  res_type : SearchResultType;
  res_id : string;
  res_title : string;
  res_subtitle : option string;
  res_data : D;
  _score : Z
}.

(** The fields of the modal that the functions below touch; [input] is
    [this.input?.value], absent while the modal is closed. *)
Record Modal := {
  sources : list SearchableSource;
  results : list SearchResult;
  selectedIndex : Z;
  recentSearches : list string;
  input : option string
}.

Definition registerSource (type : SearchResultType) (its : list Item) (m : Modal) : Modal :=
  let source := {| src_type := type; items := its |} in
  {| sources :=
       match findIndex (fun s => bool_decide (src_type s = type)) (sources m) with
       | Some existingIndex => <[ existingIndex := source ]> (sources m)
       | None => (sources m ++ [source])%list
       end;
     results := results m;
     selectedIndex := selectedIndex m;
     recentSearches := recentSearches m;
     input := input m |}.

(** [item.subtitle?.toLowerCase() || ''] *)
Definition subtitleLower (item : Item) : string :=
  match item_subtitle item with
  | Some s => toLowerCase s
  | None => ""
  end.

(** The body of the inner loop of [handleSearch]. *)
Definition pushMatch (query : string) (type : SearchResultType)
    (results : list SearchResult) (item : Item) : list SearchResult :=
  let titleLower := toLowerCase (item_title item) in
  if includes titleLower query || includes (subtitleLower item) query then
    let isPrefix := startsWith query titleLower || startsWith query (subtitleLower item) in
    (results ++ [ {| res_type := type;
                     res_id := item_id item;
                     res_title := item_title item;
                     res_subtitle := item_subtitle item;
                     res_data := item_data item;
                     _score := if isPrefix then 2 else 1 |} ])%list
  else results.

(** [.sort((a, b) => b._score - a._score)]: the sort is stable, so a result
    goes in front of the later results that score no higher. *)
Fixpoint insertResult (x : SearchResult) (l : list SearchResult) : list SearchResult :=
  match l with
  | [] => [x]
  | y :: l' => if _score x <? _score y then y :: insertResult x l' else x :: y :: l'
  end.

Definition sortResults (l : list SearchResult) : list SearchResult :=
  fold_right insertResult [] l.

Definition handleSearch (m : Modal) : Modal :=
  let query := match input m with
               | Some value => toLowerCase (trim value)
               | None => ""
               end in
  if String.eqb query "" then
    (* [showRecentOrEmpty()] *)
    {| sources := sources m; results := []; selectedIndex := selectedIndex m;
       recentSearches := recentSearches m; input := input m |}
  else
    let found :=
      fold_left (fun results source =>
        fold_left (pushMatch query (src_type source)) (items source) results)
        (sources m) [] in
    {| sources := sources m;
       results := firstn MAX_RESULTS (sortResults found);
       selectedIndex := 0;
       recentSearches := recentSearches m;
       input := input m |}.

(** [moveSelection(delta)]; [%] is the remainder that takes the sign of the
    dividend. *)
Definition moveSelection (delta : Z) (m : Modal) : Modal :=
  let max := if (length (results m) =? 0)%nat then Z.of_nat (length (recentSearches m))
             else Z.of_nat (length (results m)) in
  if max =? 0 then m
  else {| sources := sources m; results := results m;
          selectedIndex := Z.rem (selectedIndex m + delta + max) max;
          recentSearches := recentSearches m; input := input m |}.

(** [saveRecentSearch(term)], the local storage aside. *)
Definition saveRecentSearch (term : string) (m : Modal) : Modal :=
  if String.eqb term "" || (String.length term <? 2)%nat then m
  else {| sources := sources m; results := results m; selectedIndex := selectedIndex m;
          recentSearches :=
            firstn MAX_RECENT
              (term :: List.filter (fun t => negb (String.eqb t term)) (recentSearches m));
          input := input m |}.

End Functions.

Arguments item_id {D}.
Arguments item_title {D}.
Arguments item_subtitle {D}.
Arguments item_data {D}.
Arguments src_type {D}.
Arguments items {D}.
Arguments res_type {D}.
Arguments res_id {D}.
Arguments res_title {D}.
Arguments res_subtitle {D}.
Arguments res_data {D}.
Arguments _score {D}.
Arguments sources {D}.
Arguments results {D}.
Arguments selectedIndex {D}.
Arguments recentSearches {D}.
Arguments input {D}.
Arguments registerSource {D}.
Arguments subtitleLower {D}.
Arguments pushMatch {D}.
Arguments insertResult {D}.
Arguments sortResults {D}.
Arguments handleSearch {D}.
Arguments moveSelection {D}.
Arguments saveRecentSearch {D}.

End SearchModal.

(** ** Concrete cycles used to exercise the definitions *)

Module Scenarios.
Import JS Feeds Correlation HotspotMap.

(** The prediction market of the Fed scenario at a given [yesPrice]. *)
Definition fed (p : Q) : PredictionMarket :=
  {| pm_title := "Will the Fed cut rates in March"; yesPrice := p |}.

(** The detector after one cold-start cycle at time [1000] that saw only
    the Fed market at price [p]. *)
Definition warmed (p : Q) : Detector :=
  after (analyzeCorrelations 1000 [] [fed p] [] initial).

Definition item (src ttl : string) (alert : bool) : NewsItem :=
  {| source := src; title := ttl; link := src; pubDate := 1000; isAlert := alert |}.

(** A cluster reported by the given sources, all published at time [1000]. *)
Definition cluster (ttl : string) (n : Q) (srcs : list string) : ClusteredEvent :=
  {| id := "e1";
     primaryTitle := ttl;
     sourceCount := n;
     allItems := map (fun s => item s ttl false) srcs;
     velocity := None |}.

Definition storm_with_blog : ClusteredEvent :=
  cluster "Storm hits coast" 3 ["Reuters"; "White House"; "Some Blog"].

Definition storm_three_desks : ClusteredEvent :=
  cluster "Storm hits coast" 3 ["Reuters"; "White House"; "CNBC"].

Definition iran_war : ClusteredEvent :=
  cluster "Iran war escalates" 7 ["Reuters"].

Definition gaza_item : NewsItem :=
  item "Reuters" "Gaza ceasefire talks stall as Pentagon briefs allies" false.

(** The hotspot [dc] without its list of agencies. *)
Definition dc_without_agencies : Hotspot :=
  {| hs_id := hs_id Geo.dc;
     hs_name := hs_name Geo.dc;
     keywords := keywords Geo.dc;
     agencies := None;
     level := level Geo.dc;
     status := status Geo.dc;
     hasBreaking := hasBreaking Geo.dc |}.

Definition gaza_corpus (alert : bool) : list NewsItem :=
  [ item "Reuters" "Gaza truce talks resume" alert;
    item "AFP" "Aid convoy reaches Gaza" false;
    item "BBC World" "Gaza hospitals short of fuel" false;
    item "Al Jazeera" "Strikes reported in northern Gaza" false;
    item "CNBC" "Stocks close higher" false ].

(** The same corpus with the alert flag on the item that matches nothing. *)
Definition gaza_corpus_alert_elsewhere : list NewsItem :=
  [ item "Reuters" "Gaza truce talks resume" false;
    item "AFP" "Aid convoy reaches Gaza" false;
    item "BBC World" "Gaza hospitals short of fuel" false;
    item "Al Jazeera" "Strikes reported in northern Gaza" false;
    item "CNBC" "Stocks close higher" true ].

(** Three cycles around a cluster that mentions two topics: it appears,
    vanishes, and appears again, all within half an hour. *)
Definition cycleA : Outcome :=
  analyzeCorrelations 2000 [iran_war] [] [] (warmed 40).

Definition cycleB : Outcome :=
  analyzeCorrelations 3000 [] [] [] (fireTimeouts 3000 (after cycleA)).

Definition cycleC : Outcome :=
  analyzeCorrelations 4000 [iran_war] [] [] (fireTimeouts 4000 (after cycleB)).

(** The third cycle run from the state in which only the key of the signal
    that the first cycle returned had been marked. *)
Definition cycleC_reported_only : Outcome :=
  analyzeCorrelations 4000 [iran_war] [] []
    {| previousSnapshot := previousSnapshot (after cycleB);
       recentSignalKeys := {[ "velocity_spike:iran:7" ]};
       pendingTimeouts := [(2000 + WINDOW_MS, "velocity_spike:iran:7")] |}.

(** A history of a hundred old signals, and two fresh ones. *)
Definition old_history : list CorrelationSignal :=
  map (fun n => velocitySignal (Z.of_nat n) "war" 7) (seq 0 100).

Definition fresh_signals : list CorrelationSignal :=
  [velocitySignal 5000 "iran" 7; velocitySignal 5000 "war" 7].

(** A shell whose detector has seen the Fed market at 40 and now sees it at
    47, with an empty modal and no clustering. *)
Definition shell : App.Shell :=
  {| App.allNews := [];
     App.latestClusters := [];
     App.latestPredictions := [fed 47];
     App.latestMarkets := [];
     App.detector := warmed 40;
     App.signalHistory := [];
     App.signalModal := Some SignalModal.empty |}.


Definition storm_all_desks : ClusteredEvent :=
  cluster "Storm hits coast" 3 ["Reuters"; "White House"; "Defense One"]%string.
(** A market whose title mentions none of the keys of the mapping table. *)
Definition spacex (p : Q) : PredictionMarket :=
  {| pm_title := "Will SpaceX launch Starship in May"; yesPrice := p |}.

Definition home_view : MapControls.MapState :=
  {| MapControls.zoom := 1; MapControls.pan := (0, 0)%Q;
     MapControls.view := MapControls.global;
     MapControls.timeRange := MapControls.range_7d |}.

Definition last_hour_view : MapControls.MapState :=
  {| MapControls.zoom := 1; MapControls.pan := (0, 0)%Q;
     MapControls.view := MapControls.global;
     MapControls.timeRange := MapControls.range_1h |}.

Definition search_entry (i t : string) (sub : option string) : SearchModal.Item unit :=
  {| SearchModal.item_id := i; SearchModal.item_title := t;
     SearchModal.item_subtitle := sub; SearchModal.item_data := tt |}.

(** A modal with two registered sources, the user having typed [ iran ]. *)
Definition search_modal : SearchModal.Modal unit :=
  {| SearchModal.sources :=
       [ {| SearchModal.src_type := SearchModal.news;
            SearchModal.items :=
              [ search_entry "n1" "Oil prices rise on Iran tension" None;
                search_entry "n2" "Iran talks resume" (Some "Reuters") ] |};
         {| SearchModal.src_type := SearchModal.market;
            SearchModal.items := [ search_entry "m1" "Brent" (Some "Iran risk premium") ] |} ];
     SearchModal.results := [];
     SearchModal.selectedIndex := 0;
     SearchModal.recentSearches := ["gaza"; "iran"];
     SearchModal.input := Some " Iran " |}.

End Scenarios.

Import JS Feeds Correlation HotspotMap.

(** * Vocabulary of the properties *)

Local Close Scope string_scope.

(** [s] has the type of [sig]: the predicate handed to [findIndex]. *)
Definition sameType (sig s : CorrelationSignal) : bool := bool_decide (type s = type sig).

(** Keep an element when no earlier one has its type. *)
Fixpoint keepFirst (pre suf : list CorrelationSignal) : list CorrelationSignal :=
  match suf with
  | [] => []
  | x :: suf' =>
      if existsb (sameType x) pre then keepFirst (pre ++ [x]) suf'
      else x :: keepFirst (pre ++ [x]) suf'
  end.

(** [r'] is [r] after some guarded pushes: the signals [new] were appended,
    each under a key that was not yet in the set, and each push came with its
    [markSignalSeen]. *)
Definition extends (P : string -> CorrelationSignal -> Prop) (now : Z) (r r' : Run) : Prop :=
  exists new : list (string * CorrelationSignal),
    run_signals r' = run_signals r ++ new
    /\ run_keys r' = run_keys r ∪ list_to_set (map fst new)
    /\ run_timeouts r' = run_timeouts r ++ map (fun ks => (now + WINDOW_MS, fst ks)) new
    /\ NoDup (map fst new)
    /\ (forall k, In k (map fst new) -> k ∉ run_keys r)
    /\ Forall (fun ks => P (fst ks) (snd ks)) new.

(** The key [k] was generated for the type of [s], and that type is in [T]. *)
Definition keyed (T : SignalType -> Prop) (k : string) (s : CorrelationSignal) : Prop :=
  T (type s) /\ exists i v, k = generateDedupeKey (type s) i v.

(** [s] is the convergence signal of a cluster of [events] that passed the
    thresholds of [detectConvergence], pushed under that cluster's key. *)
Definition fromConvergence (now : Z) (events : list ClusteredEvent)
    (k : string) (s : CorrelationSignal) : Prop :=
  exists e, In e events /\ k = convergenceKey now e /\ s = convergenceSignal now e
            /\ (3 <= length (recentItems now e))%nat /\ (3 <= length (types now e))%nat.

(** The types pushed by the three loops that run before [detectConvergence]. *)
Definition earlyType (t : SignalType) : Prop := t <> convergence /\ t <> triangulation.

(** Every pending timer guards a key that is in the set, and no key has two
    timers: the invariant of the states reached from [initial]. *)
Definition wf (d : Detector) : Prop :=
  NoDup (map snd (pendingTimeouts d))
  /\ forall tk, In tk (pendingTimeouts d) -> snd tk ∈ recentSignalKeys d.

(** The states the detector can be in: it starts empty, cycles call
    [analyzeCorrelations], and in between the host fires due timers. *)
Inductive reachable : Detector -> Prop :=
| reach_initial : reachable initial
| reach_call now events predictions markets d :
    reachable d ->
    reachable (after (analyzeCorrelations now events predictions markets d))
| reach_fire upto d :
    reachable d -> reachable (fireTimeouts upto d).

(** The item's title matches at least one keyword of the hotspot. *)
Definition matching (spot : Hotspot) (item : NewsItem) : bool :=
  (0 <? length (matchKeywords spot (toLowerCase (title item))))%nat.

(** Number of keywords of the hotspot that the item's title matches. *)
Definition matchCount (spot : Hotspot) (item : NewsItem) : nat :=
  length (matchKeywords spot (toLowerCase (title item))).

(** One tally is at most another, component by component. *)
Definition tally_le (t t' : Tally) : Prop :=
  (breaking t = true -> breaking t' = true)
  /\ matchedCount t <= matchedCount t'
  /\ score t <= score t'.

(** The condition of the first branch of the [if] chain. *)
Definition highCond (t : Tally) : Prop :=
  breaking t = true \/ 4 <= matchedCount t \/ 10 <= score t.

(** The condition of the second branch. *)
Definition elevatedCond (t : Tally) : Prop :=
  2 <= matchedCount t \/ 4 <= score t.

(** Descending by score. *)
Definition byScore (a b : NewsItem * nat) : Prop := (snd b <= snd a)%nat.

(** The entries that survive the null filter, the sort and the cut. *)
Definition ranked (m : MapComponent) (hotspot : Hotspot) : list (NewsItem * nat) :=
  firstn 5 (sortByScore (dropNull (map (scoreItem hotspot) (news m)))).

(** What every signal built by the five detectors at time [now] looks like:
    stamped with [now], of a type other than [news_leads_markets], with a
    confidence between 0.6 and 0.95. *)
Definition builtAt (now : Z) (s : CorrelationSignal) : Prop :=
  sig_timestamp s = now
  /\ type s <> news_leads_markets
  /\ (6 # 10 <= confidence s)%Q /\ (confidence s <= 95 # 100)%Q.

(** The cluster's title contains the keyword, case folded. *)
Definition mentions (kw : string) (e : ClusteredEvent) : bool :=
  includes (toLowerCase (primaryTitle e)) kw.



(** The body of the inner loop of [extractTopics], and one pass of the outer
    loop. *)
Definition addTopic (e : ClusteredEvent) (topics : JMap) (kw : string) : JMap :=
  if includes (toLowerCase (primaryTitle e)) kw then
    let v := match velocity e with
             | Some m => sourcesPerHour m
             | None => 0%Q
             end in
    map_set topics kw (get0 topics kw + v + sourceCount e)%Q
  else topics.

Definition addEvent (topics : JMap) (e : ClusteredEvent) : JMap :=
  fold_left (addTopic e) topic_keywords topics.

(** Some item of the cluster comes from a source of category [t]. *)
Definition hasType (t : SourceType) (e : ClusteredEvent) : Prop :=
  exists i, In i (allItems e) /\ getSourceType (source i) = t.

(** The cluster has at least three items, and among all its items, of any
    age, a wire, a government and an intel source. *)
Definition triangulated (e : ClusteredEvent) : Prop :=
  (3 <= length (allItems e))%nat /\ hasType wire e /\ hasType gov e /\ hasType intel e.

(** [s] is the triangulation signal of a triangulated cluster of [events],
    pushed under that cluster's key. *)
Definition fromTriangulation (now : Z) (events : list ClusteredEvent)
    (k : string) (s : CorrelationSignal) : Prop :=
  exists e, In e events /\ triangulated e
            /\ k = triangulationKey e /\ s = triangulationSignal now e.

(** The local [newsActivity] of the loop over [predictions]. *)
Definition newsActivity (topics : JMap) (pred : PredictionMarket) : Q :=
  fold_left (fun sum t => (sum + get0 topics t)%Q) (findRelatedTopics (pm_title pred)) 0%Q.

(** The market [pred] was priced at [p] in the previous snapshot, has moved by
    at least the threshold since, and its related topics are quiet. *)
Definition shifted (prev : StreamSnapshot) (topics : JMap) (pred : PredictionMarket)
    (p : Q) : Prop :=
  map_get (predictionChanges prev) (slice0 50 (pm_title pred)) = Some p
  /\ (PREDICTION_SHIFT_THRESHOLD <= abs (yesPrice pred - p))%Q
  /\ (newsActivity topics pred < NEWS_VELOCITY_THRESHOLD)%Q.

Definition predictionKey (pred : PredictionMarket) (p : Q) : string :=
  generateDedupeKey prediction_leads_news (slice0 50 (pm_title pred))
    (abs (yesPrice pred - p)).

Definition fromPrediction (now : Z) (prev : StreamSnapshot) (topics : JMap)
    (preds : list PredictionMarket) (k : string) (s : CorrelationSignal) : Prop :=
  exists pred p, In pred preds /\ shifted prev topics pred p
    /\ k = predictionKey pred p
    /\ s = predictionSignal now pred (abs (yesPrice pred - p)) (newsActivity topics pred)
             (findRelatedTopics (pm_title pred)).

(** The topic scores more than twice the threshold and more than twice what
    it scored in the previous snapshot. *)
Definition spiking (prev : StreamSnapshot) (topic : string) (v : Q) : Prop :=
  (NEWS_VELOCITY_THRESHOLD * 2 < v)%Q /\ (get0 (newsVelocity prev) topic * 2 < v)%Q.

Definition fromVelocity (now : Z) (prev : StreamSnapshot) (topics : JMap)
    (k : string) (s : CorrelationSignal) : Prop :=
  exists topic v, In (topic, v) topics /\ spiking prev topic v
    /\ k = generateDedupeKey velocity_spike topic v
    /\ s = velocitySignal now topic v.

(** The local [relatedNews] of the loop over [markets]. *)
Definition relatedNews (topics : JMap) (market : MarketData) : Q :=
  fold_left (fun sum kv => (sum + snd kv)%Q)
    (List.filter (fun kv =>
       includes (toLowerCase (name market)) (fst kv)
       || includes (fst kv) (toLowerCase (symbol market))) topics) 0%Q.

(** The market reports a change [c] of at least the threshold in magnitude
    while the topics related to it are quiet. *)
Definition diverging (topics : JMap) (market : MarketData) (c : Q) : Prop :=
  change market = Some c
  /\ (MARKET_MOVE_THRESHOLD <= abs c)%Q
  /\ (relatedNews topics market < 2)%Q.

Definition fromDivergence (now : Z) (topics : JMap) (markets : list MarketData)
    (k : string) (s : CorrelationSignal) : Prop :=
  exists market c, In market markets /\ diverging topics market c
    /\ k = generateDedupeKey silent_divergence (symbol market) (abs c)
    /\ s = divergenceSignal now market c (relatedNews topics market).

(** The signals of type [t] in a list. *)
Definition ofType (t : SignalType) (l : list CorrelationSignal) : list CorrelationSignal :=
  List.filter (fun s => bool_decide (type s = t)) l.

(** One time range shows at least what another shows. *)
Definition widerThan (r' r : MapControls.TimeRange) : Prop :=
  match MapControls.getTimeRangeMs r, MapControls.getTimeRangeMs r' with
  | Some a, Some b => a <= b
  | _, None => True
  | None, Some _ => False
  end.

(** What the user can do to the view: the three buttons, a change of view,
    and the wheel. *)
Inductive ViewAction :=
| PressZoomIn | PressZoomOut | PressReset
| ChangeView (v : MapControls.MapView)
| TurnWheel (ctrlKey shiftKey : bool) (deltaX deltaY : Q).

Definition act (s : MapControls.MapState) (a : ViewAction) : MapControls.MapState :=
  match a with
  | PressZoomIn => MapControls.zoomIn s
  | PressZoomOut => MapControls.zoomOut s
  | PressReset => MapControls.reset s
  | ChangeView v => MapControls.setView v s
  | TurnWheel c sh dx dy => MapControls.onWheel c sh dx dy s
  end.

(** Successive calls of [setEarthquakes], oldest first. *)
Definition feedEarthquakes {E} (updates : list (list E)) (current : list E) : list E :=
  fold_left (fun cur new => MapControls.setEarthquakes new cur) updates current.

(** The query [handleSearch] works with. *)
Definition queryOf {D} (m : SearchModal.Modal D) : string :=
  match SearchModal.input m with
  | Some value => toLowerCase (SearchModal.trim value)
  | None => EmptyString
  end.

(** The item's title or subtitle contains the query, case folded. *)
Definition itemMatches {D} (query : string) (item : SearchModal.Item D) : bool :=
  includes (toLowerCase (SearchModal.item_title item)) query
  || includes (SearchModal.subtitleLower item) query.

(** The item's title or subtitle starts with the query, case folded. *)
Definition itemPrefix {D} (query : string) (item : SearchModal.Item D) : bool :=
  startsWith query (toLowerCase (SearchModal.item_title item))
  || startsWith query (SearchModal.subtitleLower item).

Definition resultOf {D} (query : string) (type : SearchModal.SearchResultType)
    (item : SearchModal.Item D) : SearchModal.SearchResult D :=
  {| SearchModal.res_type := type;
     SearchModal.res_id := SearchModal.item_id item;
     SearchModal.res_title := SearchModal.item_title item;
     SearchModal.res_subtitle := SearchModal.item_subtitle item;
     SearchModal.res_data := SearchModal.item_data item;
     SearchModal._score := if itemPrefix query item then 2 else 1 |}.

(** Every match of the query, source by source and item by item. *)
Definition allMatches {D} (query : string) (m : SearchModal.Modal D)
    : list (SearchModal.SearchResult D) :=
  flat_map (fun source =>
    map (resultOf query (SearchModal.src_type source))
      (List.filter (itemMatches query) (SearchModal.items source)))
    (SearchModal.sources m).

Definition withScore {D} (n : Z) (l : list (SearchModal.SearchResult D))
    : list (SearchModal.SearchResult D) :=
  List.filter (fun r => SearchModal._score r =? n) l.

(** What happens to the signal modal: a batch of signals arrives, or the user
    dismisses it. *)
Inductive ModalEvent :=
| Arrive (signals : list CorrelationSignal)
| Dismiss.

Definition modalStep (m : SignalModal.Modal) (e : ModalEvent) : SignalModal.Modal :=
  match e with
  | Arrive signals => SignalModal.show signals m
  | Dismiss => SignalModal.hide m
  end.

(** The source is listed in both tables of [config/feeds.ts] with this type
    and this tier. *)
Definition listed (sourceName : string) (t : SourceType) (tier : Z) : Prop :=
  lookup_type SOURCE_TYPES sourceName = Some t
  /\ lookup_tier SOURCE_TIERS sourceName = Some tier.

(** The item's title contains a keyword of the hotspot, case folded. *)
Definition matchesKeyword (hotspot : Hotspot) (item : NewsItem) : Prop :=
  Exists (fun kw => includes (toLowerCase (title item)) (toLowerCase kw) = true)
    (keywords hotspot).

(** The title mentions a conflict topic that no keyword of the hotspot
    covers. *)
Definition uncoveredTopic (hotspot : Hotspot) (item : NewsItem) : Prop :=
  Exists (fun t =>
    includes (toLowerCase (title item)) t = true
    /\ Forall (fun k => includes (toLowerCase k) t = false) (keywords hotspot))
    conflictTopics.

(** A strong local marker: a matched keyword equal to the hotspot's name, or
    a listed agency in the title. *)
Definition strongMarker (hotspot : Hotspot) (item : NewsItem) : Prop :=
  Exists (fun kw =>
    includes (toLowerCase (title item)) (toLowerCase kw) = true
    /\ toLowerCase kw = toLowerCase (hs_name hotspot)) (keywords hotspot)
  \/ match agencies hotspot with
     | Some ags => Exists (fun a => includes (toLowerCase (title item)) (toLowerCase a) = true) ags
     | None => False
     end.

(** The matches that the exclusion rule leaves. *)
Definition remains (hotspot : Hotspot) (item : NewsItem) : Prop :=
  matchesKeyword hotspot item
  /\ (~ uncoveredTopic hotspot item \/ strongMarker hotspot item).

#[global] Instance remains_dec hotspot item : Decision (remains hotspot item).
Proof.
  unfold remains, matchesKeyword, uncoveredTopic, strongMarker.
  destruct (agencies hotspot); apply _.
Defined.

(** The items of a list that match exactly [n] keywords of the hotspot. *)
Definition withCount (hotspot : Hotspot) (n : nat) (l : list NewsItem) : list NewsItem :=
  List.filter (fun i => (matchCount hotspot i =? n)%nat) l.


(** The zoom factor is a whole number of half steps, as reset, a change of
    view and the two buttons leave it.  Such a factor is a double, and adding
    or taking away one half is exact on it. *)
Definition onHalfSteps (s : MapControls.MapState) : Prop :=
  exists n : Z, (MapControls.zoom s == inject_Z n * (1 # 2))%Q.

(** The action is a button or a change of view, not a wheel event. *)
Definition isButton (a : ViewAction) : Prop :=
  match a with
  | TurnWheel _ _ _ _ => False
  | _ => True
  end.

(** Every byte of the string is below 128: its length in bytes is its length
    in code units. *)
Definition asciiOnly (s : string) : Prop :=
  forallb (fun c => Nat.ltb (nat_of_ascii c) 128) (list_ascii_of_string s) = true.

(** * Properties *)

(** ** The two output filters *)

Section OutputFilters.

Lemma findIndex_app_here {A} (p : A -> bool) pre x suf :
  bool_decide (findIndex p (pre ++ x :: suf) = Some (length pre))
  = p x && negb (existsb p pre).
Proof.
  induction pre as [|y pre IH]; simpl.
  - destruct (p x); simpl; [done|].
    apply bool_decide_eq_false_2. destruct (findIndex p suf); discriminate.
  - destruct (p y) eqn:Hy; simpl.
    + by rewrite andb_false_r.
    + rewrite <- IH. destruct (findIndex p (pre ++ x :: suf)) as [i|]; [|done].
      apply bool_decide_ext. split; intros H; congruence.
Qed.

Lemma uniqueSignals_keepFirst l pre suf :
  l = pre ++ suf ->
  filteri (fun sig idx =>
    bool_decide (findIndex (fun s => bool_decide (type s = type sig)) l = Some idx))
    (length pre) suf
  = keepFirst pre suf.
Proof.
  revert pre. induction suf as [|x suf IH]; intros pre ->; [done|].
  simpl. rewrite (findIndex_app_here (fun s => bool_decide (type s = type x))).
  rewrite bool_decide_eq_true_2 by done. simpl.
  specialize (IH (pre ++ [x])). rewrite length_app in IH. simpl in IH.
  replace (length pre + 1)%nat with (S (length pre)) in IH by lia.
  rewrite IH by (by rewrite <- app_assoc).
  unfold sameType. by destruct (existsb _ pre).
Qed.

Lemma uniqueSignals_eq l : uniqueSignals l = keepFirst [] l.
Proof. unfold uniqueSignals. by apply (uniqueSignals_keepFirst l [] l). Qed.

Lemma existsb_sameType_false x pre :
  existsb (sameType x) pre = false <-> ~ In (type x) (map type pre).
Proof.
  rewrite <- not_true_iff_false, existsb_exists, in_map_iff. unfold sameType.
  split; intros H [s Hs]; apply H; exists s.
  - destruct Hs as [Ht Hin]. split; [done|]. by apply bool_decide_eq_true_2.
  - destruct Hs as [Hin Ht]. apply bool_decide_eq_true_1 in Ht. done.
Qed.

Lemma keepFirst_spec pre suf s :
  In s (keepFirst pre suf) ->
  ~ In (type s) (map type pre)
  /\ List.find (sameType s) suf = Some s.
Proof.
  revert pre. induction suf as [|x suf IH]; intros pre Hin; [done|].
  simpl in Hin.
  assert (Hrec : In s (keepFirst (pre ++ [x]) suf) ->
                 ~ In (type s) (map type pre) /\ List.find (sameType s) (x :: suf) = Some s).
  { intros H. apply IH in H as [Hpre Hfind].
    rewrite map_app, in_app_iff in Hpre. simpl in Hpre.
    split; [tauto|]. simpl. unfold sameType at 1.
    rewrite bool_decide_eq_false_2; [done|]. intros E. apply Hpre. right. by left. }
  destruct (existsb (sameType x) pre) eqn:Hx; [by apply Hrec|].
  destruct Hin as [->|Hin]; [|by apply Hrec].
  split; [by apply existsb_sameType_false|].
  simpl. unfold sameType. by rewrite bool_decide_eq_true_2.
Qed.

Lemma keepFirst_NoDup pre suf : NoDup (map type (keepFirst pre suf)).
Proof.
  revert pre. induction suf as [|x suf IH]; intros pre; simpl; [constructor|].
  destruct (existsb (sameType x) pre); [apply IH|].
  simpl. apply NoDup_cons_2; [|apply IH].
  rewrite list_elem_of_In, in_map_iff. intros [s [Ht Hs]].
  apply keepFirst_spec in Hs as [Hpre _]. apply Hpre.
  rewrite map_app, in_app_iff. right. left. done.
Qed.

Lemma keepFirst_incl pre suf s : In s (keepFirst pre suf) -> In s suf.
Proof.
  revert pre. induction suf as [|x suf IH]; intros pre; simpl; [done|].
  destruct (existsb (sameType x) pre); simpl; intros H.
  - right. by eapply IH.
  - destruct H as [->|H]; [by left | right; by eapply IH].
Qed.

Lemma highConfidence_In l s :
  In s (highConfidence l) <-> In s l /\ (6 # 10 <= confidence s)%Q.
Proof.
  unfold highConfidence. rewrite filter_In. unfold geb.
  by rewrite Qle_bool_iff.
Qed.

Lemma highConfidence_NoDup l :
  NoDup (map type l) -> NoDup (map type (highConfidence l)).
Proof.
  unfold highConfidence. induction l as [|x l IH]; simpl; [done|].
  intros H. apply NoDup_cons in H as [Hx Hl].
  destruct (geb (confidence x) (6 # 10)); [|by apply IH].
  simpl. apply NoDup_cons_2; [|by apply IH].
  rewrite list_elem_of_In in *. intros Hin. apply Hx.
  apply in_map_iff in Hin as [s [Ht Hs]]. apply filter_In in Hs as [Hs _].
  apply in_map_iff. by exists s.
Qed.

End OutputFilters.

(** ** Bookkeeping of the dedupe keys within one call *)

Section Bookkeeping.
Variable P : string -> CorrelationSignal -> Prop.
Variable now : Z.

Lemma extends_refl r : extends P now r r.
Proof.
  exists []. rewrite !app_nil_r. simpl.
  repeat split; [set_solver | constructor | done | constructor].
Qed.

Lemma extends_push r k s :
  isRecentDuplicate (run_keys r) k = false -> P k s ->
  extends P now r (push k s (markSignalSeen now k r)).
Proof.
  intros Hk HP. apply bool_decide_eq_false_1 in Hk.
  exists [(k, s)]. simpl. repeat split.
  - set_solver.
  - apply NoDup_singleton.
  - intros k' [<-|[]]. done.
  - by repeat constructor.
Qed.

Lemma extends_trans r1 r2 r3 :
  extends P now r1 r2 -> extends P now r2 r3 -> extends P now r1 r3.
Proof.
  intros (n1 & S1 & K1 & T1 & D1 & F1 & P1) (n2 & S2 & K2 & T2 & D2 & F2 & P2).
  exists (n1 ++ n2). rewrite !map_app. repeat split.
  - by rewrite S2, S1, app_assoc.
  - rewrite K2, K1, list_to_set_app_L. set_solver.
  - by rewrite T2, T1, app_assoc.
  - apply NoDup_app. split; [done|]. split; [|done].
    intros k Hk1 Hk2. rewrite list_elem_of_In in Hk1, Hk2.
    apply (F2 k Hk2). rewrite K1, elem_of_union, elem_of_list_to_set, list_elem_of_In.
    by right.
  - intros k Hk. apply in_app_iff in Hk as [Hk|Hk]; [by apply F1|].
    specialize (F2 k Hk). rewrite K1 in F2. set_solver.
  - by apply Forall_app.
Qed.

Lemma extends_fold {A} (step : Run -> A -> Run) (l : list A) :
  (forall r a, In a l -> extends P now r (step r a)) ->
  forall r, extends P now r (fold_left step l r).
Proof.
  induction l as [|a l IH]; intros Hstep r; simpl.
  - apply extends_refl.
  - eapply extends_trans; [apply Hstep; by left | apply IH].
    intros r' a' Ha'. apply Hstep. by right.
Qed.

(** A helper that starts with an empty [signals] array of its own and whose
    result is appended to the caller's array. *)
Lemma extends_call r c :
  extends P now {| run_keys := run_keys r; run_timeouts := run_timeouts r;
                   run_signals := [] |} c ->
  extends P now r {| run_keys := run_keys c; run_timeouts := run_timeouts c;
                     run_signals := run_signals r ++ run_signals c |}.
Proof.
  intros (n & S1 & K1 & T1 & D1 & F1 & P1). simpl in *.
  exists n. simpl. rewrite S1. by repeat split.
Qed.
End Bookkeeping.

Lemma extends_weaken (P Q : string -> CorrelationSignal -> Prop) now r r' :
  (forall k s, P k s -> Q k s) -> extends P now r r' -> extends Q now r r'.
Proof.
  intros HPQ (n & S1 & K1 & T1 & D1 & F1 & P1).
  exists n. repeat split; try done.
  eapply Forall_impl; [exact P1|]. intros [k s]. apply HPQ.
Qed.

(** ** What each detector pushes *)

Lemma generateDedupeKey_type t1 i1 v1 t2 i2 v2 :
  generateDedupeKey t1 i1 v1 = generateDedupeKey t2 i2 v2 -> t1 = t2.
Proof.
  unfold generateDedupeKey. destruct t1, t2; simpl; intros H; try done; discriminate.
Qed.

Ltac step_cases :=
  repeat match goal with
  | |- extends _ _ ?r ?r => apply extends_refl
  | |- extends _ _ _ (match ?x with _ => _ end) => destruct x eqn:?
  | |- extends _ _ _ (if ?b then _ else _) => destruct b eqn:?
  | |- extends _ _ _ (let '(_, _) := ?x in _) => destruct x eqn:?
  end.

Ltac fresh_key :=
  match goal with
  | H : (_ && _)%bool = true |- _ =>
      apply andb_true_iff in H as [? ?]; fresh_key
  | H : negb (isRecentDuplicate _ _) = true |- _ =>
      apply negb_true_iff in H; exact H
  end.

Lemma predictionStep_extends now prev topics r pred :
  extends (keyed (eq prediction_leads_news)) now r (predictionStep now prev topics r pred).
Proof.
  unfold predictionStep. step_cases.
  apply extends_push; [fresh_key|]. split; [done|]. simpl. eauto.
Qed.

Lemma velocityStep_extends now prev r entry :
  extends (keyed (eq velocity_spike)) now r (velocityStep now prev r entry).
Proof.
  unfold velocityStep. destruct entry as [topic v]. step_cases.
  apply extends_push; [fresh_key|]. split; [done|]. simpl. eauto.
Qed.

Lemma divergenceStep_extends now topics r market :
  extends (keyed (eq silent_divergence)) now r (divergenceStep now topics r market).
Proof.
  unfold divergenceStep. step_cases.
  apply extends_push; [fresh_key|]. split; [done|]. simpl. eauto.
Qed.

Lemma triangulationStep_extends now r event :
  extends (keyed (eq triangulation)) now r (triangulationStep now r event).
Proof.
  unfold triangulationStep. step_cases.
  apply extends_push; [fresh_key|]. split; [done|]. simpl.
  unfold triangulationKey. eauto.
Qed.

Lemma convergenceStep_extends now events r event :
  In event events ->
  extends (fromConvergence now events) now r (convergenceStep now r event).
Proof.
  intros Hin. unfold convergenceStep. step_cases.
  match goal with H : (_ && _)%bool = true |- _ => apply andb_true_iff in H as [Hk Ht] end.
  apply negb_true_iff in Hk. apply extends_push; [done|].
  exists event. repeat split; try done.
  - match goal with H : (length (recentItems _ _) <? 3)%nat = false |- _ =>
      apply Nat.ltb_ge in H; exact H end.
  - by apply Nat.leb_le.
Qed.

(** ** The keyed [signals] array of one call *)

Lemma candidates_parts now prev keys tos events preds markets :
  let r0 := {| run_keys := keys; run_timeouts := tos; run_signals := [] |} in
  exists r3 c t,
    extends (keyed earlyType) now r0 r3
    /\ c = detectConvergence now (run_keys r3) (run_timeouts r3) events
    /\ extends (fromConvergence now events) now
         {| run_keys := run_keys r3; run_timeouts := run_timeouts r3; run_signals := [] |} c
    /\ extends (keyed (eq triangulation)) now
         {| run_keys := run_keys c; run_timeouts := run_timeouts c; run_signals := [] |} t
    /\ candidates now prev keys tos events preds markets
       = {| run_keys := run_keys t; run_timeouts := run_timeouts t;
            run_signals := run_signals r3 ++ run_signals c ++ run_signals t |}.
Proof.
  intros r0. unfold candidates. fold r0.
  set (topics := extractTopics events).
  set (r1 := fold_left (predictionStep now prev topics) preds r0).
  set (r2 := fold_left (velocityStep now prev) topics r1).
  set (r3 := fold_left (divergenceStep now topics) markets r2).
  exists r3, (detectConvergence now (run_keys r3) (run_timeouts r3) events),
    (detectTriangulation now
       (run_keys (detectConvergence now (run_keys r3) (run_timeouts r3) events))
       (run_timeouts (detectConvergence now (run_keys r3) (run_timeouts r3) events)) events).
  repeat split.
  - apply extends_trans with r2; [apply extends_trans with r1|].
    + apply extends_weaken with (keyed (eq prediction_leads_news)).
      { intros k s [E H]. split; [by rewrite <- E|done]. }
      apply extends_fold. intros. apply predictionStep_extends.
    + apply extends_weaken with (keyed (eq velocity_spike)).
      { intros k s [E H]. split; [by rewrite <- E|done]. }
      apply extends_fold. intros. apply velocityStep_extends.
    + apply extends_weaken with (keyed (eq silent_divergence)).
      { intros k s [E H]. split; [by rewrite <- E|done]. }
      apply extends_fold. intros. apply divergenceStep_extends.
  - apply extends_fold. intros. by apply convergenceStep_extends.
  - apply extends_fold. intros. apply triangulationStep_extends.
Qed.

Lemma candidates_extends now prev keys tos events preds markets :
  extends (fun _ _ => True) now
    {| run_keys := keys; run_timeouts := tos; run_signals := [] |}
    (candidates now prev keys tos events preds markets).
Proof.
  destruct (candidates_parts now prev keys tos events preds markets)
    as (r3 & c & t & H3 & _ & Hc & Ht & ->).
  apply extends_weaken with (Q := fun _ _ => True) in H3; [|done].
  apply extends_weaken with (Q := fun _ _ => True) in Hc; [|done].
  apply extends_weaken with (Q := fun _ _ => True) in Ht; [|done].
  apply extends_trans with r3; [done|].
  apply extends_call in Hc.
  eapply extends_trans; [exact Hc|].
  rewrite app_assoc.
  apply (extends_call _ now
           {| run_keys := run_keys c; run_timeouts := run_timeouts c;
              run_signals := run_signals r3 ++ run_signals c |} t Ht).
Qed.

(** What a call does to the key set and the timer queue, in terms of the keys
    it pushed under. *)
Lemma analyze_bookkeeping now events preds markets d :
  let o := analyzeCorrelations now events preds markets d in
  recentSignalKeys (after o) = recentSignalKeys d ∪ list_to_set (map fst (pushed o))
  /\ pendingTimeouts (after o)
     = pendingTimeouts d ++ map (fun ks => (now + WINDOW_MS, fst ks)) (pushed o)
  /\ NoDup (map fst (pushed o))
  /\ (forall k, In k (map fst (pushed o)) -> k ∉ recentSignalKeys d).
Proof.
  unfold analyzeCorrelations. destruct (previousSnapshot d) as [prev|]; simpl.
  - destruct (candidates_extends now prev (recentSignalKeys d) (pendingTimeouts d)
                events preds markets) as (n & S1 & K1 & T1 & D1 & F1 & _).
    simpl in *. rewrite S1. by repeat split.
  - rewrite app_nil_r. repeat split; [set_solver | constructor | done].
Qed.

(** ** The timer queue *)

Lemma wf_initial : wf initial.
Proof. split; [constructor | intros tk []]. Qed.

Lemma analyze_wf now events preds markets d :
  wf d -> wf (after (analyzeCorrelations now events preds markets d)).
Proof.
  intros [Hnd Hin].
  destruct (analyze_bookkeeping now events preds markets d) as (K & T & D & F).
  split.
  - rewrite T, map_app, map_map. simpl. apply NoDup_app. repeat split; [done| |done].
    intros k Hk1 Hk2. rewrite list_elem_of_In in Hk1, Hk2.
    apply (F k Hk2). apply in_map_iff in Hk1 as [tk [<- Htk]]. by apply Hin.
  - intros tk. rewrite T, K, in_app_iff, elem_of_union. intros [Htk|Htk].
    + left. by apply Hin.
    + right. apply in_map_iff in Htk as [ks [<- Hks]]. simpl.
      rewrite elem_of_list_to_set, list_elem_of_In. by apply in_map.
Qed.

Lemma fold_left_difference (l : list (Z * string)) (keys : gset string) :
  fold_left (fun ks tk => ks ∖ {[ snd tk ]}) l keys = keys ∖ list_to_set (map snd l).
Proof.
  revert keys. induction l as [|a l IH]; intros keys; simpl.
  - set_solver.
  - rewrite IH. set_solver.
Qed.

Lemma NoDup_snd_inj {A B} (l : list (A * B)) a b :
  NoDup (map snd l) -> In a l -> In b l -> snd a = snd b -> a = b.
Proof.
  induction l as [|x l IH]; simpl; [done|].
  intros H. apply NoDup_cons in H as [Hx Hl]. rewrite list_elem_of_In in Hx.
  intros [->|Ha] [->|Hb] E; try done.
  - exfalso. apply Hx. rewrite E. by apply in_map.
  - exfalso. apply Hx. rewrite <- E. by apply in_map.
  - by apply IH.
Qed.

Lemma fire_wf upto d : wf d -> wf (fireTimeouts upto d).
Proof.
  intros [Hnd Hin]. unfold fireTimeouts. split; simpl.
  - revert Hnd. generalize (pendingTimeouts d). intros l.
    induction l as [|x l IH]; simpl; [done|]. intros H.
    apply NoDup_cons in H as [Hx Hl].
    destruct (negb (x.1 <=? upto)); [|by apply IH].
    simpl. apply NoDup_cons_2; [|by apply IH].
    rewrite list_elem_of_In in *. intros H. apply Hx.
    apply in_map_iff in H as [y [E Hy]]. apply filter_In in Hy as [Hy _].
    apply in_map_iff. by exists y.
  - intros tk Htk. apply filter_In in Htk as [Htk Hlate].
    rewrite fold_left_difference, elem_of_difference. split; [by apply Hin|].
    rewrite elem_of_list_to_set, list_elem_of_In. intros H.
    apply in_map_iff in H as [tk' [E Htk']]. apply filter_In in Htk' as [Htk' Hdue].
    assert (tk' = tk) as -> by (by apply (NoDup_snd_inj (pendingTimeouts d))).
    rewrite Hdue in Hlate. done.
Qed.

Lemma reachable_wf d : reachable d -> wf d.
Proof.
  induction 1 as [| now events predictions markets d _ IH | upto d _ IH].
  - apply wf_initial.
  - by apply analyze_wf.
  - by apply fire_wf.
Qed.

(** A key whose timers are all still in the future survives the firing. *)
Lemma fire_keeps upto d k :
  (forall t, In (t, k) (pendingTimeouts d) -> upto < t) ->
  k ∈ recentSignalKeys d -> k ∈ recentSignalKeys (fireTimeouts upto d).
Proof.
  intros Hlate Hk. unfold fireTimeouts. simpl.
  rewrite fold_left_difference, elem_of_difference. split; [done|].
  rewrite elem_of_list_to_set, list_elem_of_In. intros H.
  apply in_map_iff in H as [[t k'] [E Htk]]. simpl in E. subst k'.
  apply filter_In in Htk as [Htk Hdue]. simpl in Hdue.
  apply Hlate in Htk. apply Z.leb_le in Hdue. lia.
Qed.

Lemma returned_incl_pushed now events preds markets d :
  incl (returned (analyzeCorrelations now events preds markets d))
       (map snd (pushed (analyzeCorrelations now events preds markets d))).
Proof.
  unfold analyzeCorrelations. destruct (previousSnapshot d) as [prev|]; simpl;
    [|by intros ? []].
  intros x Hx. apply highConfidence_In in Hx as [Hx _].
  rewrite uniqueSignals_eq in Hx. by apply keepFirst_incl in Hx.
Qed.

(** A key pushed by a call is still in the set at any later moment before its
    own timer is due. *)
Lemma pushed_key_survives d now events preds markets upto k :
  wf d -> upto < now + WINDOW_MS ->
  In k (map fst (pushed (analyzeCorrelations now events preds markets d))) ->
  k ∈ recentSignalKeys
        (fireTimeouts upto (after (analyzeCorrelations now events preds markets d))).
Proof.
  intros Hwf Hupto Hk.
  pose proof (analyze_wf now events preds markets d Hwf) as [Hnd _].
  destruct (analyze_bookkeeping now events preds markets d) as (K & T & _ & _).
  assert (Hq : In (now + WINDOW_MS, k)
                 (pendingTimeouts (after (analyzeCorrelations now events preds markets d)))).
  { rewrite T, in_app_iff. right. apply in_map_iff in Hk as [ks [<- Hks]].
    apply in_map_iff. by exists ks. }
  apply fire_keeps.
  - intros t Ht.
    pose proof (NoDup_snd_inj _ _ _ Hnd Ht Hq eq_refl) as E. inversion E. lia.
  - rewrite K, elem_of_union, elem_of_list_to_set, list_elem_of_In. by right.
Qed.

(** ** The detector across cycles *)

(** C7. Cold start: with no previous snapshot, [analyzeCorrelations] stores
    the snapshot of the current cycle as the previous snapshot and returns the
    empty list, whatever the events, predictions and markets are; no signal is
    pushed and the key set and timers are left as they were. *)
Theorem cold_start_stores_snapshot now events predictions markets d :
  previousSnapshot d = None ->
  let o := analyzeCorrelations now events predictions markets d in
  previousSnapshot (after o) = Some (currentSnapshot now events predictions markets)
  /\ returned o = []
  /\ pushed o = []
  /\ recentSignalKeys (after o) = recentSignalKeys d
  /\ pendingTimeouts (after o) = pendingTimeouts d.
Proof. intros H. unfold analyzeCorrelations. rewrite H. simpl. done. Qed.

Lemma cold_start_stores_snapshot_witness :
  previousSnapshot initial = None
  /\ previousSnapshot (after (analyzeCorrelations 1000 [] [Scenarios.fed (40 # 100)] [] initial))
     = Some (currentSnapshot 1000 [] [Scenarios.fed (40 # 100)] [])
  /\ returned (analyzeCorrelations 1000 [] [Scenarios.fed (40 # 100)] [] initial) = [].
Proof.
  split; [reflexivity|].
  destruct (cold_start_stores_snapshot 1000 [] [Scenarios.fed (40 # 100)] [] initial)
    as (H1 & H2 & _); [reflexivity|].
  split; [exact H1 | exact H2].
Defined.

(** C8. After every call the stored previous snapshot is the snapshot built
    from that call's inputs, on the cold-start path and on the diffing path
    alike, whatever was pushed or returned: the single slot is replaced
    wholesale. *)
Theorem previous_snapshot_replaced now events predictions markets d :
  previousSnapshot (after (analyzeCorrelations now events predictions markets d))
  = Some (currentSnapshot now events predictions markets).
Proof. unfold analyzeCorrelations. by destruct (previousSnapshot d). Qed.

(** C6. Every returned signal has confidence at least 0.6; the returned list
    has at most one signal of each type; and a returned signal is the first
    candidate of its type in the [signals] array of the call. *)
Theorem returned_confident_one_per_type now events predictions markets d :
  let o := analyzeCorrelations now events predictions markets d in
  Forall (fun s => (6 # 10 <= confidence s)%Q) (returned o)
  /\ NoDup (map type (returned o))
  /\ Forall (fun s => List.find (sameType s) (map snd (pushed o)) = Some s) (returned o).
Proof.
  unfold analyzeCorrelations. destruct (previousSnapshot d) as [prev|]; simpl.
  2: { repeat split; constructor. }
  set (l := map snd _). repeat split.
  - apply List.Forall_forall. intros s Hs. by apply highConfidence_In in Hs as [_ Hs].
  - apply highConfidence_NoDup. rewrite uniqueSignals_eq. apply keepFirst_NoDup.
  - apply List.Forall_forall. intros s Hs. apply highConfidence_In in Hs as [Hs _].
    rewrite uniqueSignals_eq in Hs. by apply keepFirst_spec in Hs as [_ Hs].
Qed.

(** C5. Deduplication across two calls made less than 30 minutes apart, from
    any state the detector can reach, the host having fired in between only
    timers that were due: a key that is in the set when the second call
    starts is not pushed under by it; a key the first call pushed under is
    still in the set, so the second call does not push under it again; no key
    is pushed under twice over the two calls; and every returned signal is a
    pushed one.  So a signal is emitted at most once per key. *)
Theorem dedupe_within_window d now1 ev1 pr1 mk1 upto now2 ev2 pr2 mk2 :
  reachable d -> upto <= now2 -> now2 - now1 < WINDOW_MS ->
  let o1 := analyzeCorrelations now1 ev1 pr1 mk1 d in
  let d1 := fireTimeouts upto (after o1) in
  let o2 := analyzeCorrelations now2 ev2 pr2 mk2 d1 in
  (forall k, k ∈ recentSignalKeys d1 -> ~ In k (map fst (pushed o2)))
  /\ (forall k, In k (map fst (pushed o1)) -> k ∈ recentSignalKeys d1)
  /\ NoDup (map fst (pushed o1 ++ pushed o2))
  /\ incl (returned o1) (map snd (pushed o1))
  /\ incl (returned o2) (map snd (pushed o2)).
Proof.
  intros Hreach Hupto Hwin o1 d1 o2.
  pose proof (reachable_wf d Hreach) as Hwf.
  destruct (analyze_bookkeeping now1 ev1 pr1 mk1 d) as (_ & _ & D1 & _).
  destruct (analyze_bookkeeping now2 ev2 pr2 mk2 d1) as (_ & _ & D2 & F2).
  assert (Hsurv : forall k, In k (map fst (pushed o1)) -> k ∈ recentSignalKeys d1).
  { intros k Hk. apply pushed_key_survives; [done | lia | done]. }
  repeat split.
  - intros k Hk Hin. by apply (F2 k Hin).
  - exact Hsurv.
  - rewrite map_app. apply NoDup_app. repeat split; [done| |done].
    intros k Hk1 Hk2. rewrite list_elem_of_In in Hk1, Hk2.
    apply (F2 k Hk2). by apply Hsurv.
  - apply returned_incl_pushed.
  - apply returned_incl_pushed.
Qed.

Lemma dedupe_within_window_witness :
  reachable (Scenarios.warmed 40) /\ 3000 <= 3000 /\ 3000 - 2000 < WINDOW_MS
  /\ NoDup (map fst
       (pushed (analyzeCorrelations 2000 [] [Scenarios.fed 47] [] (Scenarios.warmed 40))
        ++ pushed (analyzeCorrelations 3000 [] [Scenarios.fed 40] []
             (fireTimeouts 3000
                (after (analyzeCorrelations 2000 [] [Scenarios.fed 47] []
                          (Scenarios.warmed 40))))))).
Proof.
  assert (Hwf : reachable (Scenarios.warmed 40)) by apply reach_call, reach_initial.
  assert (H1 : 3000 <= 3000) by lia.
  assert (H2 : 3000 - 2000 < WINDOW_MS) by (vm_compute; reflexivity).
  split; [exact Hwf|]. split; [exact H1|]. split; [exact H2|].
  exact (proj1 (proj2 (proj2
    (dedupe_within_window (Scenarios.warmed 40) 2000 [] [Scenarios.fed 47] []
       3000 3000 [] [Scenarios.fed 40] [] Hwf H1 H2)))).
Defined.

(** The Fed market moving by seven points twice in a row pushes once. *)
Example dedupe_fed_twice :
  map fst (pushed (analyzeCorrelations 2000 [] [Scenarios.fed 47] [] (Scenarios.warmed 40)))
  = ["prediction_leads_news:Will the Fed cut rates in March:7"%string]
  /\ pushed (analyzeCorrelations 3000 [] [Scenarios.fed 40] []
       (fireTimeouts 3000
          (after (analyzeCorrelations 2000 [] [Scenarios.fed 47] [] (Scenarios.warmed 40)))))
     = [].
Proof. split; vm_compute; reflexivity. Qed.

(** A velocity spike on a second topic is pushed and marked, dropped by the
    one-per-type filter, and still suppressed when the spike recurs; it would
    have been returned then had only the reported key been marked. *)
Lemma war_spike_never_reported :
  map fst (pushed Scenarios.cycleA)
  = ["velocity_spike:iran:7"%string; "velocity_spike:war:7"%string]
  /\ returned Scenarios.cycleA = [velocitySignal 2000 "iran" 7]
  /\ In (velocitySignal 2000 "war" 7) (map snd (pushed Scenarios.cycleA))
  /\ "velocity_spike:war:7"%string ∈ recentSignalKeys (after Scenarios.cycleA)
  /\ returned Scenarios.cycleB = []
  /\ pushed Scenarios.cycleC = []
  /\ returned Scenarios.cycleC = []
  /\ returned Scenarios.cycleC_reported_only = [velocitySignal 4000 "war" 7].
Proof.
  split; [vm_compute; reflexivity|].
  split; [vm_compute; reflexivity|].
  split; [vm_compute; right; left; reflexivity|].
  split; [apply (bool_decide_unpack _); vm_compute; exact I|].
  split; [vm_compute; reflexivity|].
  split; [vm_compute; reflexivity|].
  split; vm_compute; reflexivity.
Qed.

(** C10. From any state the detector can reach, every pushed candidate has
    its key in the set and its timer queued when the call ends, whether or not the two output filters keep it; no call
    made less than 30 minutes later pushes under that key.  And a candidate
    that the filters drop can go unreported for good: in the three cycles of
    [Scenarios] the second-topic spike is pushed, dropped, and suppressed when
    it recurs. *)
Theorem marked_before_output_filters d now1 ev1 pr1 mk1 :
  reachable d ->
  let o1 := analyzeCorrelations now1 ev1 pr1 mk1 d in
  (forall k s, In (k, s) (pushed o1) ->
     k ∈ recentSignalKeys (after o1)
     /\ In (now1 + WINDOW_MS, k) (pendingTimeouts (after o1))
     /\ forall upto now2 ev2 pr2 mk2,
          upto <= now2 -> now2 - now1 < WINDOW_MS ->
          ~ In k (map fst (pushed (analyzeCorrelations now2 ev2 pr2 mk2
                                     (fireTimeouts upto (after o1))))))
  /\ (In (velocitySignal 2000 "war" 7) (map snd (pushed Scenarios.cycleA))
      /\ ~ In (velocitySignal 2000 "war" 7) (returned Scenarios.cycleA)
      /\ returned Scenarios.cycleC = []
      /\ returned Scenarios.cycleC_reported_only = [velocitySignal 4000 "war" 7]).
Proof.
  intros Hreach o1. pose proof (reachable_wf d Hreach) as Hwf. split.
  - intros k s Hks.
    assert (Hk : In k (map fst (pushed o1))) by (apply in_map_iff; by exists (k, s)).
    destruct (analyze_bookkeeping now1 ev1 pr1 mk1 d) as (K & T & _ & _).
    repeat split.
    + fold o1 in K. rewrite K, elem_of_union, elem_of_list_to_set, list_elem_of_In.
      by right.
    + fold o1 in T. rewrite T, in_app_iff. right. apply in_map_iff. by exists (k, s).
    + intros upto now2 ev2 pr2 mk2 Hupto Hwin Hin.
      destruct (analyze_bookkeeping now2 ev2 pr2 mk2 (fireTimeouts upto (after o1)))
        as (_ & _ & _ & F2).
      apply (F2 k Hin). apply pushed_key_survives; [done | lia | done].
  - destruct war_spike_never_reported as (_ & HA & Hin & _ & _ & _ & HC & HC').
    split; [exact Hin|]. split; [|split; [exact HC | exact HC']].
    rewrite HA. intros [E|[]]. discriminate E.
Qed.

Lemma marked_before_output_filters_witness :
  reachable (Scenarios.warmed 40)
  /\ "velocity_spike:war:7"%string ∈ recentSignalKeys (after Scenarios.cycleA)
  /\ In (2000 + WINDOW_MS, "velocity_spike:war:7"%string)
        (pendingTimeouts (after Scenarios.cycleA)).
Proof.
  assert (Hwf : reachable (Scenarios.warmed 40)) by apply reach_call, reach_initial.
  split; [exact Hwf|].
  assert (Hin : In ("velocity_spike:war:7"%string, velocitySignal 2000 "war" 7)
                   (pushed Scenarios.cycleA))
    by (vm_compute; right; left; reflexivity).
  destruct (proj1 (marked_before_output_filters (Scenarios.warmed 40) 2000
                     [Scenarios.iran_war] [] [] Hwf) _ _ Hin) as (H1 & H2 & _).
  split; [exact H1 | exact H2].
Defined.

(** ** Convergence *)

Section Uniq.
Context {A : Type} `{EqDecision A}.

Lemma uniq_In (seen l : list A) x :
  In x (uniq seen l) <-> In x l /\ ~ In x seen.
Proof.
  revert seen. induction l as [|y l IH]; intros seen; simpl; [tauto|].
  case_bool_decide as Hy; rewrite list_elem_of_In in Hy.
  - rewrite IH. split; [tauto|]. intros [[->|H] Hs]; tauto.
  - simpl. rewrite IH, in_app_iff. simpl. split.
    + intros [->|[H Hs]]; [tauto|]. tauto.
    + intros [[->|H] Hs]; [tauto|].
      destruct (decide (y = x)) as [->|Hne]; [tauto|]. right. tauto.
Qed.

Lemma uniq_NoDup (seen l : list A) : NoDup (uniq seen l).
Proof.
  revert seen. induction l as [|y l IH]; intros seen; simpl; [constructor|].
  case_bool_decide as Hy; [apply IH|].
  apply NoDup_cons_2; [|apply IH].
  rewrite list_elem_of_In, uniq_In, in_app_iff. simpl. tauto.
Qed.

(** Three distinct members force a duplicate-free list to have length 3. *)
Lemma three_distinct (l : list A) x y z :
  NoDup l -> In x l -> In y l -> In z l -> x <> y -> x <> z -> y <> z ->
  (3 <= length l)%nat.
Proof.
  intros Hnd Hx Hy Hz Hxy Hxz Hyz.
  assert (Hincl : incl [x; y; z] l) by (by intros w [<-|[<-|[<-|[]]]]).
  apply (List.NoDup_incl_length) in Hincl; [exact Hincl|].
  apply NoDup_ListNoDup. repeat constructor; set_solver.
Qed.
End Uniq.

Lemma types_NoDup now e : NoDup (types now e).
Proof.
  unfold types. apply NoDup_ListNoDup, List.NoDup_filter, NoDup_ListNoDup.
  apply uniq_NoDup.
Qed.

Lemma types_In now e t :
  In t (types now e)
  <-> t <> other /\ exists i, In i (allItems e) /\ now - pubDate i < WINDOW_MS
                              /\ getSourceType (source i) = t.
Proof.
  unfold types, sourceTypes, recentItems.
  rewrite filter_In, uniq_In, in_map_iff, negb_true_iff, bool_decide_eq_false.
  setoid_rewrite filter_In. setoid_rewrite Z.ltb_lt. simpl.
  split.
  - intros [[[i [E [Hi Hr]]] _] Ht]. split; [done|]. by exists i.
  - intros [Ht [i [Hi [Hr E]]]]. split; [|done]. split; [by exists i | tauto].
Qed.

Lemma types_le_sourceTypes now e :
  (length (types now e) <= length (sourceTypes now e))%nat.
Proof. unfold types. apply List.filter_length_le. Qed.

Lemma sourceTypes_le_recentItems now e :
  (length (sourceTypes now e) <= length (recentItems now e))%nat.
Proof.
  unfold sourceTypes.
  transitivity (length (map (fun item => getSourceType (source item)) (recentItems now e)));
    [|by rewrite length_map].
  apply List.NoDup_incl_length; [apply NoDup_ListNoDup, uniq_NoDup|].
  intros t Ht. by apply uniq_In in Ht as [Ht _].
Qed.

Lemma recentItems_le_allItems now e :
  (length (recentItems now e) <= length (allItems e))%nat.
Proof. unfold recentItems. apply List.filter_length_le. Qed.

Lemma convergence_confident now e :
  (3 <= length (types now e))%nat -> (9 # 10 <= confidence (convergenceSignal now e))%Q.
Proof.
  intros H. pose proof (types_le_sourceTypes now e) as Hle.
  simpl. unfold JS.min. apply Q.min_glb; [by vm_compute|].
  assert (Hz : (inject_Z 3 <= inject_Z (Z.of_nat (length (sourceTypes now e))))%Q).
  { rewrite <- Zle_Qle. lia. }
  change (inject_Z 3) with 3%Q in Hz. lra.
Qed.

(** A cluster that passes the thresholds leaves the local [signals] array of
    [detectConvergence] non-empty, unless its key was already in the set
    before any push. *)
Lemma convergence_fires now e events r :
  In e events ->
  (3 <= length (types now e))%nat ->
  (convergenceKey now e ∈ run_keys r -> run_signals r <> []) ->
  run_signals (fold_left (convergenceStep now) events r) <> [].
Proof.
  intros Hin Hty. revert r. induction events as [|a events IH]; intros r Hr; [done|].
  simpl.
  assert (Hgrow : forall r0 l, run_signals r0 <> [] ->
            run_signals (fold_left (convergenceStep now) l r0) <> []).
  { intros r0 l H0.
    destruct (extends_fold (fun _ _ => True) now (convergenceStep now) l) with (r := r0)
      as (n & S1 & _).
    - intros r' a' _. eapply extends_weaken; [|apply (convergenceStep_extends now [a'])].
      + done.
      + by left.
    - rewrite S1. destruct (run_signals r0); [done|]. done. }
  destruct Hin as [->|Hin].
  - apply Hgrow. unfold convergenceStep.
    pose proof (types_le_sourceTypes now e). pose proof (sourceTypes_le_recentItems now e).
    pose proof (recentItems_le_allItems now e).
    rewrite (proj2 (Nat.ltb_ge _ _)) by lia.
    rewrite (proj2 (Nat.ltb_ge _ _)) by lia.
    rewrite (proj2 (Nat.leb_le _ _)) by lia.
    rewrite (proj2 (Nat.leb_le 3 (length (types now e)))) by lia.
    rewrite andb_true_r. unfold isRecentDuplicate.
    case_bool_decide as Hk; simpl.
    + by apply Hr.
    + by destruct (run_signals r).
  - apply IH; [done|]. unfold convergenceStep.
    repeat match goal with
    | |- context [if ?b then _ else _] => destruct b eqn:?
    end; try done.
    simpl. intros _. by destruct (run_signals r).
Qed.

(** The first element whose type has not occurred is kept by the filter. *)
Lemma keepFirst_first pre front x back :
  (forall y, In y (pre ++ front) -> type y <> type x) ->
  In x (keepFirst pre (front ++ x :: back)).
Proof.
  revert pre. induction front as [|a front IH]; intros pre Hne; simpl.
  - rewrite app_nil_r in Hne.
    rewrite (proj2 (existsb_sameType_false x pre)); [by left|].
    intros H. apply in_map_iff in H as [y [E Hy]]. by apply (Hne y).
  - assert (Hrec : In x (keepFirst (pre ++ [a]) (front ++ x :: back))).
    { apply IH. intros y Hy. apply Hne. rewrite <- app_assoc in Hy. done. }
    destruct (existsb (sameType a) pre); [done | by right].
Qed.

Lemma one_of_type (l : list CorrelationSignal) x :
  NoDup (map type l) -> In x l ->
  List.filter (fun s => bool_decide (type s = type x)) l = [x].
Proof.
  induction l as [|a l IH]; simpl; [done|].
  intros Hnd Hin. apply NoDup_cons in Hnd as [Ha Hl]. rewrite list_elem_of_In in Ha.
  assert (Hnone : forall y, type y ∉ map type l ->
            List.filter (fun s => bool_decide (type s = type y)) l = []).
  { intros y Hy. clear -Hy. induction l as [|b l IH]; simpl; [done|].
    rewrite bool_decide_eq_false_2 by set_solver. apply IH. set_solver. }
  destruct Hin as [->|Hin].
  - rewrite bool_decide_eq_true_2 by done. f_equal. apply Hnone.
    by rewrite list_elem_of_In.
  - rewrite bool_decide_eq_false_2; [by apply IH|].
    intros E. apply Ha. rewrite E. by apply in_map.
Qed.

(** C3, as the code has it.  When a previous snapshot exists and some cluster
    of the cycle has three items published within the last 30 minutes whose
    source categories are pairwise distinct and all different from [other],
    and the cluster's dedupe key is not in the set, [analyzeCorrelations]
    returns exactly one convergence signal; it has confidence at least 0.9 and
    is the convergence signal of a cluster of the cycle that passed the
    thresholds (the given cluster when it is the only one that does). *)
Theorem convergence_emitted d now events preds markets e a b c :
  previousSnapshot d <> None ->
  In e events ->
  In a (allItems e) -> In b (allItems e) -> In c (allItems e) ->
  now - pubDate a < WINDOW_MS -> now - pubDate b < WINDOW_MS ->
  now - pubDate c < WINDOW_MS ->
  getSourceType (source a) <> getSourceType (source b) ->
  getSourceType (source a) <> getSourceType (source c) ->
  getSourceType (source b) <> getSourceType (source c) ->
  getSourceType (source a) <> other ->
  getSourceType (source b) <> other ->
  getSourceType (source c) <> other ->
  convergenceKey now e ∉ recentSignalKeys d ->
  exists sig e0,
    List.filter (fun s => bool_decide (type s = convergence))
      (returned (analyzeCorrelations now events preds markets d)) = [sig]
    /\ (9 # 10 <= confidence sig)%Q
    /\ In e0 events /\ sig = convergenceSignal now e0
    /\ (3 <= length (recentItems now e0))%nat /\ (3 <= length (types now e0))%nat.
Proof.
  intros Hprev He Ha Hb Hc Ra Rb Rc Hab Hac Hbc Hao Hbo Hco Hkey.
  assert (Hty : (3 <= length (types now e))%nat).
  { apply (three_distinct _ (getSourceType (source a)) (getSourceType (source b))
             (getSourceType (source c))); try done.
    - apply types_NoDup.
    - apply types_In. split; [done|]. by exists a.
    - apply types_In. split; [done|]. by exists b.
    - apply types_In. split; [done|]. by exists c. }
  unfold analyzeCorrelations. destruct (previousSnapshot d) as [prev|]; [|done].
  cbn [returned].
  destruct (candidates_parts now prev (recentSignalKeys d) (pendingTimeouts d)
              events preds markets) as (r3 & rc & rt & H3 & Erc & Hrc & Hrt & ->).
  cbn [run_signals].
  destruct H3 as (n3 & S3 & K3 & _ & _ & _ & P3). simpl in S3, K3.
  destruct Hrc as (nc & Sc & _ & _ & _ & _ & Pc). simpl in Sc.
  destruct Hrt as (nt & St & _ & _ & _ & _ & Pt). simpl in St.
  assert (Hfresh : convergenceKey now e ∉ run_keys r3).
  { rewrite K3, elem_of_union, elem_of_list_to_set, list_elem_of_In.
    intros [H|H]; [done|]. apply in_map_iff in H as [[k s] [E Hks]]. simpl in E.
    rewrite List.Forall_forall in P3. destruct (P3 _ Hks) as [[Hne _] (i & v & Ek)].
    simpl in *. subst k. unfold convergenceKey in Ek.
    apply generateDedupeKey_type in Ek. by apply Hne. }
  assert (Hsome : run_signals rc <> []).
  { rewrite Erc. unfold detectConvergence. apply (convergence_fires now e); try done. }
  rewrite Sc in Hsome. destruct nc as [|[k x] nc]; [done|]. clear Hsome.
  apply Forall_cons in Pc as [(e0 & He0 & _ & Ex & Hr0 & Ht0) _]. simpl in Ex.
  rewrite S3, Sc, St, !map_app. simpl.
  set (l := map snd n3 ++ x :: map snd nc ++ map snd nt).
  assert (Hx : In x (highConfidence (uniqueSignals l))).
  { apply highConfidence_In. split.
    - rewrite uniqueSignals_eq. apply keepFirst_first. simpl.
      intros y Hy. apply in_map_iff in Hy as [[k' y'] [E Hy]]. simpl in E. subst y'.
      rewrite List.Forall_forall in P3. destruct (P3 _ Hy) as [[Hne _] _].
      simpl in Hne. by rewrite Ex.
    - apply Qle_trans with (9 # 10)%Q; [by vm_compute|].
      rewrite Ex. by apply convergence_confident. }
  exists x, e0. split.
  - replace convergence with (type x) by (by rewrite Ex).
    apply one_of_type; [|done].
    apply highConfidence_NoDup. rewrite uniqueSignals_eq. apply keepFirst_NoDup.
  - repeat split; try done. rewrite Ex. by apply convergence_confident.
Qed.

Lemma convergence_emitted_witness :
  previousSnapshot (Scenarios.warmed 40) <> None
  /\ (convergenceKey 2000 Scenarios.storm_three_desks ∉ recentSignalKeys (Scenarios.warmed 40))
  /\ exists sig e0,
       List.filter (fun s => bool_decide (type s = convergence))
         (returned (analyzeCorrelations 2000 [Scenarios.storm_three_desks] [] []
                      (Scenarios.warmed 40))) = [sig]
       /\ (9 # 10 <= confidence sig)%Q
       /\ In e0 [Scenarios.storm_three_desks] /\ sig = convergenceSignal 2000 e0
       /\ (3 <= length (recentItems 2000 e0))%nat /\ (3 <= length (types 2000 e0))%nat.
Proof.
  assert (Hp : previousSnapshot (Scenarios.warmed 40) <> None) by (vm_compute; discriminate).
  assert (Hk : convergenceKey 2000 Scenarios.storm_three_desks
               ∉ recentSignalKeys (Scenarios.warmed 40)).
  { intros H. apply (bool_decide_pack _) in H. vm_compute in H. exact H. }
  split; [exact Hp|]. split; [exact Hk|].
  apply (convergence_emitted (Scenarios.warmed 40) 2000 [Scenarios.storm_three_desks] [] []
           Scenarios.storm_three_desks
           (Scenarios.item "Reuters" "Storm hits coast" false)
           (Scenarios.item "White House" "Storm hits coast" false)
           (Scenarios.item "CNBC" "Storm hits coast" false));
    try exact Hp; try exact Hk;
    try (vm_compute; discriminate); try (vm_compute; reflexivity);
    vm_compute; tauto.
Defined.

(** C3 as stated fails: three recent items in three distinct categories, one
    of them [other], with a previous snapshot and an empty key set, and no
    convergence signal is returned. *)
Lemma convergence_other_not_counted :
  previousSnapshot (Scenarios.warmed 40) <> None
  /\ recentSignalKeys (Scenarios.warmed 40) = ∅
  /\ length (recentItems 2000 Scenarios.storm_with_blog) = 3%nat
  /\ sourceTypes 2000 Scenarios.storm_with_blog = [wire; gov; other]
  /\ returned (analyzeCorrelations 2000 [Scenarios.storm_with_blog] [] []
                 (Scenarios.warmed 40)) = [].
Proof.
  split; [vm_compute; discriminate|].
  split; [vm_compute; reflexivity|].
  split; [vm_compute; reflexivity|].
  split; vm_compute; reflexivity.
Qed.

(** ** Prediction shifts *)

(** Two prices that are fractions of one never differ by the threshold. *)
Lemma fraction_prices_never_shift (p q : Q) :
  (0 <= p <= 1)%Q -> (0 <= q <= 1)%Q ->
  geb (JS.abs (q - p)) PREDICTION_SHIFT_THRESHOLD = false.
Proof.
  intros [Hp0 Hp1] [Hq0 Hq1]. unfold geb, JS.abs, PREDICTION_SHIFT_THRESHOLD.
  apply not_true_iff_false. rewrite Qle_bool_iff. intros H.
  assert (Habs : (Qabs (q - p) <= 1)%Q) by (apply Qabs_Qle_condition; split; lra).
  lra.
Qed.

(** On the percent scale the Fed scenario does produce its signal. *)
Example fed_shift_on_percent_scale :
  exists sig,
    returned (analyzeCorrelations 2000 [] [Scenarios.fed 47] [] (Scenarios.warmed 40)) = [sig]
    /\ type sig = prediction_leads_news
    /\ (confidence sig == 85 # 100)%Q.
Proof. eexists. split; [vm_compute; reflexivity|]. split; [reflexivity|]. by vm_compute. Qed.

(** C1, at the prices the scenario gives.  With the Fed market at 0.40 in the
    previous snapshot and at 0.47 now, and no news at all, the shift the code
    computes is 0.07; it is below [PREDICTION_SHIFT_THRESHOLD], so nothing is
    pushed and nothing is returned. *)
Theorem fed_shift_on_fraction_scale :
  (JS.abs ((47 # 100) - (40 # 100)) == 7 # 100)%Q
  /\ geb (JS.abs ((47 # 100) - (40 # 100))) PREDICTION_SHIFT_THRESHOLD = false
  /\ extractTopics [] = []
  /\ map_get (predictionChanges (currentSnapshot 1000 [] [Scenarios.fed (40 # 100)] []))
       "Will the Fed cut rates in March" = Some (40 # 100)%Q
  /\ pushed (analyzeCorrelations 2000 [] [Scenarios.fed (47 # 100)] []
               (Scenarios.warmed (40 # 100))) = []
  /\ returned (analyzeCorrelations 2000 [] [Scenarios.fed (47 # 100)] []
                 (Scenarios.warmed (40 # 100))) = [].
Proof.
  split; [by vm_compute|].
  split; [vm_compute; reflexivity|].
  split; [reflexivity|].
  split; [vm_compute; reflexivity|].
  split; vm_compute; reflexivity.
Qed.

(** ** Hotspot activity *)

Lemma tally_fold_breaking now spot items t :
  breaking (fold_left (tallyItem now spot) items t)
  = breaking t || existsb (fun i => matching spot i && isAlert i) items.
Proof.
  revert t. induction items as [|i items IH]; intros t; simpl; [by rewrite orb_false_r|].
  rewrite IH. unfold tallyItem, matching.
  destruct (0 <? length (matchKeywords spot (toLowerCase (title i))))%nat; simpl; [|done].
  destruct (isAlert i); simpl; [by rewrite orb_true_r|done].
Qed.

Lemma tally_fold_matchedCount now spot items t :
  matchedCount (fold_left (tallyItem now spot) items t)
  = matchedCount t + Z.of_nat (length (List.filter (matching spot) items)).
Proof.
  revert t. induction items as [|i items IH]; intros t; simpl; [lia|].
  rewrite IH. unfold tallyItem, matching.
  destruct (0 <? length (matchKeywords spot (toLowerCase (title i))))%nat; simpl; lia.
Qed.

Lemma tallyItem_grows now spot t i : tally_le t (tallyItem now spot t i).
Proof.
  unfold tally_le, tallyItem.
  destruct (0 <? length (matchKeywords spot (toLowerCase (title i))))%nat; simpl;
    [|by repeat split].
  split; [by destruct (isAlert i)|]. split; [lia|].
  destruct (isAlert i);
    repeat match goal with |- context [if ?b then _ else _] => destruct b end; lia.
Qed.

Lemma tallyItem_mono now spot t t' i :
  tally_le t t' -> tally_le (tallyItem now spot t i) (tallyItem now spot t' i).
Proof.
  intros (Hb & Hm & Hs). unfold tally_le, tallyItem.
  destruct (0 <? length (matchKeywords spot (toLowerCase (title i))))%nat; simpl;
    [|by repeat split].
  split; [by destruct (isAlert i)|]. split; [lia|].
  destruct (isAlert i);
    repeat match goal with |- context [if ?b then _ else _] => destruct b end; lia.
Qed.

Lemma tally_fold_mono now spot items t t' :
  tally_le t t' ->
  tally_le (fold_left (tallyItem now spot) items t) (fold_left (tallyItem now spot) items t').
Proof.
  revert t t'. induction items as [|i items IH]; intros t t' H; simpl; [done|].
  by apply IH, tallyItem_mono.
Qed.

Lemma classify_mono t t' :
  tally_le t t' -> rank (fst (classify t)) <= rank (fst (classify t')).
Proof.
  intros (Hb & Hm & Hs). unfold classify.
  destruct (breaking t) eqn:Eb; [rewrite (Hb eq_refl); simpl; lia|].
  destruct (breaking t'); simpl;
    repeat match goal with
    | |- context [(?a <=? ?b)] => destruct (Z.leb_spec a b)
    end; simpl; lia.
Qed.

Lemma filter_length_impl {A} (p q : A -> bool) (l : list A) :
  (forall x, p x = true -> q x = true) ->
  (length (List.filter p l) <= length (List.filter q l))%nat.
Proof.
  intros H. induction l as [|x l IH]; simpl; [done|].
  destruct (p x) eqn:Hp.
  - rewrite (H x Hp). simpl. lia.
  - destruct (q x); simpl; lia.
Qed.

Lemma matching_iff spot i :
  matching spot i = true
  <-> exists kw, In kw (keywords spot)
                 /\ includes (toLowerCase (title i)) (toLowerCase kw) = true.
Proof.
  unfold matching, matchKeywords. rewrite Nat.ltb_lt. split.
  - intros H. destruct (List.filter _ (keywords spot)) as [|kw l] eqn:E; [simpl in H; lia|].
    exists kw.
    apply (filter_In (fun kw => includes (toLowerCase (title i)) (toLowerCase kw))).
    rewrite E. by left.
  - intros [kw Hkw].
    apply (filter_In (fun kw => includes (toLowerCase (title i)) (toLowerCase kw))) in Hkw.
    destruct (List.filter _ (keywords spot)); [done | simpl; lia].
Qed.

Lemma gaza_matches_telaviv i :
  includes (toLowerCase (title i)) "gaza" = true -> matching Geo.telaviv i = true.
Proof.
  intros H. apply matching_iff. exists "gaza"%string. split; [|exact H].
  simpl. tauto.
Qed.

Lemma tally_matchedCount now spot items :
  matchedCount (tally now spot items)
  = Z.of_nat (length (List.filter (matching spot) items)).
Proof. unfold tally. rewrite tally_fold_matchedCount. simpl. lia. Qed.

Lemma tally_breaking now spot items :
  breaking (tally now spot items) = true
  <-> exists i, In i items /\ isAlert i = true /\ matching spot i = true.
Proof.
  unfold tally. rewrite tally_fold_breaking. simpl. rewrite existsb_exists.
  split; intros [i Hi]; exists i.
  - destruct Hi as [Hi H]. apply andb_true_iff in H. tauto.
  - rewrite andb_true_iff. tauto.
Qed.

Lemma highCond_bool t :
  breaking t || (4 <=? matchedCount t) || (10 <=? score t) = true <-> highCond t.
Proof. unfold highCond. rewrite !orb_true_iff, !Z.leb_le. tauto. Qed.

Lemma elevatedCond_bool t :
  (2 <=? matchedCount t) || (4 <=? score t) = true <-> elevatedCond t.
Proof. unfold elevatedCond. rewrite !orb_true_iff, !Z.leb_le. tauto. Qed.

Lemma classify_high t :
  highCond t ->
  classify t = (high, if breaking t then "BREAKING NEWS"%string else "High activity"%string).
Proof. intros H. apply highCond_bool in H. unfold classify. by rewrite H. Qed.

Lemma classify_elevated t :
  ~ highCond t -> elevatedCond t -> classify t = (elevated, "Elevated activity"%string).
Proof.
  intros H E. rewrite <- highCond_bool in H. apply not_true_is_false in H.
  apply elevatedCond_bool in E. unfold classify. by rewrite H, E.
Qed.

Lemma classify_low t :
  ~ highCond t -> ~ elevatedCond t ->
  classify t = (low, if 1 <=? matchedCount t then "Recent mentions"%string
                     else "Monitoring"%string).
Proof.
  intros H E. rewrite <- highCond_bool in H. apply not_true_is_false in H.
  rewrite <- elevatedCond_bool in E. apply not_true_is_false in E.
  unfold classify. rewrite H, E. by destruct (1 <=? matchedCount t).
Qed.

Lemma highCond_dec t : highCond t \/ ~ highCond t.
Proof.
  rewrite <- highCond_bool.
  destruct (breaking t || (4 <=? matchedCount t) || (10 <=? score t)); [by left|by right].
Qed.

Lemma elevatedCond_dec t : elevatedCond t \/ ~ elevatedCond t.
Proof.
  rewrite <- elevatedCond_bool.
  destruct ((2 <=? matchedCount t) || (4 <=? score t)); [by left|by right].
Qed.

(** C2, as the code has it.  [matchedCount] counts the items whose title
    matches a keyword and [hasBreaking] says that one of them is flagged.  The
    level is [high] exactly when a flagged matching item is present or
    [matchedCount >= 4] or [score >= 10], with status BREAKING NEWS in the
    first case and High activity otherwise; failing that it is [elevated]
    exactly when [matchedCount >= 2] or [score >= 4]; failing that it is
    [low], with status Recent mentions when [matchedCount >= 1] and Monitoring
    otherwise.  For the hotspot [telaviv] and five items of which four contain
    "gaza", the level is [high], and the status is BREAKING NEWS when one of
    the items that match a keyword is flagged. *)
Theorem hotspot_classification now items spot :
  let t := tally now spot items in
  let s := updateSpot now items spot in
  let alert := exists i, In i items /\ isAlert i = true /\ matching spot i = true in
  let high_cond := alert \/ 4 <= matchedCount t \/ 10 <= score t in
  let elevated_cond := 2 <= matchedCount t \/ 4 <= score t in
  matchedCount t = Z.of_nat (length (List.filter (matching spot) items))
  /\ (hasBreaking s = Some true <-> alert)
  /\ (level s = Some high <-> high_cond)
  /\ (alert -> status s = Some "BREAKING NEWS"%string)
  /\ (high_cond -> ~ alert -> status s = Some "High activity"%string)
  /\ (level s = Some elevated <-> ~ high_cond /\ elevated_cond)
  /\ (~ high_cond -> elevated_cond -> status s = Some "Elevated activity"%string)
  /\ (~ high_cond -> ~ elevated_cond -> level s = Some low)
  /\ (~ high_cond -> ~ elevated_cond -> 1 <= matchedCount t ->
      status s = Some "Recent mentions"%string)
  /\ (~ high_cond -> ~ elevated_cond -> matchedCount t < 1 ->
      status s = Some "Monitoring"%string)
  /\ (forall now' items',
        length items' = 5%nat ->
        length (List.filter (fun i => includes (toLowerCase (title i)) "gaza") items') = 4%nat ->
        level (updateSpot now' items' Geo.telaviv) = Some high
        /\ ((exists i, In i items' /\ isAlert i = true /\ matching Geo.telaviv i = true) ->
            status (updateSpot now' items' Geo.telaviv) = Some "BREAKING NEWS"%string)).
Proof.
  intros t s alert high_cond elevated_cond.
  pose proof (tally_breaking now spot items) as Hb. fold t in Hb. fold alert in Hb.
  assert (Hh : high_cond <-> highCond t) by (unfold high_cond, highCond; tauto).
  assert (He : elevated_cond <-> elevatedCond t) by (unfold elevated_cond, elevatedCond; tauto).
  assert (Hlevel : level s = Some (fst (classify t))) by reflexivity.
  assert (Hstatus : status s = Some (snd (classify t))) by reflexivity.
  assert (Hbreak : hasBreaking s = Some (breaking t)) by reflexivity.
  rewrite Hlevel, Hstatus, Hbreak. clear Hlevel Hstatus Hbreak.
  rewrite Hh, He. clearbody high_cond elevated_cond alert. clear Hh He.
  split; [apply tally_matchedCount|].
  split. { rewrite <- Hb. split; [by intros [= ->] | by intros ->]. }
  split.
  { split.
    - intros [= E]. destruct (highCond_dec t) as [H|H]; [done|]. exfalso.
      destruct (elevatedCond_dec t) as [H'|H'].
      + by rewrite classify_elevated in E.
      + by rewrite classify_low in E.
    - intros H. by rewrite classify_high. }
  split.
  { intros Ha. apply Hb in Ha. rewrite classify_high by (by left). simpl. by rewrite Ha. }
  split.
  { intros H Ha. rewrite classify_high by done. simpl.
    destruct (breaking t); [|done]. exfalso. apply Ha. by apply Hb. }
  split.
  { split.
    - intros [= E]. destruct (highCond_dec t) as [H|H].
      + by rewrite classify_high in E.
      + split; [done|]. destruct (elevatedCond_dec t) as [H'|H']; [done|].
        by rewrite classify_low in E.
    - intros [H H']. by rewrite classify_elevated. }
  split. { intros H H'. by rewrite classify_elevated. }
  split. { intros H H'. by rewrite classify_low. }
  split.
  { intros H H' Hm. rewrite classify_low by done. simpl.
    by rewrite (proj2 (Z.leb_le _ _) Hm). }
  split.
  { intros H H' Hm. rewrite classify_low by done. simpl.
    by rewrite (proj2 (Z.leb_gt _ _) Hm). }
  intros now' items' Hlen Hgaza.
  assert (H4 : highCond (tally now' Geo.telaviv items')).
  { right. left. rewrite tally_matchedCount.
    pose proof (filter_length_impl
      (fun i => includes (toLowerCase (title i)) "gaza") (matching Geo.telaviv) items'
      gaza_matches_telaviv). lia. }
  split.
  - unfold updateSpot. cbn [level]. by rewrite classify_high.
  - intros Ha. apply tally_breaking with (now := now') in Ha.
    unfold updateSpot. cbn [status]. rewrite classify_high by done. simpl. by rewrite Ha.
Qed.

Lemma hotspot_classification_witness :
  length (Scenarios.gaza_corpus true) = 5%nat
  /\ length (List.filter (fun i => includes (toLowerCase (title i)) "gaza")
               (Scenarios.gaza_corpus true)) = 4%nat
  /\ level (updateSpot 2000 (Scenarios.gaza_corpus true) Geo.telaviv) = Some high
  /\ status (updateSpot 2000 (Scenarios.gaza_corpus true) Geo.telaviv)
     = Some "BREAKING NEWS"%string.
Proof.
  assert (H5 : length (Scenarios.gaza_corpus true) = 5%nat) by reflexivity.
  assert (H4 : length (List.filter (fun i => includes (toLowerCase (title i)) "gaza")
                         (Scenarios.gaza_corpus true)) = 4%nat) by (vm_compute; reflexivity).
  split; [exact H5|]. split; [exact H4|].
  destruct (hotspot_classification 0 [] Geo.telaviv)
    as (_ & _ & _ & _ & _ & _ & _ & _ & _ & _ & Hscen).
  destruct (Hscen 2000 (Scenarios.gaza_corpus true) H5 H4) as [Hl Hs].
  split; [exact Hl|]. apply Hs.
  exists (Scenarios.item "Reuters" "Gaza truce talks resume" true).
  split; [by left|]. split; [reflexivity | vm_compute; reflexivity].
Defined.

(** C2 as stated fails at its example when the flagged item is the one that
    matches no keyword: five items, four of them containing "gaza", one
    flagged, and the status is High activity, not BREAKING NEWS. *)
Lemma alert_on_unrelated_item :
  length Scenarios.gaza_corpus_alert_elsewhere = 5%nat
  /\ length (List.filter (fun i => includes (toLowerCase (title i)) "gaza")
               Scenarios.gaza_corpus_alert_elsewhere) = 4%nat
  /\ length (List.filter isAlert Scenarios.gaza_corpus_alert_elsewhere) = 1%nat
  /\ level (updateSpot 2000 Scenarios.gaza_corpus_alert_elsewhere Geo.telaviv) = Some high
  /\ status (updateSpot 2000 Scenarios.gaza_corpus_alert_elsewhere Geo.telaviv)
     = Some "High activity"%string
  /\ status (updateSpot 2000 Scenarios.gaza_corpus_alert_elsewhere Geo.telaviv)
     <> Some "BREAKING NEWS"%string.
Proof.
  split; [reflexivity|].
  split; [vm_compute; reflexivity|].
  split; [vm_compute; reflexivity|].
  split; [vm_compute; reflexivity|].
  split; [vm_compute; reflexivity|].
  vm_compute. discriminate.
Qed.

Lemma tallyItem_more now spot t i i' :
  isAlert i = isAlert i' -> pubDate i = pubDate i' ->
  (matchCount spot i <= matchCount spot i')%nat ->
  tally_le (tallyItem now spot t i) (tallyItem now spot t i').
Proof.
  intros Ea Ep Hm. unfold matchCount in Hm.
  destruct (Nat.ltb_spec 0 (length (matchKeywords spot (toLowerCase (title i)))))
    as [Hpos|Hzero].
  - unfold tally_le, tallyItem.
    rewrite (proj2 (Nat.ltb_lt _ _) Hpos).
    rewrite (proj2 (Nat.ltb_lt 0 (length (matchKeywords spot (toLowerCase (title i'))))))
      by lia.
    rewrite <- Ea, <- Ep. simpl.
    split; [done|]. split; [lia|].
    destruct (isAlert i);
      repeat match goal with |- context [if ?b then _ else _] => destruct b end; lia.
  - replace (tallyItem now spot t i) with t; [apply tallyItem_grows|].
    unfold tallyItem. by rewrite (proj2 (Nat.ltb_ge _ _) Hzero).
Qed.

(** C9. Severity never moves down when the tally goes up: the level is
    monotone in [hasBreaking], [matchedCount] and [score] together; adding one
    item anywhere in the corpus, the rest held fixed, raises the tally of the
    hotspot component by component and so cannot lower its level; and so does
    replacing an item by one that matches at least as many keywords, with the
    same alert flag and date. *)
Theorem severity_monotone :
  (forall t t', tally_le t t' -> rank (fst (classify t)) <= rank (fst (classify t')))
  /\ (forall now spot before item rest,
        tally_le (tally now spot (before ++ rest)) (tally now spot (before ++ item :: rest))
        /\ forall l l',
             level (updateSpot now (before ++ rest) spot) = Some l ->
             level (updateSpot now (before ++ item :: rest) spot) = Some l' ->
             rank l <= rank l')
  /\ (forall now spot before i i' rest,
        isAlert i = isAlert i' -> pubDate i = pubDate i' ->
        (matchCount spot i <= matchCount spot i')%nat ->
        forall l l',
          level (updateSpot now (before ++ i :: rest) spot) = Some l ->
          level (updateSpot now (before ++ i' :: rest) spot) = Some l' ->
          rank l <= rank l').
Proof.
  split; [exact classify_mono|]. split.
  - intros now spot before item rest.
    assert (H : tally_le (tally now spot (before ++ rest))
                         (tally now spot (before ++ item :: rest))).
    { unfold tally. rewrite !fold_left_app. simpl.
      apply tally_fold_mono, tallyItem_grows. }
    split; [exact H|].
    intros l l' [= <-] [= <-]. by apply classify_mono.
  - intros now spot before i i' rest Ea Ep Hm l l' [= <-] [= <-].
    apply classify_mono. unfold tally. rewrite !fold_left_app. simpl.
    by apply tally_fold_mono, tallyItem_more.
Qed.

Lemma severity_monotone_witness :
  tally_le (tally 2000 Geo.telaviv [Scenarios.gaza_item])
           (tally 2000 Geo.telaviv [Scenarios.gaza_item; Scenarios.gaza_item])
  /\ rank elevated <= rank high.
Proof.
  destruct (proj1 (proj2 severity_monotone) 2000 Geo.telaviv [Scenarios.gaza_item]
              Scenarios.gaza_item []) as [H1 H2].
  split; [exact H1|].
  apply H2; vm_compute; reflexivity.
Defined.

(** ** Related news *)

Lemma dropNull_In {A} (l : list (option A)) y : In y (dropNull l) <-> In (Some y) l.
Proof.
  induction l as [|[x|] l IH]; simpl; [tauto| |].
  - rewrite IH. split; intros [H|H]; try tauto; left; congruence.
  - rewrite IH. split; [tauto|]. intros [H|H]; [discriminate|done].
Qed.

Lemma insertByScore_In x l y : In y (insertByScore x l) <-> y = x \/ In y l.
Proof.
  induction l as [|a l IH]; simpl; [split; intros [H|H]; auto|].
  destruct (snd x <? snd a)%nat; simpl; [rewrite IH|]; split; intros H;
    intuition congruence.
Qed.

Lemma sortByScore_In l y : In y (sortByScore l) <-> In y l.
Proof.
  induction l as [|a l IH]; simpl; [tauto|].
  rewrite insertByScore_In, IH. split; intros [H|H]; auto.
Qed.

Lemma insertByScore_sorted x l :
  StronglySorted byScore l -> StronglySorted byScore (insertByScore x l).
Proof.
  induction l as [|a l IH]; simpl; intros H.
  - repeat constructor.
  - apply StronglySorted_inv in H as [Hl Ha].
    destruct (Nat.ltb_spec (snd x) (snd a)).
    + constructor; [by apply IH|].
      apply List.Forall_forall. intros y Hy. apply insertByScore_In in Hy as [->|Hy].
      * unfold byScore. lia.
      * rewrite List.Forall_forall in Ha. by apply Ha.
    + constructor; [by constructor|]. constructor; [done|].
      rewrite List.Forall_forall in *. intros y Hy. specialize (Ha y Hy).
      unfold byScore in *. lia.
Qed.

Lemma sortByScore_sorted l : StronglySorted byScore (sortByScore l).
Proof.
  induction l as [|a l IH]; simpl; [constructor | by apply insertByScore_sorted].
Qed.

Lemma firstn_incl {A} n (l : list A) x : In x (firstn n l) -> In x l.
Proof.
  revert n. induction l as [|a l IH]; intros [|n]; simpl; try tauto.
  intros [H|H]; [by left | right; by apply (IH n)].
Qed.

Lemma firstn_le {A} n (l : list A) : (length (firstn n l) <= n)%nat.
Proof.
  revert n. induction l as [|a l IH]; intros [|n]; simpl; try lia.
  specialize (IH n). lia.
Qed.

Lemma firstn_sorted {A} (R : A -> A -> Prop) n l :
  StronglySorted R l -> StronglySorted R (firstn n l).
Proof.
  revert n. induction l as [|a l IH]; intros [|n] H; simpl; try constructor.
  - apply IH. by apply StronglySorted_inv in H as [H _].
  - apply StronglySorted_inv in H as [_ H]. rewrite List.Forall_forall in *.
    intros y Hy. apply H. by apply firstn_incl in Hy.
Qed.

Lemma scoreItem_Some hotspot i x n :
  scoreItem hotspot i = Some (x, n) ->
  x = i /\ n = matchCount hotspot i /\ (1 <= n)%nat.
Proof.
  unfold scoreItem, matchCount.
  destruct (Nat.eqb_spec (length (matchKeywords hotspot (toLowerCase (title i)))) 0);
    [done|].
  destruct (_ && _); [done|]. intros [= <- <-]. repeat split. lia.
Qed.

Lemma ranked_In m hotspot x n :
  In (x, n) (ranked m hotspot) ->
  In x (news m) /\ scoreItem hotspot x = Some (x, n).
Proof.
  unfold ranked. intros H. apply firstn_incl, sortByScore_In, dropNull_In in H.
  apply in_map_iff in H as [i [E Hi]].
  destruct (scoreItem_Some _ _ _ _ E) as [-> _]. done.
Qed.

Lemma getRelatedNews_In m hotspot x :
  In x (getRelatedNews m hotspot) ->
  In x (news m) /\ exists n, scoreItem hotspot x = Some (x, n).
Proof.
  unfold getRelatedNews. fold (ranked m hotspot). intros H.
  apply in_map_iff in H as [[y n] [E H]]. simpl in E. subst y.
  apply ranked_In in H as [H1 H2]. eauto.
Qed.

Lemma getRelatedNews_sorted m hotspot :
  StronglySorted (fun a b => (matchCount hotspot b <= matchCount hotspot a)%nat)
    (getRelatedNews m hotspot).
Proof.
  unfold getRelatedNews. fold (ranked m hotspot).
  assert (Hs : StronglySorted byScore (ranked m hotspot))
    by apply firstn_sorted, sortByScore_sorted.
  assert (Hn : forall x n, In (x, n) (ranked m hotspot) -> n = matchCount hotspot x).
  { intros x n H. apply ranked_In in H as [_ H].
    by apply scoreItem_Some in H as (_ & H & _). }
  induction (ranked m hotspot) as [|[x n] l IH]; simpl; [constructor|].
  apply StronglySorted_inv in Hs as [Hl Hx].
  constructor.
  - apply IH; [done|]. intros y k H. apply Hn. by right.
  - rewrite List.Forall_forall in *. intros y Hy.
    apply in_map_iff in Hy as [[y' k] [E Hy]]. simpl in E. subst y'.
    specialize (Hx _ Hy). unfold byScore in Hx. simpl in Hx.
    rewrite <- (Hn x n) by (by left). rewrite <- (Hn y k) by (by right). done.
Qed.

Lemma scoreItem_excluded hotspot item :
  (exists kw, In kw (keywords hotspot)
              /\ includes (toLowerCase (title item)) (toLowerCase kw) = true) ->
  (exists t, In t conflictTopics
             /\ includes (toLowerCase (title item)) t = true
             /\ forall k, In k (keywords hotspot) -> includes (toLowerCase k) t = false) ->
  (forall kw, In kw (keywords hotspot) ->
              includes (toLowerCase (title item)) (toLowerCase kw) = true ->
              toLowerCase kw <> toLowerCase (hs_name hotspot)) ->
  (forall ags a, agencies hotspot = Some ags -> In a ags ->
                 includes (toLowerCase (title item)) (toLowerCase a) = false) ->
  scoreItem hotspot item = None.
Proof.
  intros [kw [Hkw Hm]] [t [Ht [Htt Hcov]]] Hname Hag.
  unfold scoreItem.
  destruct (Nat.eqb_spec (length (matchKeywords hotspot (toLowerCase (title item)))) 0);
    [done|].
  assert (Hc : (0 <? length (conflictMatches hotspot (toLowerCase (title item))))%nat = true).
  { apply Nat.ltb_lt. unfold conflictMatches.
    assert (Hin : In t (List.filter (fun t =>
                includes (toLowerCase (title item)) t
                && negb (existsb (fun k => includes (toLowerCase k) t) (keywords hotspot)))
                conflictTopics)).
    { apply filter_In. split; [done|]. rewrite Htt. simpl. apply negb_true_iff.
      apply not_true_iff_false. rewrite existsb_exists. intros [k [Hk Hk']].
      by rewrite (Hcov k Hk) in Hk'. }
    destruct (List.filter _ conflictTopics); [done | simpl; lia]. }
  assert (Hs : strongLocalMatch hotspot (toLowerCase (title item))
                 (matchKeywords hotspot (toLowerCase (title item))) = false).
  { apply not_true_iff_false. unfold strongLocalMatch. rewrite existsb_exists.
    intros [k [Hk Hk']]. unfold matchKeywords in Hk. apply filter_In in Hk as [Hk Hkm].
    apply orb_true_iff in Hk' as [Hk'|Hk'].
    - apply String.eqb_eq in Hk'. by apply (Hname k).
    - unfold agencyInTitle in Hk'. destruct (agencies hotspot) as [ags|] eqn:E; [|done].
      apply existsb_exists in Hk' as [a [Ha Ha']]. by rewrite (Hag ags a) in Ha'. }
  by rewrite Hc, Hs.
Qed.

Lemma matchesKeyword_length hotspot item :
  matchesKeyword hotspot item
  <-> (1 <= length (matchKeywords hotspot (toLowerCase (title item))))%nat.
Proof.
  unfold matchesKeyword, matchKeywords. rewrite List.Exists_exists. split.
  - intros (kw & Hkw & Hm).
    assert (H : In kw (List.filter (fun kw => includes (toLowerCase (title item)) (toLowerCase kw))
                         (keywords hotspot))) by (by apply filter_In).
    destruct (List.filter _ _); [done | simpl; lia].
  - intros H. destruct (List.filter _ _) as [|kw l] eqn:E; [simpl in H; lia|].
    assert (Hin : In kw (kw :: l)) by (by left). rewrite <- E in Hin.
    apply filter_In in Hin. by exists kw.
Qed.

Lemma uncoveredTopic_length hotspot item :
  uncoveredTopic hotspot item
  <-> (1 <= length (conflictMatches hotspot (toLowerCase (title item))))%nat.
Proof.
  unfold uncoveredTopic, conflictMatches. rewrite List.Exists_exists.
  assert (Hcov : forall t,
            negb (existsb (fun k => includes (toLowerCase k) t) (keywords hotspot)) = true
            <-> Forall (fun k => includes (toLowerCase k) t = false) (keywords hotspot)).
  { intros t. rewrite negb_true_iff, <- not_true_iff_false, existsb_exists.
    rewrite List.Forall_forall. split.
    - intros H k Hk. apply not_true_iff_false. intros E. apply H. by exists k.
    - intros H (k & Hk & E). by rewrite (H k Hk) in E. }
  split.
  - intros (t & Ht & Hm & Hc).
    assert (H : In t (List.filter (fun t =>
                includes (toLowerCase (title item)) t
                && negb (existsb (fun k => includes (toLowerCase k) t) (keywords hotspot)))
                conflictTopics)).
    { apply filter_In. split; [done|]. rewrite Hm. by apply Hcov. }
    destruct (List.filter _ conflictTopics); [done | simpl; lia].
  - intros H. destruct (List.filter _ conflictTopics) as [|t l] eqn:E; [simpl in H; lia|].
    assert (Hin : In t (t :: l)) by (by left). rewrite <- E in Hin.
    apply filter_In in Hin as [Ht Hb]. apply andb_true_iff in Hb as [Hm Hc].
    exists t. split; [done|]. split; [done|]. by apply Hcov.
Qed.

Lemma strongMarker_bool hotspot item :
  matchesKeyword hotspot item ->
  (strongLocalMatch hotspot (toLowerCase (title item))
     (matchKeywords hotspot (toLowerCase (title item))) = true
   <-> strongMarker hotspot item).
Proof.
  intros Hm. unfold strongLocalMatch, strongMarker. rewrite existsb_exists.
  assert (Hag : agencyInTitle hotspot (toLowerCase (title item)) = true
                <-> match agencies hotspot with
                    | Some ags => Exists (fun a => includes (toLowerCase (title item))
                                                     (toLowerCase a) = true) ags
                    | None => False
                    end).
  { unfold agencyInTitle. destruct (agencies hotspot) as [ags|]; [|done].
    by rewrite existsb_exists, List.Exists_exists. }
  rewrite List.Exists_exists. unfold matchKeywords. split.
  - intros (kw & Hkw & H). apply filter_In in Hkw as [Hkw Hkm].
    apply orb_true_iff in H as [H|H].
    + left. exists kw. split; [done|]. split; [done|]. by apply String.eqb_eq.
    + right. by apply Hag.
  - intros [(kw & Hkw & Hkm & E)|H].
    + exists kw. split; [by apply filter_In|]. apply orb_true_iff. left.
      by apply String.eqb_eq.
    + unfold matchesKeyword in Hm. apply List.Exists_exists in Hm as (kw & Hkw & Hkm).
      exists kw. split; [by apply filter_In|]. apply orb_true_iff. right. by apply Hag.
Qed.

(** [scoreItem] keeps exactly the matches that remain, with their count. *)
Lemma scoreItem_remains hotspot item :
  scoreItem hotspot item
  = if bool_decide (remains hotspot item) then Some (item, matchCount hotspot item) else None.
Proof.
  unfold scoreItem. fold (matchCount hotspot item).
  pose proof (matchesKeyword_length hotspot item) as Hm.
  pose proof (uncoveredTopic_length hotspot item) as Hu.
  pose proof (strongMarker_bool hotspot item) as Hs.
  fold (matchCount hotspot item) in Hm.
  destruct (Nat.eqb_spec (matchCount hotspot item) 0) as [E0|E0].
  - rewrite bool_decide_eq_false_2; [done|]. intros [H _]. apply Hm in H. lia.
  - assert (Hmk : matchesKeyword hotspot item) by (apply Hm; lia).
    specialize (Hs Hmk).
    destruct (Nat.ltb_spec 0 (length (conflictMatches hotspot (toLowerCase (title item)))))
      as [Hc|Hc]; cbn [andb].
    + destruct (strongLocalMatch _ _ _) eqn:Es; cbn [negb].
      * rewrite bool_decide_eq_true_2; [done|]. split; [done|]. right. by apply Hs.
      * rewrite bool_decide_eq_false_2; [done|]. intros [_ [H|H]].
        -- apply H. apply Hu. lia.
        -- apply Hs in H. congruence.
    + rewrite bool_decide_eq_true_2; [done|]. split; [done|]. left.
      intros H. apply Hu in H. lia.
Qed.

Lemma insertByScore_withScore x l n :
  List.filter (fun y : NewsItem * nat => (snd y =? n)%nat) (insertByScore x l)
  = if (snd x =? n)%nat then x :: List.filter (fun y => (snd y =? n)%nat) l
    else List.filter (fun y => (snd y =? n)%nat) l.
Proof.
  induction l as [|a l IH]; cbn [insertByScore List.filter]; [done|].
  destruct (Nat.ltb_spec (snd x) (snd a)) as [Hlt|Hge]; cbn [List.filter]; [|done].
  rewrite IH. destruct (Nat.eqb_spec (snd x) n) as [Ex|Ex]; [|done].
  rewrite (proj2 (Nat.eqb_neq (snd a) n)) by lia. done.
Qed.

(** The sort is stable: for each score, the entries of that score keep their
    order. *)
Lemma sortByScore_stable l n :
  List.filter (fun y : NewsItem * nat => (snd y =? n)%nat) (sortByScore l)
  = List.filter (fun y => (snd y =? n)%nat) l.
Proof.
  induction l as [|a l IH]; [done|].
  cbn [sortByScore fold_right]. fold (sortByScore l).
  rewrite insertByScore_withScore, IH. cbn [List.filter]. done.
Qed.

Lemma scored_remaining hotspot l :
  dropNull (map (scoreItem hotspot) l)
  = map (fun i => (i, matchCount hotspot i))
      (List.filter (fun i => bool_decide (remains hotspot i)) l).
Proof.
  induction l as [|i l IH]; [done|]. cbn [map List.filter].
  rewrite scoreItem_remains. destruct (bool_decide (remains hotspot i)); cbn [dropNull map].
  - by rewrite IH.
  - done.
Qed.

Lemma scored_count_fst hotspot (l : list (NewsItem * nat)) n :
  (forall y, In y l -> snd y = matchCount hotspot (fst y)) ->
  withCount hotspot n (map fst l)
  = map fst (List.filter (fun y => (snd y =? n)%nat) l).
Proof.
  unfold withCount. induction l as [|y l IH]; intros H; [done|].
  cbn [map List.filter]. rewrite <- (H y) by (by left).
  rewrite IH by (intros z Hz; apply H; by right).
  by destruct (snd y =? n)%nat.
Qed.

(** What [getRelatedNews] returns: the first five of the remaining matches in
    the stable descending order of their match count. *)
Lemma getRelatedNews_top5 m hotspot :
  exists s,
    getRelatedNews m hotspot = firstn 5 s
    /\ StronglySorted (fun a b => (matchCount hotspot b <= matchCount hotspot a)%nat) s
    /\ forall n, withCount hotspot n s
                 = withCount hotspot n
                     (List.filter (fun i => bool_decide (remains hotspot i)) (news m)).
Proof.
  set (scored := dropNull (map (scoreItem hotspot) (news m))).
  assert (Hsc : forall y, In y (sortByScore scored) -> snd y = matchCount hotspot (fst y)).
  { intros y Hy. apply (proj1 (sortByScore_In _ _)) in Hy. unfold scored in Hy.
    rewrite scored_remaining in Hy. apply in_map_iff in Hy as (i & <- & _). done. }
  exists (map fst (sortByScore scored)). split; [|split].
  - unfold getRelatedNews. fold scored. by rewrite firstn_map.
  - pose proof (sortByScore_sorted scored) as Hs.
    induction (sortByScore scored) as [|y l IH]; cbn [map]; [constructor|].
    apply StronglySorted_inv in Hs as [Hl Hy]. constructor.
    + apply IH; [|done]. intros z Hz. apply Hsc. by right.
    + rewrite List.Forall_forall in *. intros b Hb.
      apply in_map_iff in Hb as (z & <- & Hz). specialize (Hy z Hz).
      unfold byScore in Hy. rewrite <- (Hsc y) by (by left).
      rewrite <- (Hsc z) by (by right). done.
  - intros n. rewrite (scored_count_fst hotspot (sortByScore scored) n Hsc).
    rewrite sortByScore_stable. unfold scored. rewrite scored_remaining.
    rewrite <- (scored_count_fst hotspot).
    + by rewrite map_map, map_id.
    + intros y Hy. apply in_map_iff in Hy as (i & <- & _). done.
Qed.

(** C4, as the code has it.  An item whose title matches a keyword of the
    hotspot and mentions a conflict topic that no keyword of the hotspot
    covers, with no matched keyword equal to the hotspot's name and no listed
    agency in the title, is not returned by [getRelatedNews]; what is returned
    are items of the corpus matching at least one keyword, in descending order
    of match count, at most five of them: the first five of the matches the
    rule leaves, taken in descending order of match count, matches of equal
    count in the order of the corpus.  For [dc] the item "Gaza ceasefire talks
    stall as Pentagon briefs allies" is returned, because Pentagon is a listed
    agency of [dc] and occurs in the title; the same hotspot without its
    agencies does exclude it. *)
Theorem related_news_rule m hotspot :
  (forall item,
     (exists kw, In kw (keywords hotspot)
                 /\ includes (toLowerCase (title item)) (toLowerCase kw) = true) ->
     (exists t, In t conflictTopics
                /\ includes (toLowerCase (title item)) t = true
                /\ forall k, In k (keywords hotspot) -> includes (toLowerCase k) t = false) ->
     (forall kw, In kw (keywords hotspot) ->
                 includes (toLowerCase (title item)) (toLowerCase kw) = true ->
                 toLowerCase kw <> toLowerCase (hs_name hotspot)) ->
     (forall ags a, agencies hotspot = Some ags -> In a ags ->
                    includes (toLowerCase (title item)) (toLowerCase a) = false) ->
     ~ In item (getRelatedNews m hotspot))
  /\ StronglySorted (fun a b => (matchCount hotspot b <= matchCount hotspot a)%nat)
       (getRelatedNews m hotspot)
  /\ (length (getRelatedNews m hotspot) <= 5)%nat
  /\ (forall item, In item (getRelatedNews m hotspot) ->
        In item (news m) /\ (1 <= matchCount hotspot item)%nat)
  /\ (exists s,
        getRelatedNews m hotspot = firstn 5 s
        /\ StronglySorted (fun a b => (matchCount hotspot b <= matchCount hotspot a)%nat) s
        /\ forall n, withCount hotspot n s
                     = withCount hotspot n
                         (List.filter (fun i => bool_decide (remains hotspot i)) (news m)))
  /\ agencyInTitle Geo.dc (toLowerCase (title Scenarios.gaza_item)) = true
  /\ getRelatedNews {| news := [Scenarios.gaza_item]; hotspots := [Geo.dc] |} Geo.dc
     = [Scenarios.gaza_item]
  /\ getRelatedNews {| news := [Scenarios.gaza_item];
                       hotspots := [Scenarios.dc_without_agencies] |}
       Scenarios.dc_without_agencies = [].
Proof.
  split.
  { intros item H1 H2 H3 H4 Hin.
    apply getRelatedNews_In in Hin as [_ [n Hn]].
    by rewrite (scoreItem_excluded hotspot item H1 H2 H3 H4) in Hn. }
  split; [apply getRelatedNews_sorted|].
  split.
  { unfold getRelatedNews. rewrite length_map. apply firstn_le. }
  split.
  { intros item Hin. apply getRelatedNews_In in Hin as [Hnews [n Hn]].
    split; [done|]. apply scoreItem_Some in Hn as (_ & <- & Hn). done. }
  split; [apply getRelatedNews_top5|].
  split; [vm_compute; reflexivity|].
  split; vm_compute; reflexivity.
Qed.

Lemma related_news_rule_witness :
  ~ In Scenarios.gaza_item
      (getRelatedNews {| news := [Scenarios.gaza_item];
                         hotspots := [Scenarios.dc_without_agencies] |}
         Scenarios.dc_without_agencies).
Proof.
  apply (proj1 (related_news_rule
                  {| news := [Scenarios.gaza_item];
                     hotspots := [Scenarios.dc_without_agencies] |}
                  Scenarios.dc_without_agencies)).
  - exists "pentagon"%string. split; [by left | vm_compute; reflexivity].
  - exists "gaza"%string. split; [by left|]. split; [vm_compute; reflexivity|].
    intros k Hk. simpl in Hk.
    repeat (destruct Hk as [<-|Hk]; [vm_compute; reflexivity|]). destruct Hk.
  - intros kw Hkw Hm E. simpl in Hkw.
    repeat (destruct Hkw as [<-|Hkw]; [vm_compute in E; discriminate E|]). destruct Hkw.
  - intros ags a E. discriminate E.
Defined.

(** C4 as stated fails at its own example: the title matches the keyword
    "pentagon", mentions "gaza", which no keyword of [dc] covers, and is
    returned all the same. *)
Lemma dc_gaza_item_not_excluded :
  matchKeywords Geo.dc (toLowerCase (title Scenarios.gaza_item)) = ["pentagon"%string]
  /\ conflictMatches Geo.dc (toLowerCase (title Scenarios.gaza_item)) = ["gaza"%string]
  /\ In Scenarios.gaza_item
        (getRelatedNews {| news := [Scenarios.gaza_item]; hotspots := [Geo.dc] |} Geo.dc).
Proof.
  split; [vm_compute; reflexivity|].
  split; [vm_compute; reflexivity|].
  vm_compute. left. reflexivity.
Qed.

(** * Further properties of the detector *)

(** ** Every candidate is stamped, typed and confident *)

Ltac q_arith :=
  unfold Qdiv in *;
  change (/ 20)%Q with (1 # 20)%Q in *;
  change (/ 10)%Q with (1 # 10)%Q in *;
  lra.

Lemma predictionStep_builtAt now prev topics r pred :
  extends (fun _ s => builtAt now s) now r (predictionStep now prev topics r pred).
Proof.
  unfold predictionStep. step_cases.
  match goal with H : geb _ PREDICTION_SHIFT_THRESHOLD = true |- _ =>
    unfold geb, PREDICTION_SHIFT_THRESHOLD in H; apply Qle_bool_iff in H; rename H into Hs end.
  apply extends_push; [fresh_key|].
  split; [done|]. split; [done|].
  cbn [confidence predictionSignal velocitySignal]. unfold JS.min. split.
  - apply Q.min_glb; [by vm_compute | q_arith].
  - eapply Qle_trans; [apply Q.le_min_l | by vm_compute].
Qed.

Lemma velocityStep_builtAt now prev r entry :
  extends (fun _ s => builtAt now s) now r (velocityStep now prev r entry).
Proof.
  unfold velocityStep. destruct entry as [topic v]. step_cases.
  match goal with H : (gtb _ _ && _)%bool = true |- _ =>
    apply andb_true_iff in H as [Hv _] end.
  unfold gtb, NEWS_VELOCITY_THRESHOLD in Hv. apply negb_true_iff in Hv.
  apply not_true_iff_false in Hv. rewrite Qle_bool_iff in Hv. apply Qnot_le_lt in Hv.
  apply extends_push; [fresh_key|].
  split; [done|]. split; [done|].
  cbn [confidence predictionSignal velocitySignal]. unfold JS.min. split.
  - apply Q.min_glb; [by vm_compute | q_arith].
  - eapply Qle_trans; [apply Q.le_min_l | by vm_compute].
Qed.

Lemma divergenceStep_builtAt now topics r market :
  extends (fun _ s => builtAt now s) now r (divergenceStep now topics r market).
Proof.
  unfold divergenceStep. step_cases.
  match goal with H : geb _ MARKET_MOVE_THRESHOLD = true |- _ =>
    unfold geb, MARKET_MOVE_THRESHOLD in H; apply Qle_bool_iff in H; rename H into Hs end.
  apply extends_push; [fresh_key|].
  split; [done|]. split; [done|].
  cbn [confidence divergenceSignal]. unfold JS.min. split.
  - apply Q.min_glb; [by vm_compute | q_arith].
  - eapply Qle_trans; [apply Q.le_min_l | by vm_compute].
Qed.

Lemma convergenceStep_builtAt now r event :
  extends (fun _ s => builtAt now s) now r (convergenceStep now r event).
Proof.
  eapply extends_weaken; [|apply (convergenceStep_extends now [event]); by left].
  intros k s (e & _ & _ & -> & _ & Ht).
  split; [done|]. split; [done|]. split.
  - apply Qle_trans with (9 # 10)%Q; [by vm_compute | by apply convergence_confident].
  - simpl. unfold JS.min. apply Q.le_min_l.
Qed.

Lemma triangulationStep_builtAt now r event :
  extends (fun _ s => builtAt now s) now r (triangulationStep now r event).
Proof.
  unfold triangulationStep. step_cases.
  apply extends_push; [fresh_key|].
  split; [done|]. split; [done|]. simpl. split; by vm_compute.
Qed.

Lemma candidates_builtAt now prev keys tos events preds markets :
  Forall (fun ks => builtAt now (snd ks))
    (run_signals (candidates now prev keys tos events preds markets)).
Proof.
  unfold candidates.
  set (topics := extractTopics events).
  set (r0 := {| run_keys := keys; run_timeouts := tos; run_signals := [] |}).
  set (r1 := fold_left (predictionStep now prev topics) preds r0).
  set (r2 := fold_left (velocityStep now prev) topics r1).
  set (r3 := fold_left (divergenceStep now topics) markets r2).
  set (c := detectConvergence now (run_keys r3) (run_timeouts r3) events).
  set (t := detectTriangulation now (run_keys c) (run_timeouts c) events).
  cbn [run_signals].
  assert (H3 : extends (fun _ s => builtAt now s) now r0 r3).
  { apply extends_trans with r2; [apply extends_trans with r1|];
      apply extends_fold; intros.
    - apply predictionStep_builtAt.
    - apply velocityStep_builtAt.
    - apply divergenceStep_builtAt. }
  assert (Hc : extends (fun _ s => builtAt now s) now
                 {| run_keys := run_keys r3; run_timeouts := run_timeouts r3;
                    run_signals := [] |} c).
  { apply extends_fold. intros. apply convergenceStep_builtAt. }
  assert (Ht : extends (fun _ s => builtAt now s) now
                 {| run_keys := run_keys c; run_timeouts := run_timeouts c;
                    run_signals := [] |} t).
  { apply extends_fold. intros. apply triangulationStep_builtAt. }
  destruct H3 as (n3 & S3 & _ & _ & _ & _ & P3).
  destruct Hc as (nc & Sc & _ & _ & _ & _ & Pc).
  destruct Ht as (nt & St & _ & _ & _ & _ & Pt).
  simpl in S3, Sc, St. rewrite S3, Sc, St.
  apply Forall_app. split; [done|]. apply Forall_app. by split.
Qed.

Lemma pushed_builtAt now events preds markets d :
  Forall (fun ks => builtAt now (snd ks))
    (pushed (analyzeCorrelations now events preds markets d)).
Proof.
  unfold analyzeCorrelations. destruct (previousSnapshot d) as [prev|]; simpl.
  - apply candidates_builtAt.
  - constructor.
Qed.

Lemma returned_builtAt now events preds markets d s :
  In s (returned (analyzeCorrelations now events preds markets d)) -> builtAt now s.
Proof.
  intros H. apply returned_incl_pushed in H. apply in_map_iff in H as [ks [<- Hks]].
  pose proof (pushed_builtAt now events preds markets d) as HF.
  rewrite List.Forall_forall in HF. by apply HF.
Qed.

Lemma highConfidence_id l :
  Forall (fun s => (6 # 10 <= confidence s)%Q) l -> highConfidence l = l.
Proof.
  unfold highConfidence. induction 1 as [|x l Hx _ IH]; simpl; [done|].
  destruct (geb (confidence x) (6 # 10)) eqn:E; [by rewrite IH|].
  unfold geb in E. rewrite (proj2 (Qle_bool_iff _ _) Hx) in E. discriminate E.
Qed.

(** X1. Every signal the five detectors push has a confidence between 0.6
    and 0.95, so the confidence filter at the end of [analyzeCorrelations]
    removes nothing: what is returned is exactly the first pushed signal of
    each type. *)
Theorem confidence_floor_never_drops now events predictions markets d :
  let o := analyzeCorrelations now events predictions markets d in
  Forall (fun ks => (6 # 10 <= confidence (snd ks))%Q /\ (confidence (snd ks) <= 95 # 100)%Q)
    (pushed o)
  /\ returned o = uniqueSignals (map snd (pushed o)).
Proof.
  intros o. pose proof (pushed_builtAt now events predictions markets d) as HF.
  fold o in HF. split.
  - eapply Forall_impl; [exact HF|]. intros ks (_ & _ & H). exact H.
  - subst o. unfold analyzeCorrelations in *.
    destruct (previousSnapshot d) as [prev|]; [|done]. cbn [returned pushed] in *.
    apply highConfidence_id. apply List.Forall_forall. intros s Hs.
    rewrite uniqueSignals_eq in Hs. apply keepFirst_incl in Hs.
    apply in_map_iff in Hs as [ks [<- Hks]].
    rewrite List.Forall_forall in HF. by apply HF.
Qed.

(** X2. One call returns at most five signals, each stamped with the time
    of the call, and never one of type [news_leads_markets]: no detector
    builds that type. *)
Theorem returned_at_most_five now events predictions markets d :
  let o := analyzeCorrelations now events predictions markets d in
  (length (returned o) <= 5)%nat
  /\ Forall (fun s => sig_timestamp s = now /\ type s <> news_leads_markets) (returned o).
Proof.
  intros o.
  assert (HB : forall s, In s (returned o) -> builtAt now s)
    by (intros s; apply returned_builtAt).
  split.
  - assert (Hnd : NoDup (map type (returned o))).
    { subst o. unfold analyzeCorrelations. destruct (previousSnapshot d); simpl.
      - apply highConfidence_NoDup. rewrite uniqueSignals_eq. apply keepFirst_NoDup.
      - constructor. }
    rewrite <- (length_map type).
    change 5%nat with (length [prediction_leads_news; silent_divergence; velocity_spike;
                               convergence; triangulation]).
    apply List.NoDup_incl_length; [by apply NoDup_ListNoDup|].
    intros t Ht. apply in_map_iff in Ht as [s [<- Hs]].
    destruct (HB s Hs) as (_ & Hne & _).
    destruct (type s); simpl; tauto.
  - apply List.Forall_forall. intros s Hs. destruct (HB s Hs) as (H1 & H2 & _). done.
Qed.

(** ** The signal history *)

Lemma trimHistory_drop h : trimHistory h = drop (length h - 100) h.
Proof.
  induction h as [|x h IH]; [done|].
  cbn [trimHistory]. destruct (Nat.ltb_spec 100 (length (x :: h))) as [Hlt|Hge].
  - rewrite IH. simpl in Hlt. simpl length.
    replace (S (length h) - 100)%nat with (S (length h - 100)) by lia. done.
  - replace (length (x :: h) - 100)%nat with 0%nat by lia. done.
Qed.

(** X3. [addToSignalHistory] leaves at most 100 signals: the last 100 of the
    old history followed by the new signals, in order.  Nothing is lost while
    the total stays within 100, and up to 100 new signals always survive, at
    the end. *)
Theorem history_keeps_latest signals history :
  let h := addToSignalHistory signals history in
  (length h <= 100)%nat
  /\ h = drop (length (history ++ signals) - 100) (history ++ signals)
  /\ ((length history + length signals <= 100)%nat -> h = history ++ signals)
  /\ ((length signals <= 100)%nat -> exists older, h = older ++ signals).
Proof.
  intros h. subst h. unfold addToSignalHistory. rewrite trimHistory_drop.
  split; [rewrite length_drop; lia|]. split; [done|]. split.
  - intros H. rewrite length_app. by replace (length history + length signals - 100)%nat
      with 0%nat by lia.
  - intros H. rewrite length_app.
    exists (drop (length history + length signals - 100) history).
    rewrite drop_app.
    replace (length history + length signals - 100 - length history)%nat with 0%nat by lia.
    done.
Qed.

Lemma history_keeps_latest_witness :
  (length Scenarios.fresh_signals <= 100)%nat
  /\ exists older,
       addToSignalHistory Scenarios.fresh_signals Scenarios.old_history
       = older ++ Scenarios.fresh_signals.
Proof.
  assert (H : (length Scenarios.fresh_signals <= 100)%nat) by (simpl; lia).
  split; [exact H|].
  exact (proj2 (proj2 (proj2
    (history_keeps_latest Scenarios.fresh_signals Scenarios.old_history))) H).
Defined.

(** X4. One run of [runCorrelationAnalysis] hands the detector the clusters
    (clustering the news first when there are none), appends what the detector
    returns to the history and shows it in the modal.  Every returned signal
    is then reported by [getRecentSignals] at any time less than 30 minutes
    after the run; the modal's pending count grows by the number of returned
    signals; and a run that returns nothing leaves history and modal alone. *)
Theorem run_signals_stay_recent
    (clusterNews : list NewsItem -> list ClusteredEvent) now now' a :
  now' - now < WINDOW_MS ->
  let clusters := if (length (App.latestClusters a) =? 0)%nat
                  then clusterNews (App.allNews a) else App.latestClusters a in
  let o := analyzeCorrelations now clusters (App.latestPredictions a)
             (App.latestMarkets a) (App.detector a) in
  let a' := App.runCorrelationAnalysis clusterNews now a in
  App.detector a' = after o
  /\ (forall s, In s (returned o) ->
        In s (getRecentSignals now' (App.signalHistory a')))
  /\ (forall m, App.signalModal a = Some m ->
        exists m', App.signalModal a' = Some m'
                   /\ SignalModal.pendingCount m'
                      = SignalModal.pendingCount m + Z.of_nat (length (returned o)))
  /\ (returned o = [] ->
        App.signalHistory a' = App.signalHistory a
        /\ App.signalModal a' = App.signalModal a).
Proof.
  intros Hwin clusters o a'. subst a'. unfold App.runCorrelationAnalysis.
  fold clusters. fold o. cbn [App.detector App.signalHistory App.signalModal].
  split; [done|]. split; [|split].
  - intros s Hs.
    assert (Hpos : (0 <? length (returned o))%nat = true).
    { apply Nat.ltb_lt. destruct (returned o); [done | simpl; lia]. }
    rewrite Hpos. unfold getRecentSignals. apply filter_In. split.
    + destruct (history_keeps_latest (returned o) (App.signalHistory a))
        as (_ & _ & _ & Hkeep).
      destruct Hkeep as [older ->].
      * pose proof (returned_at_most_five now clusters (App.latestPredictions a)
                      (App.latestMarkets a) (App.detector a)) as [H5 _].
        fold o in H5. lia.
      * apply in_app_iff. by right.
    + apply returned_builtAt in Hs as (-> & _). apply Z.ltb_lt.
      unfold WINDOW_MS in Hwin. lia.
  - intros m Hm. rewrite Hm. destruct (returned o) as [|x l] eqn:E.
    + exists m. split; [done|]. simpl. lia.
    + cbn [length Nat.ltb Nat.leb]. eexists. split; [done|].
      unfold SignalModal.show. cbn [length Nat.eqb SignalModal.pendingCount]. done.
  - intros E. rewrite E. done.
Qed.

Lemma run_signals_stay_recent_witness :
  3000 - 2000 < WINDOW_MS
  /\ forall s,
       In s (returned (analyzeCorrelations 2000 [] [Scenarios.fed 47] []
                         (Scenarios.warmed 40))) ->
       In s (getRecentSignals 3000
               (App.signalHistory
                  (App.runCorrelationAnalysis (fun _ => []) 2000 Scenarios.shell))).
Proof.
  assert (H : 3000 - 2000 < WINDOW_MS) by (vm_compute; reflexivity).
  split; [exact H|].
  exact (proj1 (proj2 (run_signals_stay_recent (fun _ => []) 2000 3000 Scenarios.shell H))).
Defined.

(** ** Substrings *)

Lemma startsWith_iff p s :
  startsWith p s = true <-> exists b, s = (p ++ b)%string.
Proof.
  revert s. induction p as [|a p IH]; intros s; simpl.
  - split; [intros _; by exists s | done].
  - destruct s as [|c s].
    + split; [done | intros [b Hb]; discriminate Hb].
    + destruct (Ascii.eqb_spec a c) as [->|Hne].
      * rewrite IH. split; intros [b Hb]; exists b.
        -- simpl. by rewrite Hb.
        -- simpl in Hb. by injection Hb.
      * split; [done|]. intros [b Hb]. simpl in Hb. injection Hb as E _.
        exfalso. apply Hne. by symmetry.
Qed.

Lemma includes_iff s p :
  includes s p = true <-> exists a b, s = (a ++ p ++ b)%string.
Proof.
  induction s as [|c s IH].
  - simpl. destruct (startsWith p "") eqn:E.
    + split; [|done]. intros _. apply startsWith_iff in E as [b Hb].
      by exists ""%string, b.
    + split; [done|]. intros (a & b & Hab). apply not_true_iff_false in E.
      exfalso. apply E. apply startsWith_iff. destruct a; [|discriminate Hab].
      by exists b.
  - cbn [includes]. destruct (startsWith p (String c s)) eqn:E.
    + split; [|done]. intros _. apply startsWith_iff in E as [b Hb].
      by exists ""%string, b.
    + rewrite IH. split.
      * intros (a & b & ->). by exists (String c a), b.
      * intros (a & b & Hab). destruct a as [|c' a].
        -- exfalso. apply not_true_iff_false in E. apply E.
           apply startsWith_iff. by exists b.
        -- simpl in Hab. injection Hab as _ ->. by exists a, b.
Qed.

Lemma append_cons x (a b : string) : (String x a ++ b = String x (a ++ b))%string.
Proof. reflexivity. Qed.

Lemma string_app_assoc (a b c : string) : ((a ++ b) ++ c = a ++ (b ++ c))%string.
Proof.
  induction a as [|x a IH]; [reflexivity|].
  rewrite !append_cons. by f_equal.
Qed.

(** A substring of a substring is a substring. *)
Lemma includes_trans s p q :
  includes s p = true -> includes p q = true -> includes s q = true.
Proof.
  rewrite !includes_iff. intros (a & b & ->) (a' & b' & ->).
  exists (a ++ a')%string, (b' ++ b)%string. by rewrite !string_app_assoc.
Qed.

(** ** [Map] as an association list *)

Lemma map_get_set m k v k' :
  map_get (map_set m k v) k' = if String.eqb k k' then Some v else map_get m k'.
Proof.
  induction m as [|[k0 v0] m IH]; simpl.
  - done.
  - destruct (String.eqb_spec k0 k) as [->|Hne]; simpl.
    + by destruct (String.eqb_spec k k').
    + destruct (String.eqb_spec k0 k') as [->|Hne'].
      * by rewrite (proj2 (String.eqb_neq k k')).
      * done.
Qed.

Lemma map_set_keys m k v k' :
  In k' (map fst (map_set m k v)) <-> k' = k \/ In k' (map fst m).
Proof.
  induction m as [|[k0 v0] m IH]; simpl; [intuition|].
  destruct (String.eqb_spec k0 k) as [->|Hne]; simpl; [intuition|].
  rewrite IH. intuition.
Qed.



(** ** Topic extraction *)

Lemma extractTopics_fold events : extractTopics events = fold_left addEvent events [].
Proof. unfold extractTopics, addEvent, addTopic. cbv beta zeta. reflexivity. Qed.





Lemma addTopics_keys e kws m k :
  In k (map fst (fold_left (addTopic e) kws m))
  <-> In k (map fst m) \/ (In k kws /\ mentions k e = true).
Proof.
  revert m. induction kws as [|kw kws IH]; intros m; [simpl; tauto|].
  cbn [fold_left]. rewrite IH.
  assert (Hk : In k (map fst (addTopic e m kw))
               <-> In k (map fst m) \/ (k = kw /\ mentions k e = true)).
  { unfold addTopic, mentions.
    destruct (includes (toLowerCase (primaryTitle e)) kw) eqn:E.
    - rewrite map_set_keys. split; [intros [->|H]; auto | intros [H|[-> _]]; auto].
    - split; [auto|]. intros [H|[-> H]]; [done | congruence]. }
  rewrite Hk. simpl. split.
  - intros [[H|[-> H]]|[H1 H2]]; auto.
  - intros [H|[[<-|H1] H2]]; auto.
Qed.





Lemma fold_left_keys {A} (f : JMap -> A -> JMap) (P : A -> Prop) k :
  (forall m e, In k (map fst (f m e)) <-> In k (map fst m) \/ P e) ->
  forall l m,
    In k (map fst (fold_left f l m))
    <-> In k (map fst m) \/ exists e, In e l /\ P e.
Proof.
  intros Hf. induction l as [|e l IH]; intros m; cbn [fold_left].
  - split; [tauto|]. intros [H|[e [[] _]]]. done.
  - rewrite IH, Hf. split.
    + intros [[H|H]|[e' [H2 H3]]].
      * by left.
      * right. exists e. split; [by left | done].
      * right. exists e'. split; [by right | done].
    + intros [H|[e' [[->|H2] H3]]].
      * left. by left.
      * left. by right.
      * right. by exists e'.
Qed.


Lemma addEvent_keys m e k :
  In k (map fst (addEvent m e))
  <-> In k (map fst m) \/ (In k topic_keywords /\ mentions k e = true).
Proof. exact (addTopics_keys e topic_keywords m k). Qed.


Lemma addEvents_keys events m k :
  In k (map fst (fold_left addEvent events m))
  <-> In k (map fst m)
      \/ (In k topic_keywords /\ exists e, In e events /\ mentions k e = true).
Proof.
  rewrite (fold_left_keys addEvent
             (fun e => In k topic_keywords /\ mentions k e = true) k
             (fun m e => addEvent_keys m e k) events m).
  split.
  - intros [H|[e [H1 [H2 H3]]]]; [by left|]. right. split; [done|]. by exists e.
  - intros [H|[H1 [e [H2 H3]]]]; [by left|]. right. by exists e.
Qed.




(** X6. Keywords are matched as substrings, so a cluster whose title mentions
    Ukraine or Taiwan also counts for the topic "ai". *)
Theorem ukraine_taiwan_count_as_ai events e :
  In e events ->
  mentions "ukraine" e = true \/ mentions "taiwan" e = true ->
  In "ai"%string (map fst (extractTopics events))
  /\ In e (List.filter (mentions "ai") events).
Proof.
  intros He Hm.
  assert (Hai : mentions "ai" e = true).
  { unfold mentions in *. destruct Hm as [Hm|Hm];
      (eapply includes_trans; [exact Hm | vm_compute; reflexivity]). }
  split.
  - rewrite extractTopics_fold. apply addEvents_keys. right.
    split; [vm_compute; tauto|]. by exists e.
  - apply filter_In. by split.
Qed.

Lemma ukraine_taiwan_count_as_ai_witness :
  In "ai"%string
     (map fst (extractTopics [Scenarios.cluster "Ukraine talks resume" 2 ["Reuters"]])).
Proof.
  apply (ukraine_taiwan_count_as_ai
           [Scenarios.cluster "Ukraine talks resume" 2 ["Reuters"]]
           (Scenarios.cluster "Ukraine talks resume" 2 ["Reuters"])).
  - by left.
  - left. vm_compute. reflexivity.
Defined.

(** ** How long a dedupe key lives *)

(** X7. A key under which a call pushed a signal is in the set at every
    moment before the call's time plus thirty minutes, and is gone once the
    timers due at that time or later have run. *)
Theorem dedupe_key_lives_thirty_minutes d now events predictions markets upto k s :
  reachable d ->
  let o := analyzeCorrelations now events predictions markets d in
  In (k, s) (pushed o) ->
  (k ∈ recentSignalKeys (fireTimeouts upto (after o)) <-> upto < now + WINDOW_MS).
Proof.
  intros Hreach o Hks.
  assert (Hk : In k (map fst (pushed o))) by (apply in_map_iff; by exists (k, s)).
  split.
  - intros Hin. destruct (Z.lt_ge_cases upto (now + WINDOW_MS)) as [?|Hge]; [done|].
    exfalso. revert Hin. unfold fireTimeouts. cbn [recentSignalKeys].
    rewrite fold_left_difference, elem_of_difference.
    intros [_ Hnot]. apply Hnot.
    rewrite elem_of_list_to_set, list_elem_of_In.
    apply in_map_iff. exists (now + WINDOW_MS, k). split; [done|].
    apply filter_In. split; [|by apply Z.leb_le].
    destruct (analyze_bookkeeping now events predictions markets d) as (_ & T & _ & _).
    fold o in T. rewrite T, in_app_iff. right.
    apply in_map_iff. by exists (k, s).
  - intros Hlt. apply pushed_key_survives; [by apply reachable_wf | done | done].
Qed.

Lemma dedupe_key_lives_thirty_minutes_witness :
  ("prediction_leads_news:Will the Fed cut rates in March:7"%string
     ∈ recentSignalKeys
         (fireTimeouts 3000
            (after (analyzeCorrelations 2000 [] [Scenarios.fed 47] []
                      (Scenarios.warmed 40))))
   <-> 3000 < 2000 + WINDOW_MS).
Proof.
  apply (dedupe_key_lives_thirty_minutes (Scenarios.warmed 40) 2000 [] [Scenarios.fed 47] []
           3000 "prediction_leads_news:Will the Fed cut rates in March:7"%string
           (predictionSignal 2000 (Scenarios.fed 47) (abs (47 - 40)) 0
              (findRelatedTopics (pm_title (Scenarios.fed 47))))).
  - apply reach_call, reach_initial.
  - vm_compute. left. reflexivity.
Defined.

(** ** What each loop pushes, and when *)

Lemma geb_true x y : geb x y = true <-> (y <= x)%Q.
Proof. unfold geb. apply Qle_bool_iff. Qed.

Lemma ltb_true x y : ltb x y = true <-> (x < y)%Q.
Proof.
  unfold ltb. rewrite negb_true_iff, <- not_true_iff_false, Qle_bool_iff.
  split; [apply Qnot_le_lt | apply Qlt_not_le].
Qed.

Lemma gtb_true x y : gtb x y = true <-> (y < x)%Q.
Proof.
  unfold gtb. rewrite negb_true_iff, <- not_true_iff_false, Qle_bool_iff.
  split; [apply Qnot_le_lt | apply Qlt_not_le].
Qed.

Lemma predictionStep_from now prev topics preds r pred :
  In pred preds ->
  extends (fromPrediction now prev topics preds) now r (predictionStep now prev topics r pred).
Proof.
  intros Hin. unfold predictionStep. step_cases.
  match goal with H : (_ && _)%bool = true |- _ => apply andb_true_iff in H as [Ha Hk] end.
  apply negb_true_iff in Hk. apply extends_push; [done|].
  match goal with H : map_get _ _ = Some ?p |- _ => exists pred, p end.
  split; [done|]. split; [|done].
  split; [done|]. split; [by apply geb_true | by apply ltb_true].
Qed.

Lemma velocityStep_from now prev topics r entry :
  In entry topics ->
  extends (fromVelocity now prev topics) now r (velocityStep now prev r entry).
Proof.
  intros Hin. unfold velocityStep. destruct entry as [topic v]. step_cases.
  match goal with H : (_ && _)%bool = true |- _ => apply andb_true_iff in H as [Ha Hb] end.
  apply extends_push; [fresh_key|].
  exists topic, v. split; [done|]. split; [|done].
  split; by apply gtb_true.
Qed.

Lemma divergenceStep_from now topics markets r market :
  In market markets ->
  extends (fromDivergence now topics markets) now r (divergenceStep now topics r market).
Proof.
  intros Hin. unfold divergenceStep.
  destruct (change market) as [c|] eqn:Ec.
  - step_cases.
    match goal with H : (_ && _)%bool = true |- _ => apply andb_true_iff in H as [Ha Hk] end.
    apply negb_true_iff in Hk. apply extends_push; [done|].
    exists market, c. split; [done|]. split; [|done].
    split; [done|]. split; [by apply geb_true | by apply ltb_true].
  - assert (E : geb (abs 0) MARKET_MOVE_THRESHOLD = false) by (by vm_compute).
    rewrite E. apply extends_refl.
Qed.

Lemma typePresent_In e t :
  In t (typePresent e) <-> In t CRITICAL_TYPES /\ hasType t e.
Proof.
  unfold typePresent, hasType.
  rewrite uniq_In, filter_In, in_map_iff, bool_decide_eq_true, list_elem_of_In.
  split.
  - intros [[(i & E & Hi) Hc] _]. split; [done|]. by exists i.
  - intros [Hc (i & Hi & E)]. split; [|by intros []]. split; [by exists i | done].
Qed.

Lemma typePresent_three e :
  length (typePresent e) = 3%nat
  <-> hasType wire e /\ hasType gov e /\ hasType intel e.
Proof.
  assert (Hnd : List.NoDup (typePresent e)) by apply NoDup_ListNoDup, uniq_NoDup.
  assert (Hincl : incl (typePresent e) CRITICAL_TYPES).
  { intros t Ht. by apply typePresent_In in Ht as [Ht _]. }
  split.
  - intros Hlen.
    assert (Hall : incl CRITICAL_TYPES (typePresent e)).
    { apply List.NoDup_length_incl; [done | by rewrite Hlen | done]. }
    repeat split; apply (typePresent_In e); apply Hall; simpl; tauto.
  - intros (Hw & Hg & Hi).
    apply Nat.le_antisymm.
    + by apply (List.NoDup_incl_length Hnd) in Hincl.
    + apply (three_distinct _ wire gov intel); try done.
      * by apply NoDup_ListNoDup.
      * apply typePresent_In. split; [simpl; tauto | done].
      * apply typePresent_In. split; [simpl; tauto | done].
      * apply typePresent_In. split; [simpl; tauto | done].
Qed.

Lemma triangulationStep_from now events r event :
  In event events ->
  extends (fromTriangulation now events) now r (triangulationStep now r event).
Proof.
  intros Hin. unfold triangulationStep. step_cases.
  apply extends_push; [fresh_key|].
  exists event. split; [done|]. split; [|done].
  split.
  - match goal with H : (length (allItems _) <? 3)%nat = false |- _ =>
      by apply Nat.ltb_ge in H end.
  - apply typePresent_three.
    match goal with H : (length (typePresent _) =? 3)%nat = true |- _ =>
      by apply Nat.eqb_eq in H end.
Qed.

(** Each loop body pushes when its condition holds and the key is fresh. *)
Lemma predictionStep_fires now prev topics r pred p :
  shifted prev topics pred p -> predictionKey pred p ∉ run_keys r ->
  exists s, run_signals (predictionStep now prev topics r pred)
            = run_signals r ++ [(predictionKey pred p, s)].
Proof.
  intros (Hget & Hs & Ha) Hk. unfold predictionStep. rewrite Hget.
  rewrite (proj2 (geb_true _ _) Hs).
  fold (newsActivity topics pred). rewrite (proj2 (ltb_true _ _) Ha).
  unfold isRecentDuplicate. fold (predictionKey pred p).
  rewrite bool_decide_eq_false_2 by done. cbn [negb andb].
  eexists. reflexivity.
Qed.

Lemma velocityStep_fires now prev r topic v :
  spiking prev topic v -> generateDedupeKey velocity_spike topic v ∉ run_keys r ->
  exists s, run_signals (velocityStep now prev r (topic, v))
            = run_signals r ++ [(generateDedupeKey velocity_spike topic v, s)].
Proof.
  intros [H1 H2] Hk. unfold velocityStep.
  rewrite (proj2 (gtb_true _ _) H1), (proj2 (gtb_true _ _) H2).
  unfold isRecentDuplicate. rewrite bool_decide_eq_false_2 by done. cbn [negb andb].
  eexists. reflexivity.
Qed.

Lemma divergenceStep_fires now topics r market c :
  diverging topics market c ->
  generateDedupeKey silent_divergence (symbol market) (abs c) ∉ run_keys r ->
  exists s, run_signals (divergenceStep now topics r market)
            = run_signals r ++ [(generateDedupeKey silent_divergence (symbol market) (abs c), s)].
Proof.
  intros (Hc & Hs & Hn) Hk. unfold divergenceStep. rewrite Hc.
  rewrite (proj2 (geb_true _ _) Hs).
  fold (relatedNews topics market). rewrite (proj2 (ltb_true _ _) Hn).
  unfold isRecentDuplicate. rewrite bool_decide_eq_false_2 by done. cbn [negb andb].
  eexists. reflexivity.
Qed.

Lemma triangulationStep_fires now r e :
  triangulated e -> triangulationKey e ∉ run_keys r ->
  exists s, run_signals (triangulationStep now r e)
            = run_signals r ++ [(triangulationKey e, s)].
Proof.
  intros (Hlen & Hty) Hk. unfold triangulationStep.
  rewrite (proj2 (Nat.ltb_ge _ _) Hlen).
  rewrite (proj2 (Nat.eqb_eq _ _) (proj2 (typePresent_three e) Hty)).
  unfold isRecentDuplicate. rewrite bool_decide_eq_false_2 by done. cbn [negb].
  eexists. reflexivity.
Qed.

(** A loop whose body pushes at [a] under a fresh key [k] leaves the array
    longer than it found it, when [k] was fresh at the start: either the body
    pushes at [a], or an earlier pass marked [k], and then it pushed. *)
Lemma fold_left_fires {A} P now (step : Run -> A -> Run) (l : list A) a k :
  (forall r x, extends P now r (step r x)) ->
  (forall r, k ∉ run_keys r -> exists s, run_signals (step r a) = run_signals r ++ [(k, s)]) ->
  In a l ->
  forall r, k ∉ run_keys r ->
    (length (run_signals r) < length (run_signals (fold_left step l r)))%nat.
Proof.
  intros Hext Hfire Hin r0 Hk0.
  assert (Hmono : forall l r, (length (run_signals r)
                               <= length (run_signals (fold_left step l r)))%nat).
  { intros l' r. destruct (extends_fold P now step l') with (r := r) as (n & S1 & _).
    - intros. apply Hext.
    - rewrite S1, length_app. lia. }
  assert (Hgen : forall r,
            (length (run_signals r0) <= length (run_signals r))%nat ->
            (k ∈ run_keys r -> (length (run_signals r0) < length (run_signals r))%nat) ->
            (length (run_signals r0) < length (run_signals (fold_left step l r)))%nat).
  { clear Hk0. generalize (length (run_signals r0)). intros n.
    induction l as [|x l IH]; [done|]. intros r Hle Hinv. cbn [fold_left].
    destruct (Hext r x) as (new & S1 & K1 & _).
    destruct Hin as [->|Hin].
    - eapply Nat.lt_le_trans; [|apply Hmono].
      destruct (decide (k ∈ run_keys r)) as [Hk|Hk].
      + specialize (Hinv Hk). rewrite S1, length_app. lia.
      + destruct (Hfire r Hk) as [s ->]. rewrite length_app. simpl. lia.
    - apply IH; [done| |].
      + rewrite S1, length_app. lia.
      + rewrite K1, elem_of_union, elem_of_list_to_set, list_elem_of_In.
        intros [Hk|Hk].
        * specialize (Hinv Hk). rewrite S1, length_app. lia.
        * rewrite S1, length_app. destruct new; [done|]. simpl. lia. }
  apply Hgen; [done|]. intros Hk. done.
Qed.

Lemma fromPrediction_type now prev topics preds k s :
  fromPrediction now prev topics preds k s ->
  type s = prediction_leads_news
  /\ exists i v, k = generateDedupeKey prediction_leads_news i v.
Proof. intros (pred & p & _ & _ & -> & ->). split; [done|]. unfold predictionKey. eauto. Qed.

Lemma fromVelocity_type now prev topics k s :
  fromVelocity now prev topics k s ->
  type s = velocity_spike /\ exists i v, k = generateDedupeKey velocity_spike i v.
Proof. intros (topic & v & _ & _ & -> & ->). split; [done|]. eauto. Qed.

Lemma fromDivergence_type now topics markets k s :
  fromDivergence now topics markets k s ->
  type s = silent_divergence /\ exists i v, k = generateDedupeKey silent_divergence i v.
Proof. intros (market & c & _ & _ & -> & ->). split; [done|]. eauto. Qed.

Lemma fromConvergence_type now events k s :
  fromConvergence now events k s ->
  type s = convergence /\ exists i v, k = generateDedupeKey convergence i v.
Proof. intros (e & _ & -> & -> & _). split; [done|]. unfold convergenceKey. eauto. Qed.

Lemma fromTriangulation_type now events k s :
  fromTriangulation now events k s ->
  type s = triangulation /\ exists i v, k = generateDedupeKey triangulation i v.
Proof. intros (e & _ & _ & -> & ->). split; [done|]. unfold triangulationKey. eauto. Qed.

(** Pushes under keys of other types leave a key fresh. *)
Lemma fresh_through P now r r' t t' i v :
  extends P now r r' ->
  (forall k s, P k s -> exists i' v', k = generateDedupeKey t' i' v') ->
  t' <> t ->
  generateDedupeKey t i v ∉ run_keys r -> generateDedupeKey t i v ∉ run_keys r'.
Proof.
  intros (n & _ & K & _ & _ & _ & HP) Hkey Hne Hk.
  rewrite K, elem_of_union, elem_of_list_to_set, list_elem_of_In.
  intros [H|H]; [done|]. apply in_map_iff in H as [[k s] [E Hks]]. simpl in E.
  rewrite List.Forall_forall in HP. destruct (Hkey _ _ (HP _ Hks)) as (i' & v' & Ek).
  simpl in Ek. rewrite Ek in E. apply generateDedupeKey_type in E. by apply Hne.
Qed.

Lemma grown_nonempty {A} (l new : list A) :
  (length l < length (l ++ new))%nat -> new <> [].
Proof. intros H ->. rewrite app_nil_r in H. lia. Qed.

(** The [signals] array of one call, loop by loop: what each part holds, and
    when a part is not empty. *)
Lemma candidates_detail now prev keys tos events preds markets :
  let topics := extractTopics events in
  exists n1 n2 n3 nc nt,
    run_signals (candidates now prev keys tos events preds markets)
    = n1 ++ n2 ++ n3 ++ nc ++ nt
    /\ Forall (fun ks => fromPrediction now prev topics preds (fst ks) (snd ks)) n1
    /\ Forall (fun ks => fromVelocity now prev topics (fst ks) (snd ks)) n2
    /\ Forall (fun ks => fromDivergence now topics markets (fst ks) (snd ks)) n3
    /\ Forall (fun ks => fromConvergence now events (fst ks) (snd ks)) nc
    /\ Forall (fun ks => fromTriangulation now events (fst ks) (snd ks)) nt
    /\ (forall pred p, In pred preds -> shifted prev topics pred p ->
          predictionKey pred p ∉ keys -> n1 <> [])
    /\ (forall topic v, In (topic, v) topics -> spiking prev topic v ->
          generateDedupeKey velocity_spike topic v ∉ keys -> n2 <> [])
    /\ (forall market c, In market markets -> diverging topics market c ->
          generateDedupeKey silent_divergence (symbol market) (abs c) ∉ keys -> n3 <> [])
    /\ (forall e, In e events -> triangulated e -> triangulationKey e ∉ keys -> nt <> []).
Proof.
  intros topics. unfold candidates. fold topics.
  set (r0 := {| run_keys := keys; run_timeouts := tos; run_signals := [] |}).
  set (r1 := fold_left (predictionStep now prev topics) preds r0).
  set (r2 := fold_left (velocityStep now prev) topics r1).
  set (r3 := fold_left (divergenceStep now topics) markets r2).
  set (c := detectConvergence now (run_keys r3) (run_timeouts r3) events).
  set (t := detectTriangulation now (run_keys c) (run_timeouts c) events).
  cbn [run_signals].
  assert (E1 : extends (fromPrediction now prev topics preds) now r0 r1).
  { apply extends_fold. intros. by apply predictionStep_from. }
  assert (E2 : extends (fromVelocity now prev topics) now r1 r2).
  { apply extends_fold. intros. by apply velocityStep_from. }
  assert (E3 : extends (fromDivergence now topics markets) now r2 r3).
  { apply extends_fold. intros. by apply divergenceStep_from. }
  assert (Ec : extends (fromConvergence now events) now
                 {| run_keys := run_keys r3; run_timeouts := run_timeouts r3;
                    run_signals := [] |} c).
  { apply extends_fold. intros. by apply convergenceStep_extends. }
  assert (Et : extends (fromTriangulation now events) now
                 {| run_keys := run_keys c; run_timeouts := run_timeouts c;
                    run_signals := [] |} t).
  { apply extends_fold. intros. by apply triangulationStep_from. }
  assert (K1 : forall ty i v, prediction_leads_news <> ty ->
             generateDedupeKey ty i v ∉ keys -> generateDedupeKey ty i v ∉ run_keys r1).
  { intros ty i v Hne Hk. apply (fresh_through _ _ _ _ ty prediction_leads_news i v E1); try done.
    intros k s H. by apply fromPrediction_type in H as [_ H]. }
  assert (K2 : forall ty i v, prediction_leads_news <> ty -> velocity_spike <> ty ->
             generateDedupeKey ty i v ∉ keys -> generateDedupeKey ty i v ∉ run_keys r2).
  { intros ty i v Hn1 Hn2 Hk. apply (fresh_through _ _ _ _ ty velocity_spike i v E2); try done.
    - intros k s H. by apply fromVelocity_type in H as [_ H].
    - by apply K1. }
  assert (K3 : forall ty i v, prediction_leads_news <> ty -> velocity_spike <> ty ->
             silent_divergence <> ty ->
             generateDedupeKey ty i v ∉ keys -> generateDedupeKey ty i v ∉ run_keys r3).
  { intros ty i v Hn1 Hn2 Hn3 Hk. apply (fresh_through _ _ _ _ ty silent_divergence i v E3); try done.
    - intros k s H. by apply fromDivergence_type in H as [_ H].
    - by apply K2. }
  assert (Kc : forall ty i v, prediction_leads_news <> ty -> velocity_spike <> ty ->
             silent_divergence <> ty -> convergence <> ty ->
             generateDedupeKey ty i v ∉ keys -> generateDedupeKey ty i v ∉ run_keys c).
  { intros ty i v Hn1 Hn2 Hn3 Hn4 Hk.
    apply (fresh_through _ _ _ _ ty convergence i v Ec); try done.
    - intros k s H. by apply fromConvergence_type in H as [_ H].
    - by apply K3. }
  destruct E1 as (n1 & S1 & _ & _ & _ & _ & P1).
  destruct E2 as (n2 & S2 & _ & _ & _ & _ & P2).
  destruct E3 as (n3 & S3 & _ & _ & _ & _ & P3).
  destruct Ec as (nc & Sc & _ & _ & _ & _ & Pc). cbn [run_signals app] in Sc.
  destruct Et as (nt & St & _ & _ & _ & _ & Pt). cbn [run_signals app] in St.
  exists n1, n2, n3, nc, nt.
  split; [|split; [done|split; [done|split; [done|split; [done|split; [done|]]]]]].
  { rewrite S3, S2, S1, Sc, St. unfold r0. cbn [run_signals app]. by rewrite <- !app_assoc. }
  split; [|split; [|split]].
  - intros pred p Hin Hs Hk.
    apply (grown_nonempty (run_signals r0)). rewrite <- S1.
    apply (fold_left_fires (keyed (eq prediction_leads_news)) now _ preds pred
             (predictionKey pred p)); try done.
    + intros. apply predictionStep_extends.
    + intros r Hr. by apply predictionStep_fires.
  - intros topic v Hin Hs Hk.
    apply (grown_nonempty (run_signals r1)). rewrite <- S2.
    apply (fold_left_fires (keyed (eq velocity_spike)) now _ topics (topic, v)
             (generateDedupeKey velocity_spike topic v)); try done.
    + intros. apply velocityStep_extends.
    + intros r Hr. by apply velocityStep_fires.
    + by apply K1.
  - intros market c0 Hin Hs Hk.
    apply (grown_nonempty (run_signals r2)). rewrite <- S3.
    apply (fold_left_fires (keyed (eq silent_divergence)) now _ markets market
             (generateDedupeKey silent_divergence (symbol market) (abs c0))); try done.
    + intros. apply divergenceStep_extends.
    + intros r Hr. by apply divergenceStep_fires.
    + by apply K2.
  - intros e Hin Hs Hk.
    apply (grown_nonempty []). cbn [app]. rewrite <- St.
    change (@nil (string * CorrelationSignal))
      with (run_signals {| run_keys := run_keys c; run_timeouts := run_timeouts c;
                           run_signals := [] |}) at 1.
    apply (fold_left_fires (keyed (eq triangulation)) now _ events e
             (triangulationKey e)); try done.
    + intros. apply triangulationStep_extends.
    + intros r Hr. by apply triangulationStep_fires.
    + by apply Kc.
Qed.

(** The first signal of its type in the array is the one of that type in the
    returned list. *)
Lemma first_of_type_returned now (front : list (string * CorrelationSignal)) k x back :
  Forall (fun ks => builtAt now (snd ks)) (front ++ (k, x) :: back) ->
  (forall ks, In ks front -> type (snd ks) <> type x) ->
  ofType (type x) (highConfidence (uniqueSignals (map snd (front ++ (k, x) :: back)))) = [x].
Proof.
  intros Hb Hfront. rewrite map_app. cbn [map].
  change (snd (k, x)) with x.
  unfold ofType. apply one_of_type.
  - apply highConfidence_NoDup. rewrite uniqueSignals_eq. apply keepFirst_NoDup.
  - apply highConfidence_In. split.
    + rewrite uniqueSignals_eq. apply keepFirst_first. simpl.
      intros y Hy. apply in_map_iff in Hy as [ks [<- Hks]]. by apply Hfront.
    + rewrite List.Forall_forall in Hb.
      destruct (Hb (k, x)) as (_ & _ & Hc & _); [|exact Hc].
      apply in_app_iff. right. by left.
Qed.


Ltac other_type H HP :=
  rewrite List.Forall_forall in HP; apply HP in H; cbn [fst snd] in H;
  first [ apply fromPrediction_type in H as [H _]
        | apply fromVelocity_type in H as [H _]
        | apply fromDivergence_type in H as [H _]
        | apply fromConvergence_type in H as [H _]
        | apply fromTriangulation_type in H as [H _] ];
  congruence.


Ltac fresh_in_empty :=
  let H := fresh in intros H; apply (bool_decide_pack _) in H; vm_compute in H; exact H.





(** X11. Triangulation.  With a previous snapshot, every signal of type
    [triangulation] that a call pushes is that of a cluster of the call with
    at least three items among which, whatever their age, a wire, a government
    and an intel source occur.  Conversely such a cluster, its key being
    fresh, makes the call return exactly one signal of this type. *)
Theorem triangulation_rule d now events predictions markets prev :
  previousSnapshot d = Some prev ->
  let o := analyzeCorrelations now events predictions markets d in
  (forall k s, In (k, s) (pushed o) -> type s = triangulation ->
     fromTriangulation now events k s)
  /\ (forall e, In e events -> triangulated e ->
        triangulationKey e ∉ recentSignalKeys d ->
        exists k sig,
          ofType triangulation (returned o) = [sig]
          /\ In (k, sig) (pushed o)
          /\ fromTriangulation now events k sig).
Proof.
  intros Hprev o. subst o. unfold analyzeCorrelations. rewrite Hprev.
  cbn [pushed returned].
  pose proof (candidates_builtAt now prev (recentSignalKeys d) (pendingTimeouts d)
                events predictions markets) as Hb.
  destruct (candidates_detail now prev (recentSignalKeys d) (pendingTimeouts d)
              events predictions markets)
    as (n1 & n2 & n3 & nc & nt & S & P1 & P2 & P3 & Pc & Pt & _ & _ & _ & Ft).
  rewrite S in *. split.
  - intros k s Hin Hty. rewrite !in_app_iff in Hin.
    destruct Hin as [H|[H|[H|[H|H]]]].
    + other_type H P1.
    + other_type H P2.
    + other_type H P3.
    + other_type H Pc.
    + rewrite List.Forall_forall in Pt. by apply Pt in H.
  - intros e Hin Hs Hk. specialize (Ft e Hin Hs Hk).
    destruct nt as [|[k x] nt]; [done|]. exists k, x.
    apply Forall_cons in Pt as [Hx _]. cbn [fst snd] in Hx.
    pose proof (fromTriangulation_type _ _ _ _ Hx) as [Tx _].
    assert (E : n1 ++ n2 ++ n3 ++ nc ++ (k, x) :: nt
                = (n1 ++ n2 ++ n3 ++ nc) ++ (k, x) :: nt) by (by rewrite <- !app_assoc).
    split; [|split].
    + rewrite <- Tx. rewrite E in *.
      apply (first_of_type_returned now (n1 ++ n2 ++ n3 ++ nc)); [done|].
      intros ks H. rewrite Tx. rewrite !in_app_iff in H.
      destruct H as [H|[H|[H|H]]].
      * other_type H P1.
      * other_type H P2.
      * other_type H P3.
      * other_type H Pc.
    + rewrite !in_app_iff. right. right. right. right. by left.
    + done.
Qed.


Lemma triangulation_rule_witness :
  exists k sig,
    ofType triangulation
      (returned (analyzeCorrelations 2000 [Scenarios.storm_all_desks] [] []
                   (Scenarios.warmed 40)))
    = [sig]
    /\ In (k, sig)
         (pushed (analyzeCorrelations 2000 [Scenarios.storm_all_desks] [] []
                    (Scenarios.warmed 40)))
    /\ fromTriangulation 2000 [Scenarios.storm_all_desks] k sig.
Proof.
  apply (proj2 (triangulation_rule (Scenarios.warmed 40) 2000 [Scenarios.storm_all_desks] [] []
                  (currentSnapshot 1000 [] [Scenarios.fed 40] []) eq_refl)
           Scenarios.storm_all_desks).
  - by left.
  - split; [vm_compute; lia|]. split; [|split].
    + exists (Scenarios.item "Reuters" "Storm hits coast" false).
      split; [vm_compute; tauto | reflexivity].
    + exists (Scenarios.item "White House" "Storm hits coast" false).
      split; [vm_compute; tauto | reflexivity].
    + exists (Scenarios.item "Defense One" "Storm hits coast" false).
      split; [vm_compute; tauto | reflexivity].
  - fresh_in_empty.
Defined.

(** ** Related topics of a prediction market *)

Lemma related_fold (title : string) (l : list (string * list string)) acc t :
  In t (fold_left (fun related kt =>
          if includes title (fst kt) then related ++ snd kt else related) l acc)
  <-> In t acc
      \/ exists key topics, In (key, topics) l /\ includes title key = true /\ In t topics.
Proof.
  revert acc. induction l as [|[key topics] l IH]; intros acc; cbn [fold_left].
  - split; [tauto|]. intros [H|(k & ts & [] & _)]. done.
  - rewrite IH. cbn [fst snd]. split.
    + intros [H|(k & ts & H1 & H2 & H3)].
      * destruct (includes title key) eqn:E.
        -- apply in_app_iff in H as [H|H]; [by left|].
           right. exists key, topics. split; [by left | done].
        -- by left.
      * right. exists k, ts. split; [by right | done].
    + intros [H|(k & ts & [H1|H1] & H2 & H3)].
      * left. destruct (includes title key); [apply in_app_iff; by left | done].
      * inversion H1; subst k ts. left. rewrite H2. apply in_app_iff. by right.
      * right. by exists k, ts.
Qed.

Lemma findRelatedTopics_In prediction t :
  In t (findRelatedTopics prediction)
  <-> exists key topics, In (key, topics) mappings
        /\ includes (toLowerCase prediction) key = true /\ In t topics.
Proof.
  unfold findRelatedTopics. cbv zeta. rewrite uniq_In.
  rewrite (related_fold (toLowerCase prediction) mappings [] t).
  split.
  - intros [[[]|H] _]. exact H.
  - intros H. split; [by right | by intros []].
Qed.

(** X12. [findRelatedTopics] returns, without repetition, exactly the topics
    listed under the keys of the mapping table that occur in the lower-cased
    title.  A market whose title contains none of the ten keys has no related
    topic, and its news activity is then zero whatever the news: every shift
    of such a market counts as one with low news coverage. *)
Theorem findRelatedTopics_spec (pred : PredictionMarket) :
  NoDup (findRelatedTopics (pm_title pred))
  /\ (forall t, In t (findRelatedTopics (pm_title pred))
         <-> exists key topics, In (key, topics) mappings
               /\ includes (toLowerCase (pm_title pred)) key = true /\ In t topics)
  /\ ((forall key topics, In (key, topics) mappings ->
         includes (toLowerCase (pm_title pred)) key = false) ->
      findRelatedTopics (pm_title pred) = []
      /\ forall topics, newsActivity topics pred = 0%Q).
Proof.
  split; [apply uniq_NoDup|]. split; [apply findRelatedTopics_In|].
  intros Hnone.
  assert (E : findRelatedTopics (pm_title pred) = []).
  { destruct (findRelatedTopics (pm_title pred)) as [|t l] eqn:El; [done|].
    assert (H : In t (findRelatedTopics (pm_title pred))) by (rewrite El; by left).
    apply findRelatedTopics_In in H as (key & topics & H1 & H2 & _).
    rewrite (Hnone key topics H1) in H2. discriminate H2. }
  split; [exact E|]. intros topics. unfold newsActivity. by rewrite E.
Qed.

(** ** What the snapshot stores *)

Lemma map_of_fold_skip (l : list (string * Q)) m k :
  ~ In k (map fst l) ->
  map_get (fold_left (fun m kv => map_set m (fst kv) (snd kv)) l m) k = map_get m k.
Proof.
  revert m. induction l as [|[k' v'] l IH]; intros m Hk; cbn [fold_left]; [done|].
  rewrite IH by (intros H; apply Hk; by right). cbn [fst snd].
  rewrite map_get_set. destruct (String.eqb_spec k' k) as [->|Hne]; [|done].
  exfalso. apply Hk. by left.
Qed.

Lemma map_of_last (l1 l2 : list (string * Q)) k v :
  ~ In k (map fst l2) -> map_get (map_of (l1 ++ (k, v) :: l2)) k = Some v.
Proof.
  intros Hk. unfold map_of. rewrite fold_left_app. cbn [fold_left fst snd].
  rewrite map_of_fold_skip by done. by rewrite map_get_set, String.eqb_refl.
Qed.

Lemma map_of_absent (l : list (string * Q)) k :
  ~ In k (map fst l) -> map_get (map_of l) k = None.
Proof. intros Hk. unfold map_of. by rewrite map_of_fold_skip. Qed.

(** X13. The snapshot a call stores keys each prediction market by the first
    fifty characters of its title and holds, under that key, the price of the
    last market of the call with that key: markets whose titles agree on the
    first fifty characters share one entry.  A key no market of the call has
    is absent, so a market seen for the first time has no previous price. *)
Theorem snapshot_keeps_last_price now events preds1 p preds2 markets d :
  (forall q, In q preds2 -> slice0 50 (pm_title q) <> slice0 50 (pm_title p)) ->
  exists snap,
    previousSnapshot (after (analyzeCorrelations now events (preds1 ++ p :: preds2) markets d))
    = Some snap
    /\ map_get (predictionChanges snap) (slice0 50 (pm_title p)) = Some (yesPrice p)
    /\ forall k, (forall q, In q (preds1 ++ p :: preds2) -> slice0 50 (pm_title q) <> k) ->
         map_get (predictionChanges snap) k = None.
Proof.
  intros Hlast.
  exists (currentSnapshot now events (preds1 ++ p :: preds2) markets). split.
  - unfold analyzeCorrelations. by destruct (previousSnapshot d).
  - cbn [predictionChanges currentSnapshot]. split.
    + rewrite map_app. cbn [map]. apply map_of_last.
      rewrite map_map. cbn [fst]. intros H.
      apply in_map_iff in H as (q & E & Hq). by apply (Hlast q).
    + intros k Hk. apply map_of_absent. rewrite map_map. cbn [fst]. intros H.
      apply in_map_iff in H as (q & E & Hq). by apply (Hk q).
Qed.

Lemma snapshot_keeps_last_price_witness :
  exists snap,
    previousSnapshot
      (after (analyzeCorrelations 1000 [] ([Scenarios.fed 40] ++ Scenarios.fed 47 :: []) []
                initial))
    = Some snap
    /\ map_get (predictionChanges snap) (slice0 50 (pm_title (Scenarios.fed 47)))
       = Some (yesPrice (Scenarios.fed 47))
    /\ forall k,
         (forall q, In q ([Scenarios.fed 40] ++ Scenarios.fed 47 :: []) ->
            slice0 50 (pm_title q) <> k) ->
         map_get (predictionChanges snap) k = None.
Proof.
  apply (snapshot_keeps_last_price 1000 [] [Scenarios.fed 40] (Scenarios.fed 47) [] [] initial).
  intros q [].
Defined.

Lemma findRelatedTopics_spec_witness :
  findRelatedTopics (pm_title (Scenarios.spacex 40)) = []
  /\ forall topics, newsActivity topics (Scenarios.spacex 40) = 0%Q.
Proof.
  apply (proj2 (proj2 (findRelatedTopics_spec (Scenarios.spacex 40)))).
  intros key topics H.
  repeat (destruct H as [H|H]; [inversion H; reflexivity|]). destruct H.
Defined.

(** * Further properties of the map *)

(** ** The time filter *)

Import MapControls.

Lemma filter_sublist_impl {A} (p q : A -> bool) (l : list A) :
  (forall x, p x = true -> q x = true) -> sublist (List.filter p l) (List.filter q l).
Proof.
  intros Hpq. induction l as [|x l IH]; cbn [List.filter]; [constructor|].
  destruct (p x) eqn:Ep.
  - rewrite (Hpq x Ep). by constructor.
  - destruct (q x); [by apply sublist_cons | done].
Qed.

Lemma filter_sublist {A} (p : A -> bool) (l : list A) : sublist (List.filter p l) l.
Proof.
  induction l as [|x l IH]; cbn [List.filter]; [constructor|].
  destruct (p x); by constructor.
Qed.

(** X14. [filterByTime] keeps the order of the items and keeps an item
    exactly when it is undated, or the range is [all], or its time is not
    older than the range; so every undated item and every item dated in the
    future is shown under every range, and a wider range shows everything a
    narrower one shows. *)
Theorem filterByTime_widens {T} (time : T -> option Z) now s s' items :
  widerThan (timeRange s') (timeRange s) ->
  sublist (filterByTime time now s items) (filterByTime time now s' items)
  /\ sublist (filterByTime time now s' items) items
  /\ (forall x, In x (filterByTime time now s items)
        <-> In x items
            /\ match time x, getTimeRangeMs (timeRange s) with
               | Some t, Some ms => now - t <= ms
               | _, _ => True
               end).
Proof.
  intros Hw.
  assert (Hsub : forall s0, sublist (filterByTime time now s0 items) items).
  { intros s0. unfold filterByTime.
    destruct (timeRange s0); try apply filter_sublist. reflexivity. }
  split; [|split; [apply Hsub|]].
  - unfold filterByTime, widerThan in *.
    destruct (timeRange s') eqn:E';
      try (destruct (timeRange s) eqn:E; cbn [getTimeRangeMs] in Hw; try (exfalso; lia);
           try done; apply filter_sublist_impl; intros x; destruct (time x); try done;
           cbn [getTimeRangeMs]; rewrite !Z.leb_le; lia).
    destruct (timeRange s); try apply filter_sublist. reflexivity.
  - intros x. unfold filterByTime.
    destruct (timeRange s) eqn:E; cbn [getTimeRangeMs];
      try (rewrite filter_In; destruct (time x); [rewrite Z.leb_le|]; split;
           intros [? ?]; split; try done; lia).
    destruct (time x); tauto.
Qed.

Lemma filterByTime_widens_witness :
  sublist (filterByTime Some 90000000 Scenarios.last_hour_view [1000; 89000000])
          (filterByTime Some 90000000 Scenarios.home_view [1000; 89000000]).
Proof.
  apply (filterByTime_widens Some 90000000 Scenarios.last_hour_view Scenarios.home_view [1000; 89000000]).
  vm_compute. discriminate.
Defined.

(** ** Zoom *)

Lemma clamp_range (x : Q) : (1 <= Qmax 1 (Qmin 10 x) <= 10)%Q.
Proof.
  split; [apply Q.le_max_l|].
  apply Q.max_lub; [by vm_compute | apply Q.le_min_l].
Qed.

Lemma act_zoom_range s a :
  (1 <= zoom s <= 10)%Q -> (1 <= zoom (act s a) <= 10)%Q.
Proof.
  intros [H1 H2]. destruct a as [| | |v|c sh dx dy]; cbn [act].
  - cbn [zoomIn zoom]. split.
    + apply Q.min_glb; [lra | by vm_compute].
    + apply Q.le_min_r.
  - cbn [zoomOut zoom]. split.
    + apply Q.le_max_r.
    + apply Q.max_lub; [lra | by vm_compute].
  - cbn [reset zoom]. split; by vm_compute.
  - cbn [setView zoom]. destruct v; split; by vm_compute.
  - unfold onWheel. destruct c; [apply clamp_range|].
    destruct (gtb (abs dx) (abs dy * (5 # 10)) || sh); [done | apply clamp_range].
Qed.

Lemma act_half_steps s a :
  isButton a -> onHalfSteps s -> onHalfSteps (act s a).
Proof.
  intros Hb [n Hn]. unfold onHalfSteps.
  destruct a as [| | |v|c sh dx dy]; cbn [act isButton] in *; [| | | |done].
  - cbn [zoomIn zoom].
    destruct (Q.min_spec (zoom s + (5 # 10)) 10) as [[_ E]|[_ E]].
    + exists (n + 1). rewrite E, Hn, inject_Z_plus.
      change (inject_Z 1) with 1%Q. lra.
    + exists 20. rewrite E. reflexivity.
  - cbn [zoomOut zoom].
    destruct (Q.max_spec (zoom s - (5 # 10)) 1) as [[_ E]|[_ E]].
    + exists 2. rewrite E. reflexivity.
    + exists (n + -1). rewrite E, Hn, inject_Z_plus.
      change (inject_Z (-1)) with (-1 # 1)%Q. lra.
  - exists 2. reflexivity.
  - destruct v; [exists 2 | exists 2 | exists 5]; reflexivity.
Qed.

(** X15. The zoom factor stays between 1 and 10 under every sequence of zoom
    buttons, reset, view changes and wheel events.  Buttons, reset and view
    changes keep the factor on whole half steps, and from such a factor below
    the upper bound zooming out undoes zooming in. *)
Theorem zoom_stays_in_range s actions :
  (1 <= zoom s <= 10)%Q ->
  (1 <= zoom (fold_left act actions s) <= 10)%Q
  /\ (onHalfSteps s -> Forall isButton actions -> onHalfSteps (fold_left act actions s))
  /\ (onHalfSteps s -> (zoom s <= 95 # 10)%Q -> (zoom (zoomOut (zoomIn s)) == zoom s)%Q).
Proof.
  intros Hs. split; [|split].
  - revert s Hs. induction actions as [|a actions IH]; intros s Hs; cbn [fold_left]; [done|].
    apply IH. by apply act_zoom_range.
  - clear Hs. revert s. induction actions as [|a actions IH]; intros s Hh Hb;
      cbn [fold_left]; [done|].
    apply Forall_cons in Hb as [Ha Hb]. apply IH; [|done]. by apply act_half_steps.
  - intros _ Hle. cbn [zoomOut zoomIn zoom].
    destruct (Q.min_spec (zoom s + (5 # 10)) 10) as [[_ E]|[Hge E]]; rewrite E.
    + destruct (Q.max_spec (zoom s + (5 # 10) - (5 # 10)) 1) as [[Hlt E']|[_ E']];
        rewrite E'; lra.
    + destruct (Q.max_spec (10 - (5 # 10)) 1) as [[Hlt E']|[_ E']]; rewrite E'; lra.
Qed.

Lemma zoom_stays_in_range_witness :
  (1 <= zoom (fold_left act [PressZoomIn; TurnWheel false false 0 (-3); ChangeView mena; PressZoomOut]
                Scenarios.home_view) <= 10)%Q
  /\ (zoom (zoomOut (zoomIn Scenarios.home_view)) == zoom Scenarios.home_view)%Q.
Proof.
  assert (Hr : (1 <= zoom Scenarios.home_view <= 10)%Q) by (split; by vm_compute).
  assert (Hh : onHalfSteps Scenarios.home_view) by (exists 2; reflexivity).
  assert (Hle : (zoom Scenarios.home_view <= 95 # 10)%Q) by (by vm_compute).
  split.
  - exact (proj1 (zoom_stays_in_range Scenarios.home_view
             [PressZoomIn; TurnWheel false false 0 (-3); ChangeView mena; PressZoomOut] Hr)).
  - exact (proj2 (proj2 (zoom_stays_in_range Scenarios.home_view [] Hr)) Hh Hle).
Defined.

(** ** Earthquakes *)

Lemma feedEarthquakes_empty {E} (updates : list (list E)) (current : list E) :
  Forall (fun u => u = []) updates -> feedEarthquakes updates current = current.
Proof.
  revert current. induction updates as [|u updates IH]; intros current H; [done|].
  apply Forall_cons in H as [-> H]. unfold feedEarthquakes in *. cbn [fold_left].
  rewrite IH by done. unfold setEarthquakes. cbn [length Nat.ltb Nat.leb orb].
  by destruct current.
Qed.

(** X16. An empty update never replaces earthquakes that are on the map:
    after any sequence of [setEarthquakes] calls the map holds the last
    non-empty update, and what it held before when there was none. *)
Theorem earthquakes_keep_last_nonempty {E} (before after : list (list E))
    (update current : list E) :
  update <> [] -> Forall (fun u => u = []) after ->
  feedEarthquakes (before ++ update :: after) current = update
  /\ feedEarthquakes after current = current.
Proof.
  intros Hne Hafter. split; [|by apply feedEarthquakes_empty].
  unfold feedEarthquakes. rewrite fold_left_app. cbn [fold_left].
  fold (feedEarthquakes after
          (setEarthquakes update
             (fold_left (fun cur new => setEarthquakes new cur) before current))).
  rewrite feedEarthquakes_empty by done.
  unfold setEarthquakes. by destruct update.
Qed.

Lemma earthquakes_keep_last_nonempty_witness :
  feedEarthquakes ([[1; 2]] ++ [3] :: [[]; []]) [4] = [3]
  /\ feedEarthquakes [[]; []] [4] = [4].
Proof.
  apply (earthquakes_keep_last_nonempty [[1; 2]] [[]; []] [3] [4]).
  - discriminate.
  - by repeat constructor.
Defined.

(** ** Saved hotspot levels *)

Lemma levels_fold_skip (l : list Hotspot) (acc : gmap string Level) k :
  ~ In k (map hs_name l) ->
  fold_left (fun levels spot =>
    <[ hs_name spot := match level spot with Some l => l | None => low end ]> levels)
    l acc !! k = acc !! k.
Proof.
  revert acc. induction l as [|x l IH]; intros acc Hk; cbn [fold_left]; [done|].
  rewrite IH by (intros H; apply Hk; by right).
  apply lookup_insert_ne. intros E. apply Hk. by left.
Qed.

Lemma getHotspotLevels_lookup m spot :
  NoDup (map hs_name (hotspots m)) -> In spot (hotspots m) ->
  getHotspotLevels m !! hs_name spot
  = Some (match level spot with Some l => l | None => low end).
Proof.
  unfold getHotspotLevels. generalize (∅ : gmap string Level).
  induction (hotspots m) as [|x l IH]; intros acc Hnd Hin; [done|].
  cbn [map] in Hnd. apply NoDup_cons in Hnd as [Hx Hnd]. rewrite list_elem_of_In in Hx.
  cbn [fold_left]. destruct Hin as [->|Hin].
  - rewrite levels_fold_skip by done. apply lookup_insert_eq.
  - by apply IH.
Qed.

(** X17. Saving the hotspot levels and restoring them later brings back the
    level of every hotspot (low where none was set), provided the hotspot
    names are distinct; the restore touches nothing but the level, so status
    and breaking flag stay as the latest activity update left them. *)
Theorem hotspot_levels_round_trip m m' :
  NoDup (map hs_name (hotspots m)) ->
  map hs_name (hotspots m') = map hs_name (hotspots m) ->
  let r := setHotspotLevels (getHotspotLevels m) m' in
  map level (hotspots r)
  = map (fun spot => Some (match level spot with Some l => l | None => low end)) (hotspots m)
  /\ map status (hotspots r) = map status (hotspots m')
  /\ map hasBreaking (hotspots r) = map hasBreaking (hotspots m')
  /\ map keywords (hotspots r) = map keywords (hotspots m')
  /\ news r = news m'.
Proof.
  intros Hnd Hnames r. subst r. unfold setHotspotLevels. cbn [hotspots news].
  rewrite !map_map.
  split; [|split; [|split; [|split]]]; try done;
    try (apply map_ext; intros spot; by destruct (_ !! _)).
  pose proof (getHotspotLevels_lookup m) as Hget. specialize (fun spot => Hget spot Hnd).
  revert Hget Hnames. generalize (getHotspotLevels m). intros levels.
  generalize (hotspots m) as l. generalize (hotspots m') as l'.
  induction l' as [|x' l' IH]; intros [|x l] Hget Hnames; try done.
  cbn [map] in *. injection Hnames as Hx Hl.
  f_equal.
  - rewrite Hx, (Hget x) by (by left). done.
  - apply IH; [|done]. intros spot Hs. apply Hget. by right.
Qed.

Lemma hotspot_levels_round_trip_witness :
  map level
    (hotspots (setHotspotLevels
       (getHotspotLevels
          (updateHotspotActivity 1000 (Scenarios.gaza_corpus true)
             {| news := []; hotspots := [Geo.dc; Geo.telaviv] |}))
       {| news := []; hotspots := [Geo.dc; Geo.telaviv] |}))
  = [Some low; Some high].
Proof.
  apply (hotspot_levels_round_trip
           (updateHotspotActivity 1000 (Scenarios.gaza_corpus true)
              {| news := []; hotspots := [Geo.dc; Geo.telaviv] |})
           {| news := []; hotspots := [Geo.dc; Geo.telaviv] |}).
  - vm_compute. repeat constructor; set_solver.
  - reflexivity.
Defined.

(** ** Activity updates *)

(** X18. [updateHotspotActivity] recomputes level, status and breaking flag
    of every hotspot from the news alone: what an earlier update left there
    has no influence, so updating twice is updating once with the later
    corpus; name, id, keywords and agencies of each hotspot, and the order of
    the hotspots, are kept. *)
Theorem activity_overwrites_previous now items now' items' m :
  updateHotspotActivity now items (updateHotspotActivity now' items' m)
  = updateHotspotActivity now items m
  /\ map hs_id (hotspots (updateHotspotActivity now items m)) = map hs_id (hotspots m)
  /\ map hs_name (hotspots (updateHotspotActivity now items m)) = map hs_name (hotspots m)
  /\ map keywords (hotspots (updateHotspotActivity now items m)) = map keywords (hotspots m)
  /\ map agencies (hotspots (updateHotspotActivity now items m)) = map agencies (hotspots m)
  /\ news (updateHotspotActivity now items m) = items.
Proof.
  unfold updateHotspotActivity. cbn [hotspots news]. rewrite !map_map.
  split; [|by repeat split].
  f_equal.
Qed.

(** ** Relative times in popups *)

Import MapPopup.

Lemma div_nested a : a / 1000 / 60 = a / 60000 /\ a / 1000 / 60 / 60 = a / 3600000
                     /\ a / 1000 / 60 / 60 / 24 = a / 86400000.
Proof. rewrite !Z.div_div by lia. done. Qed.

(** X19. [getTimeAgo] reports whole seconds below one minute, whole minutes
    below one hour, whole hours below one day and whole days from there on,
    each rounded down.  A date in the future, however far, is reported in
    seconds with a minus sign. *)
Theorem getTimeAgo_units now date :
  let elapsed := now - date in
  (elapsed < 60000 -> getTimeAgo now date = (showZ (elapsed / 1000) ++ "s ago")%string)
  /\ (60000 <= elapsed < 3600000 ->
      getTimeAgo now date = (showZ (elapsed / 60000) ++ "m ago")%string)
  /\ (3600000 <= elapsed < 86400000 ->
      getTimeAgo now date = (showZ (elapsed / 3600000) ++ "h ago")%string)
  /\ (86400000 <= elapsed ->
      getTimeAgo now date = (showZ (elapsed / 86400000) ++ "d ago")%string)
  /\ (elapsed < 0 ->
      getTimeAgo now date = ("-" ++ digits (- (elapsed / 1000)) ++ "s ago")%string).
Proof.
  intros elapsed. unfold getTimeAgo. fold elapsed. cbv zeta.
  destruct (div_nested elapsed) as (E1 & E2 & E3). rewrite E3, E2, E1.
  assert (H1 : elapsed / 1000 < 60 <-> elapsed < 60000).
  { split; intros H; [|apply Z.div_lt_upper_bound; lia].
    destruct (Z.lt_ge_cases elapsed 60000) as [?|Hge]; [done|].
    apply (Z.div_le_mono _ _ 1000) in Hge; [|lia]. change (60000 / 1000) with 60 in Hge. lia. }
  assert (H2 : elapsed / 60000 < 60 <-> elapsed < 3600000).
  { split; intros H; [|apply Z.div_lt_upper_bound; lia].
    destruct (Z.lt_ge_cases elapsed 3600000) as [?|Hge]; [done|].
    apply (Z.div_le_mono _ _ 60000) in Hge; [|lia].
    change (3600000 / 60000) with 60 in Hge. lia. }
  assert (H3 : elapsed / 3600000 < 24 <-> elapsed < 86400000).
  { split; intros H; [|apply Z.div_lt_upper_bound; lia].
    destruct (Z.lt_ge_cases elapsed 86400000) as [?|Hge]; [done|].
    apply (Z.div_le_mono _ _ 3600000) in Hge; [|lia].
    change (86400000 / 3600000) with 24 in Hge. lia. }
  repeat split.
  - intros H. by rewrite (proj2 (Z.ltb_lt _ _) (proj2 H1 H)).
  - intros [Ha Hb].
    rewrite (proj2 (Z.ltb_ge _ _)) by lia.
    by rewrite (proj2 (Z.ltb_lt _ _) (proj2 H2 Hb)).
  - intros [Ha Hb].
    rewrite (proj2 (Z.ltb_ge _ _)) by lia.
    rewrite (proj2 (Z.ltb_ge _ _)) by lia.
    by rewrite (proj2 (Z.ltb_lt _ _) (proj2 H3 Hb)).
  - intros Ha.
    rewrite (proj2 (Z.ltb_ge _ _)) by lia.
    rewrite (proj2 (Z.ltb_ge _ _)) by lia.
    by rewrite (proj2 (Z.ltb_ge _ _)) by lia.
  - intros Hneg.
    rewrite (proj2 (Z.ltb_lt _ _)) by lia.
    unfold showZ. rewrite (proj2 (Z.ltb_lt (elapsed / 1000) 0)); [done|].
    apply Z.div_lt_upper_bound; lia.
Qed.

Lemma getTimeAgo_units_witness :
  getTimeAgo 7200000 0 = (showZ (7200000 / 3600000) ++ "h ago")%string.
Proof.
  apply (proj1 (proj2 (proj2 (getTimeAgo_units 7200000 0)))).
  vm_compute. split; discriminate || reflexivity.
Defined.

(** X20. [getTimeUntil] answers [Expired] for a date that is not in the
    future, and otherwise whole minutes below one hour, whole hours below one
    day and whole days from there on, each rounded down; less than a minute
    ahead reads [0m]. *)
Theorem getTimeUntil_units now date :
  let ms := date - now in
  (ms <= 0 -> getTimeUntil now date = "Expired"%string)
  /\ (0 < ms < 3600000 -> getTimeUntil now date = (showZ (ms / 60000) ++ "m")%string)
  /\ (3600000 <= ms < 86400000 ->
      getTimeUntil now date = (showZ (ms / 3600000) ++ "h")%string)
  /\ (86400000 <= ms -> getTimeUntil now date = (showZ (ms / 86400000) ++ "d")%string)
  /\ (0 < ms < 60000 -> getTimeUntil now date = "0m"%string).
Proof.
  intros ms. unfold getTimeUntil. fold ms. cbv zeta.
  change (1000 * 60 * 60) with 3600000. change (1000 * 60) with 60000.
  assert (H1 : ms / 3600000 < 1 <-> ms < 3600000).
  { split; intros H; [|apply Z.div_lt_upper_bound; lia].
    destruct (Z.lt_ge_cases ms 3600000) as [?|Hge]; [done|].
    apply (Z.div_le_mono _ _ 3600000) in Hge; [|lia].
    change (3600000 / 3600000) with 1 in Hge. lia. }
  assert (H2 : ms / 3600000 < 24 <-> ms < 86400000).
  { split; intros H; [|apply Z.div_lt_upper_bound; lia].
    destruct (Z.lt_ge_cases ms 86400000) as [?|Hge]; [done|].
    apply (Z.div_le_mono _ _ 3600000) in Hge; [|lia].
    change (86400000 / 3600000) with 24 in Hge. lia. }
  assert (E : ms / 3600000 / 24 = ms / 86400000) by (by rewrite Z.div_div by lia).
  repeat split.
  - intros H. by rewrite (proj2 (Z.leb_le _ _) H).
  - intros [Ha Hb].
    rewrite (proj2 (Z.leb_gt _ _)) by lia.
    by rewrite (proj2 (Z.ltb_lt _ _) (proj2 H1 Hb)).
  - intros [Ha Hb].
    rewrite (proj2 (Z.leb_gt _ _)) by lia.
    rewrite (proj2 (Z.ltb_ge _ _)) by lia.
    by rewrite (proj2 (Z.ltb_lt _ _) (proj2 H2 Hb)).
  - intros Ha.
    rewrite (proj2 (Z.leb_gt _ _)) by lia.
    rewrite (proj2 (Z.ltb_ge _ _)) by lia.
    rewrite (proj2 (Z.ltb_ge _ _)) by lia.
    by rewrite E.
  - intros [Ha Hb].
    rewrite (proj2 (Z.leb_gt _ _)) by lia.
    rewrite (proj2 (Z.ltb_lt _ _)) by lia.
    rewrite Z.div_small by lia. reflexivity.
Qed.

Lemma getTimeUntil_units_witness :
  getTimeUntil 0 30000 = "0m"%string.
Proof.
  apply (proj2 (proj2 (proj2 (proj2 (getTimeUntil_units 0 30000))))).
  vm_compute. split; reflexivity.
Defined.

(** * Further properties of the search modal *)

(** ** Registered sources *)

Lemma findIndex_None {A} (p : A -> bool) (l : list A) :
  findIndex p l = None <-> forall x, In x l -> p x = false.
Proof.
  induction l as [|x l IH]; cbn [findIndex].
  - split; [by intros _ ? [] | done].
  - destruct (p x) eqn:E.
    + split; [done|]. intros H. rewrite (H x) in E by (by left). discriminate E.
    + destruct (findIndex p l) as [i|].
      * split; [done|]. intros H. exfalso.
        assert (Hn : Some i = None) by (apply (proj2 IH); intros y Hy; apply H; by right).
        discriminate Hn.
      * split; [|done]. intros _ y [<-|Hy]; [done|]. by apply (proj1 IH).
Qed.

Lemma findIndex_Some {A} (p : A -> bool) (l : list A) i :
  findIndex p l = Some i ->
  exists pre x suf, l = pre ++ x :: suf /\ length pre = i /\ p x = true
                    /\ forall y, In y pre -> p y = false.
Proof.
  revert i. induction l as [|x l IH]; intros i; cbn [findIndex]; [done|].
  destruct (p x) eqn:E.
  - intros [= <-]. exists [], x, l.
    split; [done|]. split; [done|]. split; [done|]. by intros ? [].
  - destruct (findIndex p l) as [j|]; [|done]. intros [= <-].
    destruct (IH j eq_refl) as (pre & y & suf & -> & Hlen & Hy & Hpre).
    exists (x :: pre), y, suf.
    split; [done|]. split; [by simpl; rewrite Hlen|]. split; [done|].
    intros z [<-|Hz]; [done|]. by apply Hpre.
Qed.

Lemma findIndex_split_unique {A B} (f : A -> B) (pre pre0 suf suf0 : list A) x y :
  NoDup (map f (pre ++ x :: suf)) ->
  pre ++ x :: suf = pre0 ++ y :: suf0 -> f x = f y ->
  pre = pre0 /\ x = y /\ suf = suf0.
Proof.
  revert pre0. induction pre as [|a pre IH]; intros [|a0 pre0] Hnd E Hf; cbn [app] in *.
  - by injection E as -> ->.
  - injection E as -> ->. exfalso. cbn [map] in Hnd. apply NoDup_cons in Hnd as [Hx _].
    apply Hx. rewrite Hf, list_elem_of_In. apply in_map, in_app_iff. right. by left.
  - injection E as -> <-. exfalso. cbn [map] in Hnd. apply NoDup_cons in Hnd as [Ha _].
    apply Ha. rewrite <- Hf, list_elem_of_In. apply in_map, in_app_iff. right. by left.
  - injection E as -> E. cbn [map] in Hnd. apply NoDup_cons in Hnd as [_ Hnd].
    destruct (IH pre0 Hnd E Hf) as (-> & -> & ->). done.
Qed.

(** X21. [registerSource] keeps one source per type: when the types of the
    registered sources are distinct they stay distinct, the source of the
    given type now holds the given items, in the place of the old source of
    that type or at the end when there was none, and every other source is
    left as it was. *)
Theorem registerSource_one_per_type {D} type (its : list (SearchModal.Item D)) m :
  NoDup (map SearchModal.src_type (SearchModal.sources m)) ->
  let m' := SearchModal.registerSource type its m in
  NoDup (map SearchModal.src_type (SearchModal.sources m'))
  /\ (forall s, In s (SearchModal.sources m')
        <-> s = {| SearchModal.src_type := type; SearchModal.items := its |}
            \/ (In s (SearchModal.sources m) /\ SearchModal.src_type s <> type))
  /\ List.filter (fun s => negb (bool_decide (SearchModal.src_type s = type)))
       (SearchModal.sources m')
     = List.filter (fun s => negb (bool_decide (SearchModal.src_type s = type)))
         (SearchModal.sources m)
  /\ (forall before old behind,
        SearchModal.sources m = before ++ old :: behind ->
        SearchModal.src_type old = type ->
        SearchModal.sources m'
        = before ++ {| SearchModal.src_type := type; SearchModal.items := its |} :: behind)
  /\ ((forall s, In s (SearchModal.sources m) -> SearchModal.src_type s <> type) ->
      SearchModal.sources m'
      = SearchModal.sources m
        ++ [ {| SearchModal.src_type := type; SearchModal.items := its |} ]).
Proof.
  intros Hnd m'. subst m'. unfold SearchModal.registerSource. cbn [SearchModal.sources].
  set (src := {| SearchModal.src_type := type; SearchModal.items := its |}).
  set (p := fun s : SearchModal.SearchableSource D =>
              bool_decide (SearchModal.src_type s = type)).
  destruct (findIndex p (SearchModal.sources m)) as [i|] eqn:E.
  - destruct (findIndex_Some _ _ _ E) as (pre & x & suf & El & Hlen & Hx & Hpre).
    rewrite El in *. clear E El.
    assert (Eins : <[ i := src ]> (pre ++ x :: suf) = pre ++ src :: suf).
    { rewrite <- Hlen. rewrite insert_app_r_alt by lia.
      by rewrite Nat.sub_diag. }
    rewrite Eins. unfold p in Hx. apply bool_decide_eq_true in Hx.
    pose proof Hnd as Hnd0.
    rewrite map_app in Hnd. cbn [map] in Hnd. rewrite Hx in Hnd.
    apply NoDup_app in Hnd as (Hpre_nd & Hdisj & Hsuf_nd).
    apply NoDup_cons in Hsuf_nd as [Hsuf_t Hsuf_nd].
    assert (Hsuf : forall y, In y suf -> SearchModal.src_type y <> type).
    { intros y Hy Ey. apply Hsuf_t. rewrite <- Ey, list_elem_of_In. by apply in_map. }
    assert (Hpre' : forall y, In y pre -> SearchModal.src_type y <> type).
    { intros y Hy Ey. specialize (Hpre y Hy). unfold p in Hpre.
      by apply bool_decide_eq_false in Hpre. }
    split; [|split; [|split; [|split]]].
    + rewrite map_app. cbn [map]. apply NoDup_app. repeat split; try done.
      by apply NoDup_cons.
    + intros s. rewrite !in_app_iff. cbn [In]. split.
      * intros [H|[<-|H]]; [right|by left|right].
        -- split; [tauto | by apply Hpre'].
        -- split; [tauto | by apply Hsuf].
      * intros [->|[[H|[<-|H]] Hne]]; tauto.
    + rewrite !List.filter_app. cbn [List.filter]. cbn [SearchModal.src_type src].
      rewrite Hx. by rewrite !bool_decide_eq_true_2 by done.
    + intros before old behind Esplit Hold.
      destruct (findIndex_split_unique SearchModal.src_type pre before suf behind x old)
        as (-> & _ & ->); [done | done | by rewrite Hx, Hold | done].
    + intros Hall. exfalso. apply (Hall x); [|done]. apply in_app_iff. right. by left.
  - pose proof (proj1 (findIndex_None _ _) E) as Hnone.
    assert (Hne : forall y, In y (SearchModal.sources m) -> SearchModal.src_type y <> type).
    { intros y Hy Ey. specialize (Hnone y Hy). unfold p in Hnone.
      by apply bool_decide_eq_false in Hnone. }
    split; [|split; [|split; [|split]]].
    + rewrite map_app. cbn [map]. apply NoDup_app. repeat split; try done.
      * intros t Ht1 Ht2. apply list_elem_of_singleton in Ht2. subst t.
        rewrite list_elem_of_In in Ht1. apply in_map_iff in Ht1 as (y & Ey & Hy).
        by apply (Hne y).
      * apply NoDup_singleton.
    + intros s. rewrite in_app_iff. cbn [In]. split.
      * intros [H|[<-|[]]]; [right | by left]. split; [done | by apply Hne].
      * intros [->|[H _]]; tauto.
    + rewrite List.filter_app. cbn [List.filter]. cbn [SearchModal.src_type src].
      rewrite bool_decide_eq_true_2 by done. cbn [negb]. by rewrite app_nil_r.
    + intros before old behind Esplit Hold. exfalso. apply (Hne old); [|done].
      rewrite Esplit. apply in_app_iff. right. by left.
    + done.
Qed.

Lemma registerSource_one_per_type_witness :
  SearchModal.sources
    (SearchModal.registerSource SearchModal.news
       [Scenarios.search_entry "n3" "Gaza truce" None] Scenarios.search_modal)
  = [] ++ {| SearchModal.src_type := SearchModal.news;
             SearchModal.items := [Scenarios.search_entry "n3" "Gaza truce" None] |}
       :: skipn 1 (SearchModal.sources Scenarios.search_modal).
Proof.
  assert (Hnd : NoDup (map SearchModal.src_type (SearchModal.sources Scenarios.search_modal))).
  { vm_compute. repeat constructor; set_solver. }
  exact (proj1 (proj2 (proj2 (proj2
           (registerSource_one_per_type SearchModal.news
              [Scenarios.search_entry "n3" "Gaza truce" None] Scenarios.search_modal Hnd))))
           [] _ _ eq_refl eq_refl).
Defined.

(** ** Searching *)

Lemma pushMatch_fold {D} query type (its : list (SearchModal.Item D)) acc :
  fold_left (SearchModal.pushMatch query type) its acc
  = acc ++ map (resultOf query type) (List.filter (itemMatches query) its).
Proof.
  revert acc. induction its as [|x its IH]; intros acc; cbn [fold_left List.filter map].
  - by rewrite app_nil_r.
  - rewrite IH. unfold SearchModal.pushMatch at 1. cbv zeta.
    fold (itemMatches query x). destruct (itemMatches query x); [|done].
    cbn [map]. rewrite <- app_assoc. reflexivity.
Qed.

Lemma found_fold {D} query (srcs : list (SearchModal.SearchableSource D)) acc :
  fold_left (fun results source =>
    fold_left (SearchModal.pushMatch query (SearchModal.src_type source))
      (SearchModal.items source) results) srcs acc
  = acc ++ flat_map (fun source =>
             map (resultOf query (SearchModal.src_type source))
               (List.filter (itemMatches query) (SearchModal.items source))) srcs.
Proof.
  revert acc. induction srcs as [|s srcs IH]; intros acc; cbn [fold_left flat_map].
  - by rewrite app_nil_r.
  - by rewrite IH, pushMatch_fold, app_assoc.
Qed.

Lemma insertResult_front {D} (x : SearchModal.SearchResult D) l :
  (forall y, In y l -> SearchModal._score y <= SearchModal._score x) ->
  SearchModal.insertResult x l = x :: l.
Proof.
  destruct l as [|y l]; [done|]. intros H. cbn [SearchModal.insertResult].
  rewrite (proj2 (Z.ltb_ge _ _)); [done|]. apply H. by left.
Qed.

Lemma insertResult_pass {D} (x : SearchModal.SearchResult D) pre l :
  (forall y, In y pre -> SearchModal._score x < SearchModal._score y) ->
  SearchModal.insertResult x (pre ++ l) = pre ++ SearchModal.insertResult x l.
Proof.
  induction pre as [|y pre IH]; intros H; [done|].
  cbn [app SearchModal.insertResult].
  rewrite (proj2 (Z.ltb_lt _ _)) by (apply H; by left).
  rewrite IH; [done|]. intros z Hz. apply H. by right.
Qed.

Lemma withScore_In {D} n (l : list (SearchModal.SearchResult D)) y :
  In y (withScore n l) <-> In y l /\ SearchModal._score y = n.
Proof. unfold withScore. by rewrite filter_In, Z.eqb_eq. Qed.

(** Sorting results that score 1 or 2: the twos, then the ones, each group in
    its order of arrival. *)
Lemma sortResults_two_scores {D} (l : list (SearchModal.SearchResult D)) :
  (forall r, In r l -> SearchModal._score r = 1 \/ SearchModal._score r = 2) ->
  SearchModal.sortResults l = withScore 2 l ++ withScore 1 l.
Proof.
  induction l as [|x l IH]; intros H; [done|].
  cbn [SearchModal.sortResults fold_right].
  fold (SearchModal.sortResults l). rewrite IH by (intros r Hr; apply H; by right).
  unfold withScore at 3 4. cbn [List.filter]. fold (withScore 2 l). fold (withScore 1 l).
  destruct (H x) as [E|E]; [by left| |]; rewrite E; cbn [Z.eqb Pos.eqb].
  - rewrite insertResult_pass.
    + rewrite insertResult_front; [done|].
      intros y Hy. apply withScore_In in Hy as [_ ->]. lia.
    + intros y Hy. apply withScore_In in Hy as [_ ->]. lia.
  - rewrite insertResult_front; [done|].
    intros y Hy. apply in_app_iff in Hy as [Hy|Hy]; apply withScore_In in Hy as [_ ->]; lia.
Qed.

Lemma allMatches_In {D} query (m : SearchModal.Modal D) r :
  In r (allMatches query m)
  <-> exists source item,
        In source (SearchModal.sources m) /\ In item (SearchModal.items source)
        /\ itemMatches query item = true
        /\ r = resultOf query (SearchModal.src_type source) item.
Proof.
  unfold allMatches. rewrite in_flat_map. split.
  - intros (source & Hs & Hr). apply in_map_iff in Hr as (item & <- & Hi).
    apply filter_In in Hi as [Hi Hm]. by exists source, item.
  - intros (source & item & Hs & Hi & Hm & ->). exists source. split; [done|].
    apply in_map_iff. exists item. split; [done|]. by apply filter_In.
Qed.

(** X22. [handleSearch] with a query that is blank once trimmed clears the
    results and leaves the selection where it was.  Otherwise the results are
    the matches whose title or subtitle starts with the query, in the order
    of sources and items, followed by the other matches in that order, cut to
    the first twelve, and the selection moves to the first; every result
    comes from an item whose title or subtitle contains the query. *)
Theorem handleSearch_results {D} (m : SearchModal.Modal D) :
  let query := queryOf m in
  let m' := SearchModal.handleSearch m in
  (query = EmptyString ->
     SearchModal.results m' = []
     /\ SearchModal.selectedIndex m' = SearchModal.selectedIndex m)
  /\ (query <> EmptyString ->
      SearchModal.results m'
      = firstn 12 (withScore 2 (allMatches query m) ++ withScore 1 (allMatches query m))
      /\ SearchModal.selectedIndex m' = 0
      /\ (length (SearchModal.results m') <= 12)%nat
      /\ forall r, In r (SearchModal.results m') ->
           exists source item,
             In source (SearchModal.sources m) /\ In item (SearchModal.items source)
             /\ itemMatches query item = true
             /\ r = resultOf query (SearchModal.src_type source) item)
  /\ SearchModal.sources m' = SearchModal.sources m
  /\ SearchModal.recentSearches m' = SearchModal.recentSearches m.
Proof.
  intros query m'. subst m'. unfold SearchModal.handleSearch.
  fold (queryOf m). fold query. cbv zeta.
  destruct (String.eqb_spec query EmptyString) as [E|E].
  - split; [done|]. split; [done|]. done.
  - split; [done|]. split; [|done]. intros _.
    cbn [SearchModal.results SearchModal.selectedIndex].
    rewrite found_fold. cbn [app]. fold (allMatches query m).
    assert (Hs : SearchModal.sortResults (allMatches query m)
                 = withScore 2 (allMatches query m) ++ withScore 1 (allMatches query m)).
    { apply sortResults_two_scores. intros r Hr.
      apply allMatches_In in Hr as (source & item & _ & _ & _ & ->).
      cbn [SearchModal._score resultOf]. destruct (itemPrefix query item); tauto. }
    rewrite Hs. split; [done|]. split; [done|]. split; [apply firstn_le|].
    intros r Hr. apply firstn_incl in Hr. apply allMatches_In.
    apply in_app_iff in Hr as [Hr|Hr]; by apply withScore_In in Hr as [Hr _].
Qed.

Lemma handleSearch_results_witness :
  SearchModal.results (SearchModal.handleSearch Scenarios.search_modal)
  = firstn 12 (withScore 2 (allMatches (queryOf Scenarios.search_modal) Scenarios.search_modal)
               ++ withScore 1 (allMatches (queryOf Scenarios.search_modal) Scenarios.search_modal)).
Proof.
  apply (proj1 (proj2 (handleSearch_results Scenarios.search_modal))).
  vm_compute. discriminate.
Defined.

(** Prefix matches first: typing [ iran ] lists the two items whose title or
    subtitle starts with it before the one whose title only contains it. *)
Example search_iran :
  map SearchModal.res_id (SearchModal.results (SearchModal.handleSearch Scenarios.search_modal))
  = ["n2"; "m1"; "n1"]%string.
Proof. vm_compute. reflexivity. Qed.

(** ** Moving the selection *)

(** X23. [moveSelection] by one step up or down keeps the selection inside
    the visible list, the results or else the recent searches, wrapping
    round at either end, and a step back undoes a step; with nothing to show
    it does nothing. *)
Theorem moveSelection_wraps {D} (m : SearchModal.Modal D) delta :
  let max := if (length (SearchModal.results m) =? 0)%nat
             then Z.of_nat (length (SearchModal.recentSearches m))
             else Z.of_nat (length (SearchModal.results m)) in
  let m' := SearchModal.moveSelection delta m in
  delta = 1 \/ delta = -1 ->
  0 <= SearchModal.selectedIndex m ->
  (max = 0 -> m' = m)
  /\ (0 < max ->
      0 <= SearchModal.selectedIndex m' < max
      /\ SearchModal.selectedIndex m' = (SearchModal.selectedIndex m + delta) mod max
      /\ (SearchModal.selectedIndex m < max ->
          SearchModal.selectedIndex (SearchModal.moveSelection (- delta) m')
          = SearchModal.selectedIndex m)).
Proof.
  intros max m' Hd Hsel. subst m'. unfold SearchModal.moveSelection. fold max. cbv zeta.
  assert (Hmax : 0 <= max) by (unfold max; destruct (_ =? _)%nat; lia).
  destruct (Z.eqb_spec max 0) as [E|E].
  - split; [done|]. lia.
  - split; [lia|]. intros Hpos. cbn [SearchModal.selectedIndex SearchModal.results
                                      SearchModal.recentSearches].
    fold max. rewrite (proj2 (Z.eqb_neq max 0) E).
    cbn [SearchModal.selectedIndex].
    assert (R : forall a, 0 <= a -> Z.rem (a + max) max = a mod max).
    { intros a Ha. rewrite Z.rem_mod_nonneg by lia.
      replace (a + max) with (a + 1 * max) by lia. by rewrite Z.mod_add by lia. }
    assert (E1 : Z.rem (SearchModal.selectedIndex m + delta + max) max
                 = (SearchModal.selectedIndex m + delta) mod max).
    { destruct (Z.eq_dec (SearchModal.selectedIndex m + delta) (-1)) as [En|En].
      - rewrite En. replace (-1 + max) with (max - 1) by lia.
        rewrite Z.rem_small by lia.
        replace (-1) with (max - 1 + (-1) * max) by lia.
        rewrite Z.mod_add by lia. by rewrite Z.mod_small by lia.
      - apply R. lia. }
    rewrite E1.
    pose proof (Z.mod_pos_bound (SearchModal.selectedIndex m + delta) max Hpos) as Hb.
    split; [done|]. split; [done|]. intros Hlt.
    set (s' := (SearchModal.selectedIndex m + delta) mod max) in *.
    assert (E2 : Z.rem (s' + - delta + max) max = (s' + - delta) mod max).
    { destruct (Z.eq_dec (s' + - delta) (-1)) as [En|En].
      - rewrite En. replace (-1 + max) with (max - 1) by lia.
        rewrite Z.rem_small by lia.
        replace (-1) with (max - 1 + (-1) * max) by lia.
        rewrite Z.mod_add by lia. by rewrite Z.mod_small by lia.
      - apply R. lia. }
    rewrite E2. unfold s'. rewrite Zplus_mod_idemp_l.
    replace (SearchModal.selectedIndex m + delta + - delta)
      with (SearchModal.selectedIndex m) by lia.
    apply Z.mod_small. lia.
Qed.

Lemma moveSelection_wraps_witness :
  SearchModal.selectedIndex (SearchModal.moveSelection (-1) Scenarios.search_modal) = (0 + -1) mod 2.
Proof.
  apply (moveSelection_wraps Scenarios.search_modal (-1)).
  - by right.
  - vm_compute. discriminate.
  - vm_compute. reflexivity.
Defined.

(** ** Recent searches *)

Lemma filter_NoDup_str (p : string -> bool) (l : list string) :
  NoDup l -> NoDup (List.filter p l).
Proof. intros H. apply NoDup_ListNoDup. apply List.NoDup_filter. by apply NoDup_ListNoDup. Qed.

Lemma firstn_NoDup {A} n (l : list A) : NoDup l -> NoDup (firstn n l).
Proof.
  revert n. induction l as [|x l IH]; intros [|n] H; cbn [firstn]; try constructor.
  - apply NoDup_cons in H as [Hx Hl]. rewrite list_elem_of_In in *.
    intros Hin. apply Hx. by apply firstn_incl in Hin.
  - apply NoDup_cons in H as [_ Hl]. by apply IH.
Qed.

(** X24. [saveRecentSearch] ignores a term shorter than two characters.  Any
    other term, its characters being ASCII, becomes the first recent search,
    followed by the first seven of the earlier terms other than itself, in
    their order: the list stays free of repetitions, holds at most eight
    terms, and the oldest falls off the end. *)
Theorem saveRecentSearch_spec {D} term (m : SearchModal.Modal D) :
  NoDup (SearchModal.recentSearches m) ->
  let m' := SearchModal.saveRecentSearch term m in
  ((String.length term < 2)%nat -> m' = m)
  /\ ((2 <= String.length term)%nat -> asciiOnly term ->
      head (SearchModal.recentSearches m') = Some term
      /\ tail (SearchModal.recentSearches m')
         = firstn 7 (List.filter (fun t => negb (String.eqb t term))
                       (SearchModal.recentSearches m))
      /\ NoDup (SearchModal.recentSearches m')
      /\ (length (SearchModal.recentSearches m') <= 8)%nat
      /\ sublist (tail (SearchModal.recentSearches m')) (SearchModal.recentSearches m)
      /\ ((length (SearchModal.recentSearches m) < 8)%nat ->
          forall t, In t (SearchModal.recentSearches m) ->
                    In t (SearchModal.recentSearches m'))
      /\ SearchModal.results m' = SearchModal.results m
      /\ SearchModal.selectedIndex m' = SearchModal.selectedIndex m).
Proof.
  intros Hnd m'. subst m'. unfold SearchModal.saveRecentSearch.
  destruct (String.eqb_spec term EmptyString) as [->|Hne]; cbn [orb].
  - split; [done|]. simpl. lia.
  - destruct (Nat.ltb_spec (String.length term) 2) as [Hlt|Hge].
    + split; [done|]. lia.
    + split; [lia|]. intros _ _. cbn [SearchModal.recentSearches SearchModal.results
                                      SearchModal.selectedIndex].
      set (rest := List.filter (fun t => negb (String.eqb t term))
                     (SearchModal.recentSearches m)).
      assert (Hrest : forall t, In t rest
                <-> In t (SearchModal.recentSearches m) /\ t <> term).
      { intros t. unfold rest. rewrite filter_In, negb_true_iff.
        by rewrite String.eqb_neq. }
      unfold SearchModal.MAX_RECENT. cbn [firstn head tail].
      split; [done|]. split; [done|]. split; [|split; [|split; [|split]]].
      * apply NoDup_cons. split.
        -- rewrite list_elem_of_In. intros H. apply firstn_incl in H.
           by apply Hrest in H as [_ H].
        -- apply firstn_NoDup. by apply filter_NoDup_str.
      * pose proof (firstn_le 7 rest). simpl. lia.
      * transitivity rest; [apply sublist_take | apply filter_sublist].
      * intros Hlen t Ht.
        destruct (String.eqb_spec t term) as [->|Htne]; [by left|]. right.
        rewrite firstn_all2; [by apply Hrest|].
        pose proof (List.filter_length_le (fun t => negb (String.eqb t term))
                      (SearchModal.recentSearches m)). fold rest in H. lia.
      * done.
Qed.

Lemma saveRecentSearch_spec_witness :
  tail (SearchModal.recentSearches (SearchModal.saveRecentSearch "iran" Scenarios.search_modal))
  = firstn 7 (List.filter (fun t => negb (String.eqb t "iran"))
                (SearchModal.recentSearches Scenarios.search_modal)).
Proof.
  assert (Hnd : NoDup (SearchModal.recentSearches Scenarios.search_modal)).
  { vm_compute. repeat constructor; set_solver. }
  assert (Hlen : (2 <= String.length "iran")%nat) by (vm_compute; lia).
  assert (Hascii : asciiOnly "iran") by reflexivity.
  exact (proj1 (proj2 (proj2 (saveRecentSearch_spec "iran" Scenarios.search_modal Hnd)
                         Hlen Hascii))).
Defined.

(** * Further properties of the signal modal and the source tables *)

Lemma show_behind {A} (signals held : list A) :
  skipn (length signals) (firstn 50 (signals ++ held))
  = firstn (50 - length signals) held.
Proof.
  rewrite List.skipn_firstn_comm, List.skipn_app, List.skipn_all, Nat.sub_diag.
  done.
Qed.

(** X25. The signal modal puts a new batch in front of the signals it holds
    and keeps the first fifty: the new list starts with the batch and goes on
    with the signals held before, in their order, as far as fifty allows.  The
    badge count grows by the size of the batch without any cap, so it can
    exceed the number of signals held, until a dismissal sets it to zero.
    Under every sequence of batches and dismissals the modal holds at most
    fifty signals and the count is not negative. *)
Theorem modal_keeps_fifty events signals m :
  (length (SignalModal.currentSignals m) <= 50)%nat ->
  0 <= SignalModal.pendingCount m ->
  let m' := fold_left modalStep events m in
  (length (SignalModal.currentSignals m') <= 50)%nat
  /\ 0 <= SignalModal.pendingCount m'
  /\ (signals <> [] ->
      firstn (length signals) (SignalModal.currentSignals (SignalModal.show signals m'))
      = firstn 50 signals
      /\ skipn (length signals) (SignalModal.currentSignals (SignalModal.show signals m'))
         = firstn (50 - length signals) (SignalModal.currentSignals m')
      /\ SignalModal.pendingCount (SignalModal.show signals m')
         = SignalModal.pendingCount m' + Z.of_nat (length signals))
  /\ SignalModal.show [] m' = m'
  /\ SignalModal.pendingCount (SignalModal.hide m') = 0
  /\ SignalModal.currentSignals (SignalModal.hide m') = SignalModal.currentSignals m'.
Proof.
  intros Hlen Hcount m'.
  assert (Hinv : (length (SignalModal.currentSignals m') <= 50)%nat
                 /\ 0 <= SignalModal.pendingCount m').
  { subst m'. revert m Hlen Hcount.
    induction events as [|e events IH]; intros m Hlen Hcount; cbn [fold_left]; [done|].
    apply IH; destruct e as [sigs|]; cbn [modalStep]; unfold SignalModal.show, SignalModal.hide.
    - destruct (length sigs =? 0)%nat; [done|]. cbn [SignalModal.currentSignals].
      apply firstn_le.
    - done.
    - destruct (length sigs =? 0)%nat; [done|]. cbn [SignalModal.pendingCount]. lia.
    - cbn [SignalModal.pendingCount]. lia. }
  destruct Hinv as [H1 H2]. split; [done|]. split; [done|].
  split; [|by repeat split].
  intros Hne. unfold SignalModal.show.
  destruct signals as [|s signals]; [done|].
  cbn [length Nat.eqb SignalModal.currentSignals SignalModal.pendingCount].
  split; [|split; [|done]].
  2: { apply (show_behind (s :: signals) (SignalModal.currentSignals m')). }
  rewrite firstn_firstn, firstn_app.
  destruct (Nat.le_ge_cases (S (length signals)) 50) as [Hle|Hge].
  - rewrite Nat.min_l by lia. rewrite Nat.sub_diag. cbn [firstn]. rewrite app_nil_r.
    rewrite !firstn_all2 by (simpl; lia). done.
  - rewrite Nat.min_r by lia.
    replace (50 - length (s :: signals))%nat with 0%nat by (simpl; lia).
    cbn [firstn]. by rewrite app_nil_r.
Qed.

Lemma modal_keeps_fifty_witness :
  (length (SignalModal.currentSignals
             (fold_left modalStep [Arrive Scenarios.old_history; Dismiss; Arrive Scenarios.fresh_signals]
                SignalModal.empty)) <= 50)%nat.
Proof.
  assert (H0 : (length (SignalModal.currentSignals SignalModal.empty) <= 50)%nat)
    by (simpl; lia).
  assert (H1 : 0 <= SignalModal.pendingCount SignalModal.empty) by (simpl; lia).
  exact (proj1 (modal_keeps_fifty
                  [Arrive Scenarios.old_history; Dismiss; Arrive Scenarios.fresh_signals]
                  Scenarios.fresh_signals SignalModal.empty H0 H1)).
Defined.

(** ** Source tiers and source types *)

Lemma lookup_type_In tbl k t : lookup_type tbl k = Some t -> In (k, t) tbl.
Proof.
  induction tbl as [|[k' t'] tbl IH]; cbn [lookup_type]; [done|].
  destruct (String.eqb_spec k' k) as [->|Hne].
  - intros [= ->]. by left.
  - intros H. right. by apply IH.
Qed.

Lemma lookup_tier_In tbl k t : lookup_tier tbl k = Some t -> In (k, t) tbl.
Proof.
  induction tbl as [|[k' t'] tbl IH]; cbn [lookup_tier]; [done|].
  destruct (String.eqb_spec k' k) as [->|Hne].
  - intros [= ->]. by left.
  - intros H. right. by apply IH.
Qed.

(** X26. The two tables of [config/feeds.ts] agree: every source typed as a
    wire service is in tier 1; every source listed in tier 1 is typed as a
    wire service or as a government source; and every source that has a type
    has a tier between 1 and 4, the default 4 when the tier table does not
    list it. *)
Theorem wire_sources_are_tier_one sourceName :
  (getSourceType sourceName = wire -> getSourceTier sourceName = 1)
  /\ (lookup_tier SOURCE_TIERS sourceName = Some 1 ->
      getSourceType sourceName = wire \/ getSourceType sourceName = gov)
  /\ (getSourceType sourceName <> other -> 1 <= getSourceTier sourceName <= 4).
Proof.
  assert (Hty : forall t, lookup_type SOURCE_TYPES sourceName = Some t ->
            (t = wire -> getSourceTier sourceName = 1)
            /\ 1 <= getSourceTier sourceName <= 4).
  { intros t H. apply lookup_type_In in H.
    assert (Hall : forallb (fun kt =>
              (if bool_decide (snd kt = wire) then getSourceTier (fst kt) =? 1 else true)
              && (1 <=? getSourceTier (fst kt)) && (getSourceTier (fst kt) <=? 4))
              SOURCE_TYPES = true) by (vm_compute; reflexivity).
    rewrite forallb_forall in Hall. specialize (Hall _ H). cbn [fst snd] in Hall.
    apply andb_true_iff in Hall as [Hall H4]. apply andb_true_iff in Hall as [Hw H1].
    split; [|lia]. intros ->. rewrite bool_decide_eq_true_2 in Hw by done. lia. }
  unfold getSourceType at 1 2 3 4.
  split; [|split].
  - destruct (lookup_type SOURCE_TYPES sourceName) as [t|] eqn:E; [|done].
    intros ->. by apply (Hty wire).
  - intros H. apply lookup_tier_In in H.
    assert (Hall : forallb (fun kt =>
              if snd kt =? 1
              then bool_decide (getSourceType (fst kt) = wire)
                   || bool_decide (getSourceType (fst kt) = gov)
              else true) SOURCE_TIERS = true) by (vm_compute; reflexivity).
    rewrite forallb_forall in Hall. specialize (Hall _ H). cbn [fst snd Z.eqb Pos.eqb] in Hall.
    apply orb_true_iff in Hall as [Hall|Hall]; apply bool_decide_eq_true in Hall;
      unfold getSourceType in Hall; tauto.
  - destruct (lookup_type SOURCE_TYPES sourceName) as [t|] eqn:E; [|done].
    intros _. by apply (Hty t).
Qed.

Lemma wire_sources_are_tier_one_witness : getSourceTier "Reuters" = 1.
Proof.
  apply (proj1 (wire_sources_are_tier_one "Reuters")).
  vm_compute. reflexivity.
Defined.
